(* ===== verification/_CoqProject ===== *)
-Q . S2P
Prelude.v
Term.v
Glob.v
Index.v
Clause.v
Delegation.v
Fixtures.v
Matchers.v
Query.v
Typing.v
Authorization.v
Grouping.v
Scenarios.v
Storage.v
Accounts.v
SaveConcurrent.v
AccountStore.v
Pipeline.v
