(* ===== verification/Prelude.v ===== *)
(** * A verification development of w3up's authorization query and stores

    The program.  [src/packages/w3up-client/src/authorization/query.js]
    builds, for a selector (audience, requested abilities, optional
    subject pattern, time), a Datalog query whose answers are the
    delegation chains that authorize the audience: [query] allocates a
    group of variables per requested ability ([DB.string()],
    [DB.link()]) and conjoins, per group, [match] (the union of
    [explicit] and [implicit] delegation matches), the requested-ability
    glob and the attestation gate for [did:mailto:] issuers, then the
    subject and audience text constraints.  The query runs in an
    in-memory Datalog engine (datalogia) over facts projected from
    delegations; [Authorization.find] turns each answer into a record.
    [src/unnamed/part_000] holds the durable side: the delegation store
    [DbDelegationsStorageWithR2] (rows of a SQL table, CAR bytes in an
    R2 bucket) and the account store [Accounts] (a D1 table and a KV
    namespace).  [src/unnamed/part_001] is the test suite [testDB].

    Files (in dependency order; each holds one Module):
    - [Prelude]: this header, the [result] error monad ([Ok]/[Err] with
      stdpp's bind notation), the scope [w3up_scope], the hint databases
      [w3up] and [w3up_rw], the tactic [inv_bind], the generic lemmas
      on results, lists and strings the components share, and
      termination of a step relation by a measure ([measure_sn]) with
      a run to a normal form ([sn_nf_exists]).
    - [Term]: datalogia's scalars, links and terms, bindings as
      [gmap nat scalar], resolution and unification (sound, least,
      complete), and the allocation monad [fresh] of [DB.string()].
    - [Glob]: the glob matcher of text constraints, proved equal to a
      relational reading ([glob_correct]), with its prefix cases.
    - [Index]: facts and the attribute index; the indexed [lookup] is
      proved equal to the reference linear [scan] ([lookup_build_scan]).
    - [Clause]: the clause language and its evaluator [eval] / [run]
      ([DB.query]); [eval_correct]: its results are exactly the least
      extensions of the input binding satisfying the declarative [sat];
      [eval_mode_ok]: a clause passing the mode check raises no
      unbound-variable error; [eval_sim]: evaluation over two indexes
      answering the same facts gives the same bindings up to order;
      [eval_mono]: a clause whose negations read no fact ([neg_safe])
      has at least its answers over an index with more facts.
    - [Delegation]: delegations (nested, with their proofs), the
      projector to facts ([assert]), [DB.from] and [DB.transact], and
      content addressing ([cid_unique]).
    - [Fixtures]: the principals and delegation shapes of the tests
      ([share], [login], [attestation], [setupAccount]).
    - [Matchers]: [Capability.match], [Delegation.match] / [forwards] /
      [issuedBy] / [hasProof], [Attestation.match], [Text.match] and
      their meaning over the facts of a delegation set.
    - [Query]: query.js itself; [query_sound] (every answer is backed
      by unexpired, attested proofs), [query_run_ok] (the query passes
      the mode check, so it never raises), [query_layout] (where the
      variables of each group and each clause are allocated) and
      [query_empty_need].
    - [Typing]: the types query.js declares for its variables
      ([DB.string()], [DB.link()]; [query_env]), a schema of the facts
      the projector asserts ([schema], [assert_wt]), a type check of
      clauses that follows the mode analysis ([ty_ok]) and its
      soundness for [eval] ([eval_typed]); [query_answers_typed]: over
      any delegation set, every answer binds the string variables to
      strings and the link variables to delegation CIDs.
    - [Authorization]: [find] and the records; soundness [find_sound],
      completeness for explicit grants under ability patterns
      [find_complete_explicit], for the query of any ability
      [find_complete_any] and for attested [did:mailto:] logins, issued
      by the subject or reaching it through a proof
      [find_complete_login], the
      expiration boundary [find_expiration_boundary], totality
      [find_total], idempotence of projection
      [find_transact_idempotent] (results depend on the delegations
      only as a set, [result_sim] of Clause) and monotonicity
      [find_transact_monotone] (more delegations never withdraw a
      record).
    - [Grouping]: the grouping law of spec 8 ([find_grouped]): when
      each of several requested abilities is granted explicitly to the
      audience on the subject, [find] returns one record listing them
      all and citing every grant; the proof builds the binding of the
      grants ([grouped_binding], laid out as [query_layout] says) and
      takes the evaluator's answer below it ([eval_correct]).
    - [Scenarios]: the tests of part_001 that call the query, each a
      definition whose assertions are Examples checked by evaluation
      (they validate the model against the suite; the general
      statements are the theorems of the other files), and three
      Examples that run the findings the general theorems cover
      ([finding_ucan_star_subject] for [find_complete_explicit],
      [finding_self_attestation] for [find_complete_login],
      [finding_implicit_same_can] for [find_sound]).
    - [Storage]: [DbDelegationsStorageWithR2] against the [Codec]
      interface (a class: CAR encoding, the two CID strings
      [cid.toString()] and [cid.toV1().toString()], and the roundtrip
      law the store relies on); an abstract store (a list of
      delegations, [put_abs]) and the refinement [putMany_find_refines]
      for version 1 CIDs; the [DelegationsStorage] interface the class
      asserts, as a class with its contract ([DelegationsStorageSpec]),
      a client proved against it (batches of [putMany] then [find]),
      and the store's instance, discharged by the refinement; [putMany_cidv0_unreadable]: a CIDv0
      delegation is written under a key [find] never reads; error
      paths of [#rowToDelegation]; the generators of [find] and the
      iterator as streams ([yields xs s] yields [xs], then goes on as
      [s]): [find] yields the rows that read and throws at the first
      that does not ([find_first_error]), the iterator throws
      [NotImplementedError] before yielding anything when the
      database cannot stream ([asyncIterator_spec]);
      idempotence of [putMany]; the Uint8 wrap-around
      of [delegationsTableBytesToArrayBuffer].
    - [Accounts]: [Accounts] with rows as column maps; [get] after
      [create] ([updated_at] is always undefined: the code reads
      [update_at]); [saveDelegation] atomically and as two steps (a
      read, then a write: [save_step]).
    - [SaveConcurrent]: any number of concurrent [saveDelegation]
      calls, a list of threads each at a point of [save_pc], [stepN]
      letting any of them take its step: two calls that both read
      before either writes lose the first delegation
      ([save_lost_update]); an invariant by rule induction
      on [rtc stepN] gives [save_concurrent_interleavings] (the final
      array is the one before followed by a non-empty sub-multiset of
      the calls' encodings: lost, never duplicated), and it is tight:
      [save_concurrent_outcomes] (every such selection is the outcome
      of a schedule, built from framing and permutation lemmas).
      The steps terminate (a rank each step lowers), which gives the
      run where every call finishes that the witnesses use.
    - [AccountStore]: the account store interface of spec section 6
      as a class with its contract, a client proved against the
      contract (a batch of saves), the [Accounts] instance
      ([accounts_store_spec]), and [sequential_refines_atomic]: calls
      run one after the other through their steps leave what the
      atomic calls leave.
    - [Pipeline]: the composition of the store and the query (spec
      section 4: storage work precedes the engine, a query session is
      a function of a snapshot): [store_then_find] proves that the
      snapshot read back after [putMany] of batches, by the iterator or
      by [find({audience})], gives [Authorization.find] the same result,
      up to order and repetition, as the delegations put; proved only
      from the store's refinement lemmas and [find_same_elems].

    Modelling choices.  Times are integer seconds ([Z]); the default
    [Date.now() / 1000] is a parameter [now], an integer: the JS value
    is fractional, and since expirations are integers, comparing
    [expiration >= Date.now() / 1000] is comparing with its ceiling,
    which [now] stands for.  An expiration is a finite
    [Z] or none ([Infinity]).  Variables are numbers handed out by a
    counter in the order the JS code evaluates its default parameters.
    No fuel is needed anywhere: evaluation is structural on the clause
    tree, the projector on the nested delegation tree, the stores'
    operations on lists.  Async generators are finite streams that
    yield values and may end in a thrown error; a [SELECT] without
    [ORDER BY] is taken to return rows in insertion order (the
    theorems on [find]'s order depend on it, the others do not);
    awaits matter only in
    [saveDelegation], whose two steps are modelled explicitly.
    CIDs are explicit numbers; content hashing is the hypothesis
    [cid_unique] (resp. [content_addressed]) where a theorem needs it.

    Not modelled: the datalogia engine, agent/*.js and authorization.js
    are not under src/ and are modelled from the spec (sections
    4.1-4.6); the CAR codec is an interface; network and storage I/O,
    the D1 schema beyond its insertion defaults, the client's [Space]
    module and the tests on [space/query.js]; [Account.match], used by
    the test 'account view', is modelled from the spec (4.5).  The
    tests 'find account spaces' and 'find capabilities grouped by
    spaces' of part_001 call [Space] helpers of [space/query.js],
    which is neither in the sources nor in the spec; the constant
    [delegationsV2TableName] of part_000 is declared and never read. *)

From Stdlib Require Export ZArith String Ascii.
From stdpp Require Export base list gmap strings.

Declare Scope w3up_scope.
Delimit Scope w3up_scope with w3up.
Open Scope w3up_scope.

(** ** The error monad of fallible operations *)

Inductive result (E A : Type) : Type :=
  | Ok (a : A)
  | Err (e : E).
Arguments Ok {E A} a.
Arguments Err {E A} e.

#[export] Instance result_ret {E} : MRet (result E) := λ A a, Ok a.
#[export] Instance result_bind {E} : MBind (result E) :=
  λ A B f r, match r with Ok a => f a | Err e => Err e end.
#[export] Instance result_fmap {E} : FMap (result E) :=
  λ A B f r, match r with Ok a => Ok (f a) | Err e => Err e end.

Definition is_ok {E A} (r : result E A) : bool :=
  match r with Ok _ => true | Err _ => false end.

(** Two lists with the same elements (order and multiplicity ignored):
    the equality of query answers used by the spec's set-equality
    assertions. *)
Definition same_elems {A} (l1 l2 : list A) : Prop := l1 ⊆ l2 ∧ l2 ⊆ l1.
Infix "≡ₛ" := same_elems (at level 70) : w3up_scope.

Create HintDb w3up discriminated.
Create Rewrite HintDb w3up_rw.

(** ** Generic lemmas *)

Section result_lemmas.
Context {E A B : Type}.

Lemma bind_Ok_inv (c : result E A) (k : A → result E B) (b : B) :
    (c ≫= k) = Ok b → ∃ a, c = Ok a ∧ k a = Ok b.
  Proof. destruct c; simpl; [eauto | discriminate]. Qed.

Lemma bind_Ok (a : A) (k : A → result E B) : (Ok a ≫= k) = k a.
  Proof. reflexivity. Qed.

Lemma bind_Err (e : E) (k : A → result E B) : (Err e ≫= k) = Err e.
  Proof. reflexivity. Qed.

(** [mapM] over the error monad succeeds exactly when every call does. *)
Lemma mapM_result_Ok (f : A → result E B) (l : list A) (k : list B) :
    mapM f l = Ok k ↔ Forall2 (λ x y, f x = Ok y) l k.
  Proof.
    revert k. induction l as [|x l IH]; intros k; simpl.
    - split; [intros [= <-]; constructor | intros H; inversion H; reflexivity].
    - split.
      + destruct (f x) eqn:Hf; simpl; [|discriminate].
        destruct (mapM f l) eqn:Hl; simpl; [|discriminate].
        intros [= <-]. constructor; [done | by apply IH].
      + intros H; inversion H as [|? y ? k' Hy Hk]; subst.
        rewrite Hy; simpl. apply IH in Hk. by rewrite Hk.
  Qed.

(** If some call fails, [mapM] fails. *)
Lemma mapM_result_Err (f : A → result E B) (l : list A) :
    (∃ x e, x ∈ l ∧ f x = Err e) → ∃ e, mapM f l = Err e.
  Proof.
    induction l as [|y l IH]; intros (x & e & Hx & He); [set_solver|].
    simpl. destruct (f y) eqn:Hy; simpl; [|eauto].
    apply elem_of_cons in Hx as [->|Hx]; [congruence|].
    destruct IH as [e' ->]; [eauto|]. simpl. eauto.
  Qed.

End result_lemmas.

(** The join step: an element of the flattened results of a successful
    [mapM] comes from the result of one call. *)
Lemma elem_of_concat_mapM {E A B} (f : A → result E (list B)) (l : list A) (rs : list (list B)) (y : B) :
  mapM f l = Ok rs →
  y ∈ mjoin rs ↔ ∃ x r, x ∈ l ∧ f x = Ok r ∧ y ∈ r.
Proof.
  intros Hm. apply mapM_result_Ok in Hm.
  rewrite list_elem_of_join. split.
  - intros (r & Hy & Hr). apply list_elem_of_lookup in Hr as [i Hi].
    destruct (Forall2_lookup_r _ _ _ _ _ Hm Hi) as (x & Hx & Hfx).
    exists x, r. split_and!; [|done|done]. by eapply list_elem_of_lookup_2.
  - intros (x & r & Hx & Hfx & Hy). apply list_elem_of_lookup in Hx as [i Hi].
    destruct (Forall2_lookup_l _ _ _ _ _ Hm Hi) as (r' & Hr' & Hfx').
    rewrite Hfx in Hfx'. simplify_eq. exists r'. split; [done|].
    by eapply list_elem_of_lookup_2.
Qed.

Lemma mapM_Ok_elem {E A B} (f : A → result E B) (l : list A) (rs : list B) x :
  mapM f l = Ok rs → x ∈ l → ∃ r, f x = Ok r ∧ r ∈ rs.
Proof.
  intros Hm Hx. apply mapM_result_Ok in Hm. apply list_elem_of_lookup in Hx as [i Hi].
  destruct (Forall2_lookup_l _ _ _ _ _ Hm Hi) as (r & Hr & Hf).
  exists r. split; [done | by eapply list_elem_of_lookup_2].
Qed.

(** [mapM] fails with the error of the first failing call. *)
Lemma mapM_result_Err_first {E A B} (f : A → result E B) (l : list A) (e : E) :
  mapM f l = Err e ↔ ∃ pre x post ys, l = pre ++ x :: post ∧ mapM f pre = Ok ys ∧ f x = Err e.
Proof.
  split.
  - induction l as [|y l IH]; simpl; [done|]. intros H.
    destruct (f y) as [b|e'] eqn:Hy; simpl in H.
    + destruct (mapM f l) as [bs|e''] eqn:Hl; simpl in H; [done|]. injection H as ->.
      destruct (IH eq_refl) as (pre & x & post & ys & -> & Hpre & Hx).
      exists (y :: pre), x, post, (b :: ys). simpl. by rewrite Hy, Hpre.
    + injection H as ->. by exists [], y, l, [].
  - intros (pre & x & post & ys & -> & Hpre & Hx). revert ys Hpre.
    induction pre as [|z pre IH]; intros ys Hpre; simpl.
    + by rewrite Hx.
    + simpl in Hpre. destruct (f z); simpl in *; [|done].
      destruct (mapM f pre) as [ys'|] eqn:Hp; simpl in Hpre; [|done]. by rewrite (IH ys').
Qed.

(** [mapM] succeeds when every call on the list does. *)
Lemma mapM_Ok_total {E A B} (f : A → result E B) (l : list A) :
  (∀ x, x ∈ l → ∃ r, f x = Ok r) → ∃ rs, mapM f l = Ok rs.
Proof.
  induction l as [|x l IH]; intros Hall; simpl; [eauto|].
  destruct (Hall x) as [r ->]; [set_solver|]. simpl.
  destruct IH as [rs ->]; [intros y Hy; apply Hall; set_solver|]. simpl. eauto.
Qed.

Lemma elem_of_flat_map {A B} (f : A → list B) (l : list A) (y : B) :
  y ∈ flat_map f l ↔ ∃ x, x ∈ l ∧ y ∈ f x.
Proof.
  rewrite list_elem_of_In, in_flat_map. setoid_rewrite list_elem_of_In. done.
Qed.

Section same_elems_lemmas.
Context {A : Type}.

#[export] Instance same_elems_equivalence : Equivalence (@same_elems A).
  Proof.
    split; unfold same_elems.
    - intros l; split; done.
    - intros l1 l2 [??]; split; done.
    - intros l1 l2 l3 [??] [??]; split; etrans; eauto.
  Qed.

#[export] Instance app_same_elems_proper :
    Proper (same_elems ==> same_elems ==> same_elems) (@app A).
  Proof. intros l1 l1' [??] l2 l2' [??]; split; set_solver. Qed.

Lemma same_elems_app_dup (l : list A) : l ++ l ≡ₛ l.
  Proof. split; set_solver. Qed.

Lemma same_elems_nil (l1 l2 : list A) : l1 ≡ₛ l2 → l1 = [] ↔ l2 = [].
Proof.
  intros [H1 H2]. split; intros ->; [destruct l2 as [|x ?]|destruct l1 as [|x ?]]; try done;
    [specialize (H2 x)|specialize (H1 x)]; set_solver.
Qed.
End same_elems_lemmas.

#[export] Instance omap_same_elems_proper {A B} (f : A → option B) :
  Proper (same_elems ==> same_elems) (omap f).
Proof. intros l1 l2 [H1 H2]. split; intros x; rewrite !list_elem_of_omap; naive_solver. Qed.

#[export] Instance fmap_same_elems_proper {A B} (f : A → B) :
  Proper (same_elems ==> same_elems) (fmap f).
Proof. intros l1 l2 [H1 H2]. split; intros x; rewrite !list_elem_of_fmap; naive_solver. Qed.

#[export] Instance filter_same_elems_proper {A} (P : A → Prop) `{∀ x, Decision (P x)} :
  Proper (same_elems ==> same_elems) (filter P).
Proof. intros l1 l2 [H1 H2]. split; intros x; rewrite !list_elem_of_filter; naive_solver. Qed.

(** ** Strings *)

Lemma string_app_length (s t : string) : String.length (s +:+ t) = String.length s + String.length t.
Proof.
  induction s as [|c s IH]; [done|].
  change (String c s +:+ t) with (String c (s +:+ t)). cbn [String.length]. by rewrite IH.
Qed.

Lemma string_app_nil (t : string) : "" +:+ t = t.
Proof. reflexivity. Qed.

Lemma string_app_cons c (s t : string) : String c s +:+ t = String c (s +:+ t).
Proof. reflexivity. Qed.

(** A string is a prefix of itself extended. *)
Lemma string_prefix_app (p x : string) : String.prefix p (p +:+ x) = true.
Proof.
  induction p as [|c p IH]; [by destruct x|]. rewrite string_app_cons. simpl.
  by destruct (ascii_dec c c).
Qed.

(** Appending a suffix is injective: keys [s +:+ ".car"] name their [s]. *)
Lemma string_app_inj_r (s1 s2 t : string) : s1 +:+ t = s2 +:+ t → s1 = s2.
Proof.
  revert s2. induction s1 as [|c s1 IH]; intros [|c' s2] H;
    rewrite ?string_app_nil, ?(string_app_cons c), ?(string_app_cons c') in H; try done.
  - apply (f_equal String.length) in H. cbn [String.length] in H. rewrite string_app_length in H. lia.
  - apply (f_equal String.length) in H. cbn [String.length] in H. rewrite string_app_length in H. lia.
  - injection H as -> H. by rewrite (IH s2 H).
Qed.

(** ** Termination of step relations *)

(** ** Lists updated at an index *)

Section list_insert.
Context {A B : Type}.

(** Updating an element to one [g] maps alike keeps [omap g]. *)
Lemma omap_insert_same (g : A → option B) (l : list A) i x y :
  l !! i = Some x → g x = g y → omap g (<[i:=y]> l) = omap g l.
Proof.
  revert i. induction l as [|a l IH]; intros [|i] Hi Hg; simplify_eq/=; [by rewrite Hg|].
  by rewrite IH.
Qed.

(** Updating an element [g] drops to one it keeps adds that image. *)
Lemma omap_insert_new (g : A → option B) (l : list A) i x y z :
  l !! i = Some x → g x = None → g y = Some z → omap g (<[i:=y]> l) ≡ₚ z :: omap g l.
Proof.
  revert i. induction l as [|a l IH]; intros [|i] Hi Hx Hy; simplify_eq/=; [by rewrite Hx, Hy|].
  destruct (g a); [|by apply IH]. rewrite (IH i Hi Hx Hy). apply Permutation_swap.
Qed.

(** Updating an element of a list updates the same element of any
    permutation of it. *)
Lemma Permutation_insert_lookup (l l' : list A) i x y :
  l !! i = Some x → l ≡ₚ l' → ∃ j, l' !! j = Some x ∧ <[i:=y]> l ≡ₚ <[j:=y]> l'.
Proof.
  intros Hi Hp. destruct (list_elem_of_split_length l i x Hi) as (l1 & l2 & -> & ->).
  assert (x ∈ l') as Hx by (rewrite <-Hp; set_solver).
  destruct (list_elem_of_split _ _ Hx) as (l1' & l2' & ->).
  exists (length l1'). split; [by rewrite lookup_app_r, Nat.sub_diag by lia|].
  rewrite !insert_app_r_alt, !Nat.sub_diag by lia. simpl.
  rewrite <-!Permutation_middle. constructor. by apply (Permutation_app_inv _ _ _ _ x).
Qed.

(** A permutation of an image is the image of a permutation. *)
Lemma Permutation_fmap_inv (f : A → B) (k : list B) (l : list A) :
  k ≡ₚ f <$> l → ∃ l', k = f <$> l' ∧ l ≡ₚ l'.
Proof.
  revert k. induction l as [|a l IH]; intros k Hk.
  - apply Permutation_nil_r in Hk as ->. by exists [].
  - apply Permutation_cons_inv_r in Hk as (k1 & k2 & -> & Hk).
    destruct (IH (k1 ++ k2)) as (l'' & Hl'' & Hp); [by symmetry|]. symmetry in Hl''. apply fmap_app_inv in Hl'' as (m1 & m2 & -> & -> & ->).
    exists (m1 ++ a :: m2). rewrite fmap_app. split; [done|]. rewrite <-Permutation_middle. by constructor.
Qed.

Lemma sum_list_with_insert (f : A → nat) (l : list A) i x y :
  l !! i = Some x → sum_list_with f (<[i:=y]> l) + f x = sum_list_with f l + f y.
Proof.
  revert i. induction l as [|a l IH]; intros [|i] Hi; simplify_eq/=; [lia|]. specialize (IH i Hi). lia.
Qed.
End list_insert.

Section termination.
Context {A : Type} (R : relation A).

(** From a strongly normalizing state where every state steps or is
    stuck, some run ends in a stuck state. *)
Lemma sn_nf_exists x : (∀ y, red R y ∨ nf R y) → sn R x → ∃ y, rtc R x y ∧ nf R y.
Proof.
  intros Hdec Hsn. induction Hsn as [x _ IH]. destruct (Hdec x) as [[y Hy]|Hnf].
  - destruct (IH y Hy) as (z & Hz & Hnf). exists z. split; [by eapply rtc_l|done].
  - exists x. split; [apply rtc_refl|done].
Qed.

(** A relation decreasing a measure at each step terminates. *)
Lemma measure_sn (f : A → nat) x : (∀ y z, R y z → f z < f y) → sn R x.
Proof.
  intros Hf. remember (f x) as n eqn:Hn. revert x Hn.
  induction (lt_wf n) as [n _ IH]; intros x ->.
  constructor. intros y Hy. eapply IH; [apply Hf, Hy|done].
Qed.

End termination.

#[export] Hint Resolve bind_Ok_inv : w3up.
#[export] Hint Rewrite @bind_Ok @bind_Err : w3up_rw.

(** Decompose a successful chain of binds in hypothesis [H]. *)
Ltac inv_bind H :=
  repeat match type of H with
  | (_ ≫= _) = Ok _ =>
      let a := fresh "a" in let Ha := fresh "Ha" in
      apply bind_Ok_inv in H as (a & Ha & H)
  | mret _ = Ok _ => cbv [mret result_ret] in H; injection H as H
  end.
