(* ===== verification/Term.v ===== *)
(** * Terms, bindings and variable allocation (spec 4.1)

    The unit of unification of the Datalog engine: a term is a logic
    variable or a constant scalar; a binding maps variable ids to
    scalars.  Variables are allocated by a counter threaded through
    query construction ([DB.string()], [DB.link()], [DB.integer()] of
    datalogia all allocate one). *)
From S2P Require Import Prelude.

Module Term.

(** Content links: the CID of a delegation, and the entity of the
    [i]-th capability of the delegation with CID [d] (deterministic, so
    that projecting a delegation twice gives the same facts). *)
Inductive link :=
  | Cid (n : N)
  | CapLink (d : N) (i : nat).

Inductive scalar :=
  | SStr (s : string)
  | SInt (z : Z)
  | SInf
  | SLink (l : link).

#[export] Instance link_eq_dec : EqDecision link.
Proof. solve_decision. Defined.
#[export] Instance scalar_eq_dec : EqDecision scalar.
Proof. solve_decision. Defined.

Inductive term :=
  | Var (x : nat)
  | Const (c : scalar).

#[export] Instance term_eq_dec : EqDecision term.
Proof. solve_decision. Defined.

Abbreviation binding := (gmap nat scalar).

Definition term_vars (t : term) : list nat :=
  match t with Var x => [x] | Const _ => [] end.

(** The scalar a term denotes under a binding, if any. *)
Definition resolve (β : binding) (t : term) : option scalar :=
  match t with Var x => β !! x | Const c => Some c end.

(** Unify a term with a scalar of a fact: a constant or bound variable
    must be equal to it, an unbound variable gets bound to it. *)
Definition unify (t : term) (s : scalar) (β : binding) : option binding :=
  match resolve β t with
  | Some c => if decide (c = s) then Some β else None
  | None =>
      match t with
      | Var x => Some (<[x := s]> β)
      | Const _ => None
      end
  end.

(** ** Variable allocation *)

Record fresh (A : Type) := Fresh { run_fresh : nat → A * nat }.
Arguments Fresh {A} _.
Arguments run_fresh {A} _ _.

#[export] Instance fresh_ret : MRet fresh := λ A a, Fresh (λ n, (a, n)).
#[export] Instance fresh_bind : MBind fresh :=
  λ A B f m, Fresh (λ n, let '(a, n') := run_fresh m n in run_fresh (f a) n').

(** [variable()]: a new variable, the next id of the counter. *)
Definition variable : fresh term := Fresh (λ n, (Var n, S n)).

(** ** Lemmas *)

Lemma resolve_weaken β β' t c :
  resolve β t = Some c → β ⊆ β' → resolve β' t = Some c.
Proof. destruct t; simpl; [apply lookup_weaken | done]. Qed.

Lemma unify_sound t s β γ :
  unify t s β = Some γ → β ⊆ γ ∧ resolve γ t = Some s.
Proof.
  unfold unify. destruct (resolve β t) as [c|] eqn:Hr.
  - case_decide; intros; simplify_eq; done.
  - destruct t as [x|]; intros; simplify_eq/=.
    split; [by apply insert_subseteq | apply lookup_insert_eq].
Qed.

(** Unification binds as little as possible: its result is below every
    extension of [β] in which [t] denotes [s]. *)
Lemma unify_least t s β γ δ :
  unify t s β = Some γ → β ⊆ δ → resolve δ t = Some s → γ ⊆ δ.
Proof.
  unfold unify. destruct (resolve β t) as [c|] eqn:Hr.
  - case_decide; intros; simplify_eq; done.
  - destruct t as [x|]; intros; simplify_eq/=.
    by apply insert_subseteq_l.
Qed.

Lemma unify_complete t s β δ :
  β ⊆ δ → resolve δ t = Some s → ∃ γ, unify t s β = Some γ.
Proof.
  intros Hsub Hd. unfold unify. destruct (resolve β t) as [c|] eqn:Hr.
  - rewrite (resolve_weaken _ _ _ _ Hr Hsub) in Hd. simplify_eq.
    rewrite decide_True; eauto.
  - destruct t; simpl in *; [eauto | discriminate].
Qed.

Lemma unify_dom t s β γ x :
  unify t s β = Some γ → x ∈ term_vars t → x ∈ dom γ.
Proof.
  intros Hu Hx. apply unify_sound in Hu as [_ Hr].
  destruct t; simpl in *; [|set_solver].
  apply list_elem_of_singleton in Hx; subst. apply elem_of_dom. eauto.
Qed.

(** [mapM] in the allocation monad: each output is the output of the
    function on the corresponding input, at some counter value. *)
Lemma mapM_fresh_Forall2 {A B} (f : A → fresh B) (l : list A) n :
  Forall2 (λ x y, ∃ m, y = (run_fresh (f x) m).1) l (run_fresh (mapM f l) n).1.
Proof.
  revert n. induction l as [|x l IH]; intros n; simpl; [constructor|].
  destruct (run_fresh (f x) n) as [y n1] eqn:Hf. simpl.
  destruct (run_fresh (mapM f l) n1) as [ys n2] eqn:Hl. simpl.
  constructor; [exists n; by rewrite Hf|]. specialize (IH n1). by rewrite Hl in IH.
Qed.

(** [mapM] of a call that allocates [c] variables each time: the
    [i]-th call runs at [n + c * i], and the counter ends at
    [n + c * length l]. *)
Lemma mapM_fresh_layout {A B} (f : A → fresh B) (c : nat) (l : list A) n :
  (∀ x m, (run_fresh (f x) m).2 = m + c) →
  (run_fresh (mapM f l) n).2 = n + c * length l ∧
  ∀ i x, l !! i = Some x → (run_fresh (mapM f l) n).1 !! i = Some (run_fresh (f x) (n + c * i)).1.
Proof.
  intros Hc. revert n. induction l as [|x l IH]; intros n; simpl; [split; [lia|done]|].
  pose proof (Hc x n) as Hx. destruct (run_fresh (f x) n) as [y n1] eqn:Hf. simpl in Hx. subst n1.
  destruct (IH (n + c)) as [IH1 IH2].
  destruct (run_fresh (mapM f l) (n + c)) as [ys n2] eqn:Hl. simpl in *. split; [lia|].
  intros [|i] x' Hi; simpl in *; [injection Hi as <-; by rewrite Nat.mul_0_r, Nat.add_0_r, Hf|].
  rewrite (IH2 i x' Hi). do 3 f_equal. lia.
Qed.

#[export] Hint Resolve resolve_weaken unify_sound unify_least : w3up.

End Term.
