(* ===== verification/Glob.v ===== *)
(** * Glob patterns of text constraints (spec 4.4, 4.5)

    [DB.glob(text, pattern)] and [Text.match(term, {glob})] test a text
    against a pattern in which [*] stands for any run of characters and
    every other character stands for itself.  The matcher is a
    structural recursion on the pattern with an inner recursion on the
    text for the star; [glob_rel] is its declarative specification. *)
From S2P Require Import Prelude.

Module Glob.

Local Open Scope char_scope.

Definition is_star (c : ascii) : bool := bool_decide (c = "*").

Fixpoint glob (pattern text : string) : bool :=
  match pattern with
  | EmptyString => match text with EmptyString => true | _ => false end
  | String c p =>
      if is_star c then
        (fix star (t : string) : bool :=
           glob p t || match t with EmptyString => false | String _ t' => star t' end) text
      else
        match text with
        | EmptyString => false
        | String c' t => bool_decide (c = c') && glob p t
        end
  end.

(** The declarative reading: a star matches the empty run or eats one
    character and stays; any other character matches itself. *)
Inductive glob_rel : string → string → Prop :=
  | GlobNil : glob_rel EmptyString EmptyString
  | GlobStarStop p t : glob_rel p t → glob_rel (String "*" p) t
  | GlobStarEat p c t : glob_rel (String "*" p) t → glob_rel (String "*" p) (String c t)
  | GlobChar c p t : c ≠ "*" → glob_rel p t → glob_rel (String c p) (String c t).

(** A pattern without stars. *)
Fixpoint star_free (p : string) : bool :=
  match p with
  | EmptyString => true
  | String c p' => negb (is_star c) && star_free p'
  end.

(** The inner loop of the star case, unfolded once. *)
Lemma glob_star_cons p t :
  glob (String "*" p) t = glob p t || match t with EmptyString => false | String _ t' => glob (String "*" p) t' end.
Proof. destruct t; reflexivity. Qed.

Lemma glob_char_cons c p t :
  c ≠ "*" →
  glob (String c p) t = match t with EmptyString => false | String c' t' => bool_decide (c = c') && glob p t' end.
Proof. intros Hc. simpl. unfold is_star. by rewrite bool_decide_false. Qed.

Lemma glob_sound p t : glob p t = true → glob_rel p t.
Proof.
  revert t. induction p as [|c p IH]; intros t.
  - destruct t; [constructor | discriminate].
  - destruct (decide (c = "*")) as [->|Hc].
    + induction t as [|c' t IHt]; rewrite glob_star_cons; intros [H|H]%orb_true_iff.
      * by constructor; apply IH.
      * discriminate.
      * by constructor; apply IH.
      * by constructor; apply IHt.
    + rewrite glob_char_cons by done. destruct t as [|c' t]; [discriminate|].
      intros [Hcc Hg]%andb_true_iff. apply bool_decide_eq_true in Hcc as <-.
      constructor; auto.
Qed.

Lemma glob_complete p t : glob_rel p t → glob p t = true.
Proof.
  induction 1 as [| p t _ IH | p c t _ IH | c p t Hc _ IH].
  - done.
  - rewrite glob_star_cons, IH. done.
  - rewrite glob_star_cons, IH. apply orb_true_r.
  - rewrite glob_char_cons by done. rewrite bool_decide_true, IH; done.
Qed.

(** The matcher decides the declarative reading. *)
Theorem glob_correct p t : glob p t = true ↔ glob_rel p t.
Proof. split; [apply glob_sound | apply glob_complete]. Qed.

(** A star-free pattern matches exactly itself. *)
Lemma glob_rel_literal p t : star_free p = true → glob_rel p t ↔ t = p.
Proof.
  revert t. induction p as [|c p IH]; intros t Hp.
  - split; [by inversion 1 | intros ->; constructor].
  - simpl in Hp. apply andb_true_iff in Hp as [Hc Hp].
    unfold is_star in Hc. apply negb_true_iff, bool_decide_eq_false in Hc.
    split.
    + inversion 1; subst; try congruence. f_equal. by apply IH.
    + intros ->. constructor; [done | by apply IH].
Qed.

(** String concatenation on a literal head ([String.append] does not
    unfold by [simpl] once stdpp is loaded). *)
Lemma append_nil_l (s : string) : EmptyString +:+ s = s.
Proof. reflexivity. Qed.
Lemma append_cons c (p s : string) : String c p +:+ s = String c (p +:+ s).
Proof. reflexivity. Qed.

(** A star matches every text. *)
Lemma glob_rel_star_any p t : glob_rel p t → ∀ u, glob_rel (String "*" p) (u +:+ t).
Proof.
  intros H u. induction u as [|c u IHu]; rewrite ?append_nil_l, ?append_cons.
  - by constructor.
  - by constructor.
Qed.

(** A star-free prefix followed by a star, as in ["did:mailto:*"],
    matches exactly the texts that start with the prefix. *)
Lemma glob_rel_prefix p t :
  star_free p = true → glob_rel (p +:+ "*") t ↔ ∃ u, t = p +:+ u.
Proof.
  revert t. induction p as [|c p IH]; intros t Hp;
    rewrite ?append_nil_l, ?append_cons.
  - split.
    + intros _. by exists t.
    + intros [u ->]. rewrite append_nil_l.
      induction u; [apply GlobStarStop, GlobNil | by apply GlobStarEat].
  - simpl in Hp. apply andb_true_iff in Hp as [Hc Hp].
    unfold is_star in Hc. apply negb_true_iff, bool_decide_eq_false in Hc.
    split.
    + intros Hr. inversion Hr as [|? ? Hs|? ? ? Hs|? ? ? _ Hs]; subst; try congruence.
      apply IH in Hs as [u ->]; [|done]. exists u. by rewrite append_cons.
    + intros [u ->]. rewrite append_cons. constructor; [done|]. apply IH; eauto.
Qed.

(** The pattern ["*"] matches every text. *)
Lemma glob_star_all t : glob "*" t = true.
Proof.
  apply glob_complete. change "*"%string with (EmptyString +:+ "*").
  apply glob_rel_prefix; [done|]. exists t. by rewrite append_nil_l.
Qed.

(** Every pattern matches itself: each star matches the star. *)
Lemma glob_rel_refl p : glob_rel p p.
Proof.
  induction p as [|c p IH].
  - constructor.
  - destruct (decide (c = "*")) as [->|Hc].
    + by apply GlobStarEat, GlobStarStop.
    + by constructor.
Qed.

#[export] Hint Resolve glob_sound glob_complete glob_rel_refl : w3up.

End Glob.
