(* ===== verification/Index.v ===== *)
(** * The fact index (spec 4.2)

    Facts are (entity, attribute, value) triples.  The index groups
    them by attribute, the one mandatory index of the spec; a lookup
    takes the attribute and optionally the entity and the value, and
    returns the matching (entity, value) pairs in insertion order.
    [scan] is the reference: a linear pass over the fact list. *)
From S2P Require Import Prelude Term.

Module Index.
Import Term.

Record fact := Fact { f_entity : scalar; f_attr : string; f_value : scalar }.

#[export] Instance fact_eq_dec : EqDecision fact.
Proof. solve_decision. Defined.

Abbreviation index := (gmap string (list (scalar * scalar))).

Definition bucket (idx : index) (a : string) : list (scalar * scalar) :=
  default [] (idx !! a).

Definition add_fact (idx : index) (f : fact) : index :=
  <[f_attr f := bucket idx (f_attr f) ++ [(f_entity f, f_value f)]]> idx.

(** [build(facts)] *)
Definition build (facts : list fact) : index := foldl add_fact ∅ facts.

(** A bound position must equal the fact's; an unbound one matches all. *)
Definition matches_opt (o : option scalar) (s : scalar) : bool :=
  match o with None => true | Some c => bool_decide (c = s) end.

(** [lookup(attribute, entityOrVar, valueOrVar)] *)
Definition lookup (idx : index) (a : string) (e v : option scalar) : list (scalar * scalar) :=
  filter (λ ev, matches_opt e ev.1 && matches_opt v ev.2 = true) (bucket idx a).

Definition fact_pair (f : fact) : scalar * scalar := (f_entity f, f_value f).

(** The reference lookup: scan all facts. *)
Definition scan (facts : list fact) (a : string) (e v : option scalar) : list (scalar * scalar) :=
  fact_pair <$> filter (λ f, f_attr f = a ∧ matches_opt e (f_entity f) && matches_opt v (f_value f) = true) facts.

(** ** Lemmas *)

Lemma bucket_add_fact idx f a :
  bucket (add_fact idx f) a =
  if decide (f_attr f = a) then bucket idx a ++ [fact_pair f] else bucket idx a.
Proof.
  unfold bucket, add_fact. case_decide as Ha.
  - subst. by rewrite lookup_insert_eq.
  - by rewrite lookup_insert_ne.
Qed.

Lemma bucket_foldl idx facts a :
  bucket (foldl add_fact idx facts) a =
  bucket idx a ++ (fact_pair <$> filter (λ f, f_attr f = a) facts).
Proof.
  revert idx. induction facts as [|f facts IH]; intros idx; simpl.
  - by rewrite app_nil_r.
  - rewrite IH, bucket_add_fact, filter_cons.
    destruct (decide (f_attr f = a)); simpl; by rewrite <-?app_assoc.
Qed.

Lemma bucket_build facts a :
  bucket (build facts) a = fact_pair <$> filter (λ f, f_attr f = a) facts.
Proof. unfold build. by rewrite bucket_foldl. Qed.

(** The indexed lookup returns exactly what the reference scan does,
    in the same order. *)
Lemma lookup_build_scan facts a e v :
  lookup (build facts) a e v = scan facts a e v.
Proof.
  unfold lookup, scan. rewrite bucket_build.
  induction facts as [|f facts IH]; [done|].
  rewrite !filter_cons.
  destruct (decide (f_attr f = a)) as [Ha|Ha].
  - rewrite fmap_cons, filter_cons, IH. simpl.
    repeat case_decide; naive_solver.
  - rewrite IH. case_decide; naive_solver.
Qed.


Lemma elem_of_lookup_build facts a e v e' v' :
  (e', v') ∈ lookup (build facts) a e v ↔
Fact e' a v' ∈ facts ∧ matches_opt e e' = true ∧ matches_opt v v' = true.
Proof.
  rewrite lookup_build_scan. unfold scan. rewrite list_elem_of_fmap.
  split.
  - intros ([e'' a'' v''] & Heq & Hf). apply list_elem_of_filter in Hf.
    unfold fact_pair in Heq; simpl in *. simplify_eq.
    destruct Hf as [[-> Hm%andb_true_iff] Hin]. naive_solver.
  - intros (Hin & He & Hv). exists (Fact e' a v'). split; [done|].
    apply list_elem_of_filter. simpl. rewrite He, Hv. done.
Qed.

Lemma matches_opt_resolve β β' t s :
  β ⊆ β' → resolve β' t = Some s → matches_opt (resolve β t) s = true.
Proof.
  intros Hsub Hr. destruct (resolve β t) eqn:Hb; simpl; [|done].
  rewrite (resolve_weaken _ _ _ _ Hb Hsub) in Hr. simplify_eq.
  by apply bool_decide_eq_true.
Qed.

#[export] Hint Resolve matches_opt_resolve : w3up.

End Index.
