(* ===== verification/Clause.v ===== *)
(** * The clause evaluator (spec 4.4)

    A query's [where] part is a tree of clauses.  [eval] runs a clause
    against the fact index from a starting binding and returns every
    extension of the binding that satisfies it, or the construction
    error of a constraint whose variable is unbound.  [sat] is the
    declarative meaning of a clause over a fact list; the evaluator is
    sound and complete for it ([eval_correct]).  [mode] is a static
    check of a clause against the variables already bound; a clause
    that passes it never raises ([eval_mode_ok]).  Evaluation over
    indexes with the same facts agrees up to order ([eval_sim]), and a
    clause whose negations read no fact has more answers over more
    facts ([eval_mono]). *)
From S2P Require Import Prelude Term Glob Index.

Module Clause.
Import Term Glob Index.

Inductive clause :=
  | Match (e : term) (a : string) (v : term)
  | And (x y : clause)
  | Or (x y : clause)
  | Not (x : clause)
  | GlobMatch (text pattern : term)
  | Is (x y : term)
  | Ge (x y : term).

Inductive error := UnboundVariable (x : nat).

Fixpoint clause_vars (c : clause) : list nat :=
  match c with
  | Match e _ v => term_vars e ++ term_vars v
  | And x y | Or x y => clause_vars x ++ clause_vars y
  | Not x => clause_vars x
  | GlobMatch x y | Is x y | Ge x y => term_vars x ++ term_vars y
  end.

(** The value of a constraint's operand; unbound is an error. *)
Definition operand (β : binding) (t : term) : result error scalar :=
  match t with
  | Var x => match β !! x with Some c => Ok c | None => Err (UnboundVariable x) end
  | Const c => Ok c
  end.

(** Numeric comparison with [Infinity] above every integer. *)
Definition scalar_ge (a b : scalar) : bool :=
  match a, b with
  | SInf, SInt _ | SInf, SInf => true
  | SInt x, SInt y => bool_decide (y ≤ x)%Z
  | _, _ => false
  end.

Definition text_glob (text pattern : scalar) : bool :=
  match text, pattern with SStr t, SStr p => glob p t | _, _ => false end.

Definition keep_if (b : bool) (β : binding) : list binding := if b then [β] else [].

(** A binary constraint: both operands must be bound; the binding is
    kept when the test holds. *)
Definition check2 (P : scalar → scalar → bool) (β : binding) (x y : term) :
    result error (list binding) :=
  x' ← operand β x; y' ← operand β y; mret (keep_if (P x' y') β).

Definition first_unbound (β : binding) (xs : list nat) : option nat :=
  List.find (λ x, bool_decide (β !! x = None)) xs.

Fixpoint eval (idx : index) (c : clause) (β : binding) : result error (list binding) :=
  match c with
  | Match e a v =>
      Ok (omap (λ ev, unify e ev.1 β ≫= unify v ev.2) (lookup idx a (resolve β e) (resolve β v)))
  | And x y => bs ← eval idx x β; mjoin <$> mapM (eval idx y) bs
  | Or x y => b1 ← eval idx x β; b2 ← eval idx y β; mret (b1 ++ b2)
  | Not x =>
      match first_unbound β (clause_vars x) with
      | Some v => Err (UnboundVariable v)
      | None => bs ← eval idx x β; mret (keep_if (bool_decide (bs = [])) β)
      end
  | GlobMatch t p => check2 text_glob β t p
  | Is x y => check2 (λ a b, bool_decide (a = b)) β x y
  | Ge x y => check2 scalar_ge β x y
  end.

(** The conjunction of a non-empty list of clauses, in order. *)
Definition and_all (c : clause) (cs : list clause) : clause := foldl And c cs.

(** [DB.query(index, {select, where})]: evaluate the conjunction of the
    [where] clauses from the empty binding. *)
Definition run (idx : index) (where_ : list clause) : result error (list binding) :=
  match where_ with
  | [] => Ok [∅]
  | c :: cs => eval idx (and_all c cs) ∅
  end.

(** ** Mode analysis *)

(** [mode c B]: the variables bound after [c] when those of [B] are
    bound before, or [None] when a constraint or a negation of [c]
    would meet an unbound variable.  A disjunction binds what both of
    its branches bind. *)
Fixpoint mode (c : clause) (B : list nat) : option (list nat) :=
  match c with
  | Match e _ v => Some (term_vars e ++ term_vars v ++ B)
  | And x y => mode x B ≫= mode y
  | Or x y => B1 ← mode x B; B2 ← mode y B; Some (filter (λ v, v ∈ B2) B1)
  | Not x => if bool_decide (clause_vars x ⊆ B) then mode x B ≫= λ _, Some B else None
  | GlobMatch x y | Is x y | Ge x y =>
      if bool_decide (term_vars x ++ term_vars y ⊆ B) then Some B else None
  end.

(** ** Declarative semantics *)

Definition test2 (P : scalar → scalar → bool) (β : binding) (x y : term) : Prop :=
  ∃ a b, resolve β x = Some a ∧ resolve β y = Some b ∧ P a b = true.

Fixpoint sat (F : list fact) (c : clause) (β : binding) : Prop :=
  match c with
  | Match e a v => ∃ e' v', Fact e' a v' ∈ F ∧ resolve β e = Some e' ∧ resolve β v = Some v'
  | And x y => sat F x β ∧ sat F y β
  | Or x y => sat F x β ∨ sat F y β
  | Not x => ¬ ∃ β', β ⊆ β' ∧ sat F x β'
  | GlobMatch t p => test2 text_glob β t p
  | Is x y => test2 (λ a b, bool_decide (a = b)) β x y
  | Ge x y => test2 scalar_ge β x y
  end.

(** [bs] is a complete set of least answers of [S] above [β]: each
    answer extends [β] and satisfies [S], and below every extension of
    [β] satisfying [S] lies an answer. *)
Definition answers (S : binding → Prop) (β : binding) (bs : list binding) : Prop :=
  (∀ γ, γ ∈ bs → β ⊆ γ ∧ S γ) ∧
  (∀ δ, β ⊆ δ → S δ → ∃ γ, γ ∈ bs ∧ β ⊆ γ ∧ γ ⊆ δ).

(** Two bindings that agree on the variables of a clause. *)
Definition agree_on (xs : list nat) (β1 β2 : binding) : Prop :=
  ∀ x, x ∈ xs → β1 !! x = β2 !! x.

(** ** Basic lemmas *)

Lemma operand_resolve β t c : operand β t = Ok c ↔ resolve β t = Some c.
Proof. destruct t as [x|]; simpl; [destruct (β !! x)|]; split; congruence. Qed.

Lemma operand_Err β t e : operand β t = Err e → resolve β t = None.
Proof. destruct t as [x|]; simpl; [destruct (β !! x)|]; congruence. Qed.

Lemma elem_of_keep_if b β γ : γ ∈ keep_if b β ↔ b = true ∧ γ = β.
Proof. destruct b; simpl; rewrite ?list_elem_of_singleton; set_solver. Qed.

Lemma first_unbound_None β xs : first_unbound β xs = None ↔ ∀ x, x ∈ xs → is_Some (β !! x).
Proof.
  unfold first_unbound. induction xs as [|y xs IH]; simpl.
  - split; [set_solver | done].
  - case_bool_decide as Hy.
    + split; [done|]. intros H. destruct (H y) as [? Hs]; [set_solver|congruence].
    + rewrite IH. split.
      * intros H x [->|Hx]%elem_of_cons; [by apply not_eq_None_Some | auto].
      * intros H x Hx. apply H. set_solver.
Qed.

Lemma resolve_agree xs β1 β2 t :
  agree_on xs β1 β2 → term_vars t ⊆ xs → resolve β1 t = resolve β2 t.
Proof. intros Ha Ht. destruct t; simpl in *; [apply Ha; set_solver | done]. Qed.

Lemma resolve_agree_Some xs β1 β2 t c :
  agree_on xs β1 β2 → term_vars t ⊆ xs → resolve β1 t = Some c → resolve β2 t = Some c.
Proof. intros Ha Ht Hr. by rewrite <-(resolve_agree xs β1 β2 t). Qed.

Lemma test2_mono P β β' x y : test2 P β x y → β ⊆ β' → test2 P β' x y.
Proof. intros (a & b & ? & ? & ?) ?. exists a, b. eauto with w3up. Qed.

Lemma test2_agree P xs β1 β2 x y :
  agree_on xs β1 β2 → term_vars x ++ term_vars y ⊆ xs → test2 P β1 x y → test2 P β2 x y.
Proof.
  intros Ha Hxs (a & b & Hx & Hy & ?). exists a, b.
  split_and!; [eapply resolve_agree_Some..|]; eauto; set_solver.
Qed.

(** Satisfaction is preserved by extending the binding. *)
Lemma sat_mono F c β β' : sat F c β → β ⊆ β' → sat F c β'.
Proof.
  revert β β'. induction c; intros β β' Hs Hsub; simpl in *.
  - destruct Hs as (e' & v' & ? & ? & ?). eauto 10 with w3up.
  - destruct Hs; eauto.
  - destruct Hs; eauto.
  - intros (δ & Hδ & Hx). apply Hs. exists δ. split; [by etrans|done].
  - eauto using test2_mono.
  - eauto using test2_mono.
  - eauto using test2_mono.
Qed.

#[export] Hint Resolve sat_mono : w3up.

(** A conjunction of clauses holds when each of them does. *)
Lemma sat_and_all F c cs β : sat F (and_all c cs) β ↔ ∀ c', c' ∈ c :: cs → sat F c' β.
Proof.
  unfold and_all. revert c. induction cs as [|c2 cs IH]; intros c; simpl.
  - split; [intros ? c' ->%list_elem_of_singleton; done|intros H; apply H; set_solver].
  - rewrite IH. cbn [sat]. split.
    + intros H c' Hc'. apply elem_of_cons in Hc' as [->|Hc'].
      * apply (H (And c c2)); set_solver.
      * apply elem_of_cons in Hc' as [->|Hc']; [apply (H (And c c2)); set_solver|].
        apply H. set_solver.
    + intros H c' [->|Hc']%elem_of_cons; [split; apply H; set_solver|apply H; set_solver].
Qed.

(** ** Satisfaction depends only on the clause's variables *)

Lemma agree_on_sub xs ys β1 β2 : xs ⊆ ys → agree_on ys β1 β2 → agree_on xs β1 β2.
Proof. intros Hs Ha x Hx. apply Ha. set_solver. Qed.

Lemma agree_on_sym xs β1 β2 : agree_on xs β1 β2 → agree_on xs β2 β1.
Proof. intros Ha x Hx. symmetry. by apply Ha. Qed.

(** Lifting an extension of [β2] to one of [β1] that agrees with it. *)
Lemma agree_on_union xs β1 β2 δ :
  agree_on xs β1 β2 → β2 ⊆ δ → agree_on xs δ (β1 ∪ δ).
Proof.
  intros Ha Hsub x Hx. rewrite lookup_union. specialize (Ha x Hx).
  destruct (β1 !! x) as [c|] eqn:H1; destruct (δ !! x) as [d|] eqn:Hd; simpl; try done.
  - symmetry in Ha. rewrite (lookup_weaken _ _ _ _ Ha Hsub) in Hd. by simplify_eq.
  - symmetry in Ha. by rewrite (lookup_weaken _ _ _ _ Ha Hsub) in Hd.
Qed.

Lemma sat_agree F c β1 β2 :
  agree_on (clause_vars c) β1 β2 → sat F c β1 → sat F c β2.
Proof.
  revert β1 β2. induction c as [e a v|x IHx y IHy|x IHx y IHy|x IHx|t p|t p|t p];
    intros β1 β2 Ha Hs; simpl in *.
  - destruct Hs as (e' & v' & Hf & He & Hv). exists e', v'.
    split_and!; [done | eapply resolve_agree_Some..]; eauto; set_solver.
  - destruct Hs; split; [apply (IHx β1 β2)|apply (IHy β1 β2)]; try done;
      (eapply agree_on_sub; [|exact Ha]); set_solver.
  - destruct Hs; [left; apply (IHx β1 β2)|right; apply (IHy β1 β2)]; try done;
      (eapply agree_on_sub; [|exact Ha]); set_solver.
  - intros (δ & Hsub & Hx). apply Hs. exists (β1 ∪ δ).
    split; [apply map_union_subseteq_l|].
    apply (IHx δ (β1 ∪ δ)); [by eapply agree_on_union | done].
  - eapply test2_agree; eauto.
  - eapply test2_agree; eauto.
  - eapply test2_agree; eauto.
Qed.

(** Two extensions of a binding that binds every variable of a clause
    agree on them. *)
Lemma agree_on_common_base xs β γ δ :
  (∀ x, x ∈ xs → is_Some (β !! x)) → β ⊆ γ → β ⊆ δ → agree_on xs γ δ.
Proof.
  intros Hb Hγ Hδ x Hx. destruct (Hb x Hx) as [c Hc].
  by rewrite (lookup_weaken _ _ _ _ Hc Hγ), (lookup_weaken _ _ _ _ Hc Hδ).
Qed.

(** ** Each clause form computes complete least answers *)

Lemma answers_match F e a v β :
  answers (sat F (Match e a v)) β
    (omap (λ ev, unify e ev.1 β ≫= unify v ev.2) (lookup (build F) a (resolve β e) (resolve β v))).
Proof.
  split.
  - intros γ ([e' v'] & Hin & Hu)%list_elem_of_omap. simpl in Hu.
    destruct (unify e e' β) as [β1|] eqn:H1; simpl in Hu; [|discriminate].
    apply unify_sound in H1 as [Hβ1 He]. apply unify_sound in Hu as [Hγ Hv].
    apply elem_of_lookup_build in Hin as (Hf & _ & _).
    split; [by etrans|]. exists e', v'. eauto with w3up.
  - intros δ Hsub (e' & v' & Hf & He & Hv).
    destruct (unify_complete e e' β δ Hsub He) as [β1 H1].
    pose proof (unify_least _ _ _ _ _ H1 Hsub He) as Hβ1.
    destruct (unify_complete v v' β1 δ Hβ1 Hv) as [γ Hu].
    exists γ. apply unify_sound in H1 as H1'. split_and!.
    + apply list_elem_of_omap. exists (e', v'). split; [|by simpl; rewrite H1].
      apply elem_of_lookup_build. split_and!; eauto with w3up.
    + etrans; [apply H1'|]. by apply unify_sound in Hu as [].
    + eauto using unify_least.
Qed.

Lemma answers_bind (Sx Sy : binding → Prop) (f : binding → result error (list binding))
    β (bs : list binding) (rs : list (list binding)) :
  answers Sx β bs →
  (∀ b r, f b = Ok r → answers Sy b r) →
  mapM f bs = Ok rs →
  (∀ γ γ', Sx γ → γ ⊆ γ' → Sx γ') →
  answers (λ γ, Sx γ ∧ Sy γ) β (mjoin rs).
Proof.
  intros [Hxs Hxc] Hy Hm Hmono. split.
  - intros γ Hγ. apply (elem_of_concat_mapM _ _ _ _ Hm) in Hγ as (b & r & Hb & Hr & Hγ).
    destruct (Hxs b Hb) as [Hβb Hsb]. destruct (proj1 (Hy b r Hr) γ Hγ) as [Hbγ Hsγ].
    split; [by etrans|]. split; [by eapply Hmono|done].
  - intros δ Hsub [Hsx Hsy]. destruct (Hxc δ Hsub Hsx) as (b & Hb & Hβb & Hbδ).
    destruct (mapM_Ok_elem _ _ _ _ Hm Hb) as (r & Hr & _).
    destruct (proj2 (Hy b r Hr) δ Hbδ Hsy) as (γ & Hγ & Hbγ & Hγδ).
    exists γ. split_and!; [|by etrans|done].
    apply (elem_of_concat_mapM _ _ _ _ Hm). eauto.
Qed.

Lemma answers_or (S1 S2 : binding → Prop) β b1 b2 :
  answers S1 β b1 → answers S2 β b2 → answers (λ γ, S1 γ ∨ S2 γ) β (b1 ++ b2).
Proof.
  intros [H1s H1c] [H2s H2c]. split.
  - intros γ [Hγ|Hγ]%elem_of_app; [destruct (H1s γ)|destruct (H2s γ)]; auto.
  - intros δ Hsub [Hs|Hs]; [destruct (H1c δ) as (γ & ? & ?)|destruct (H2c δ) as (γ & ? & ?)];
      auto; exists γ; rewrite elem_of_app; auto.
Qed.

Lemma answers_not F x β bs :
  first_unbound β (clause_vars x) = None →
  answers (sat F x) β bs →
  answers (sat F (Not x)) β (keep_if (bool_decide (bs = [])) β).
Proof.
  intros Hfu [Hs Hc]. pose proof (proj1 (first_unbound_None β (clause_vars x)) Hfu) as Hbound.
  split.
  - intros γ [Hb%bool_decide_eq_true ->]%elem_of_keep_if. subst.
    split; [done|]. intros (δ & Hsub & Hx). destruct (Hc δ Hsub Hx) as (? & Hin & _).
    by apply not_elem_of_nil in Hin.
  - intros δ Hsub Hn. exists β. split_and!; [|done|done].
    apply elem_of_keep_if. split; [|done]. apply bool_decide_eq_true.
    destruct bs as [|γ bs]; [done|]. exfalso. apply Hn. exists δ. split; [done|].
    destruct (Hs γ) as [Hβγ Hx]; [set_solver|].
    eapply sat_agree; [|exact Hx]. eapply agree_on_common_base; [exact Hbound|done|done].
Qed.

Lemma answers_check2 P β x y bs :
  check2 P β x y = Ok bs → answers (λ γ, test2 P γ x y) β bs.
Proof.
  unfold check2. intros H. inv_bind H.
  apply operand_resolve in Ha. apply operand_resolve in Ha0. simplify_eq. split.
  - intros γ [HP ->]%elem_of_keep_if. split; [done|]. by exists a, a0.
  - intros δ Hsub (a' & b' & Hx & Hy & HP). exists β. split_and!; [|done|done].
    rewrite (resolve_weaken _ _ _ _ Ha Hsub) in Hx.
    rewrite (resolve_weaken _ _ _ _ Ha0 Hsub) in Hy. simplify_eq.
    by apply elem_of_keep_if.
Qed.

(** The evaluator over the index of [F] is sound and complete for the
    declarative semantics over [F]: its results are exactly the least
    extensions of the starting binding that satisfy the clause. *)
Lemma eval_correct F c β bs :
  eval (build F) c β = Ok bs → answers (sat F c) β bs.
Proof.
  revert β bs. induction c as [e a v|x IHx y IHy|x IHx y IHy|x IHx|t p|t p|t p];
    intros β bs H; simpl in H.
  - simplify_eq. apply answers_match.
  - inv_bind H. destruct (mapM (eval (build F) y) a) as [rs|] eqn:Hm; simplify_eq/=.
    eapply answers_bind; eauto using sat_mono.
  - inv_bind H. simplify_eq. by apply answers_or; auto.
  - destruct (first_unbound β (clause_vars x)) eqn:Hfu; [discriminate|].
    inv_bind H. simplify_eq. apply answers_not; auto.
  - by apply answers_check2.
  - by apply answers_check2.
  - by apply answers_check2.
Qed.



(** Every answer of a query over the index of [F] satisfies each of
    its [where] clauses. *)
Lemma run_sat F w bs γ : run (build F) w = Ok bs → γ ∈ bs → ∀ c, c ∈ w → sat F c γ.
Proof.
  destruct w as [|c cs]; [intros ?? c Hc; by apply not_elem_of_nil in Hc|].
  intros Hr Hγ. apply eval_correct in Hr as [Hs _]. apply sat_and_all. by apply Hs.
Qed.

(** ** Evaluation only extends, and well-moded clauses never raise *)

Lemma check2_keep P β x y bs γ : check2 P β x y = Ok bs → γ ∈ bs → γ = β.
Proof. unfold check2. intros H Hγ. inv_bind H. subst. by apply elem_of_keep_if in Hγ as [_ ->]. Qed.

Lemma eval_extends idx c β bs γ : eval idx c β = Ok bs → γ ∈ bs → β ⊆ γ.
Proof.
  revert β bs γ. induction c as [e a v|x IHx y IHy|x IHx y IHy|x IHx|t p|t p|t p];
    intros β bs γ H Hγ; simpl in H.
  - simplify_eq. apply list_elem_of_omap in Hγ as ([e' v'] & _ & Hu). simpl in Hu.
    destruct (unify e e' β) as [β1|] eqn:H1; simpl in Hu; [|discriminate].
    apply unify_sound in H1 as [? _]. apply unify_sound in Hu as [? _]. by etrans.
  - inv_bind H. destruct (mapM (eval idx y) a) as [rs|] eqn:Hm; simplify_eq/=.
    apply (elem_of_concat_mapM _ _ _ _ Hm) in Hγ as (b & r & Hb & Hr & Hγ).
    transitivity b; [eapply IHx|eapply IHy]; eauto.
  - inv_bind H. subst. apply elem_of_app in Hγ as [?|?]; eauto.
  - destruct (first_unbound β (clause_vars x)); [discriminate|].
    inv_bind H. subst. by apply elem_of_keep_if in Hγ as [_ ->].
  - by rewrite (check2_keep _ _ _ _ _ _ H Hγ).
  - by rewrite (check2_keep _ _ _ _ _ _ H Hγ).
  - by rewrite (check2_keep _ _ _ _ _ _ H Hγ).
Qed.

Lemma operand_bound β t : (∀ x, x ∈ term_vars t → x ∈ dom β) → ∃ c, operand β t = Ok c.
Proof.
  destruct t as [x|c]; simpl; [|eauto]. intros Hx.
  destruct (proj1 (elem_of_dom β x) (Hx x (proj2 (list_elem_of_singleton _ _) eq_refl))) as [c ->]. eauto.
Qed.

Lemma check2_bound P β x y B :
  term_vars x ++ term_vars y ⊆ B → (∀ v, v ∈ B → v ∈ dom β) →
  ∃ bs, check2 P β x y = Ok bs ∧ ∀ γ, γ ∈ bs → ∀ v, v ∈ B → v ∈ dom γ.
Proof.
  intros Hxy HB. unfold check2.
  destruct (operand_bound β x) as [a ->]; [intros; apply HB; set_solver|].
  destruct (operand_bound β y) as [b ->]; [intros; apply HB; set_solver|].
  eexists; split; [reflexivity|]. intros γ [_ ->]%elem_of_keep_if. done.
Qed.

(** A clause that passes the mode check from the variables bound in
    [β] evaluates without error, and its answers bind what the mode
    check promised. *)
Lemma eval_mode_ok idx c B B' β :
  mode c B = Some B' → (∀ x, x ∈ B → x ∈ dom β) →
  ∃ bs, eval idx c β = Ok bs ∧ ∀ γ, γ ∈ bs → ∀ x, x ∈ B' → x ∈ dom γ.
Proof.
  revert B B' β. induction c as [e a v|x IHx y IHy|x IHx y IHy|x IHx|t p|t p|t p];
    intros B B' β Hm HB; simpl in Hm |- *.
  - simplify_eq. eexists; split; [done|]. intros γ Hγ z Hz.
    pose proof (eval_extends idx (Match e a v) β _ γ eq_refl Hγ) as Hβγ.
    apply list_elem_of_omap in Hγ as ([e' v'] & _ & Hu). simpl in Hu.
    destruct (unify e e' β) as [β1|] eqn:H1; simpl in Hu; [|discriminate].
    apply elem_of_app in Hz as [Hz|[Hz|Hz]%elem_of_app].
    + eapply subseteq_dom; [apply (unify_sound v v' β1 γ Hu)|]. by eapply unify_dom.
    + by eapply unify_dom.
    + eapply subseteq_dom; [exact Hβγ|]. auto.
  - destruct (mode x B) as [B1|] eqn:Hx; simpl in Hm; [|discriminate].
    destruct (IHx _ _ β Hx HB) as (bs & -> & Hbs). simpl.
    destruct (mapM_Ok_total (eval idx y) bs) as [rs Hrs].
    { intros b Hb. destruct (IHy _ _ b Hm (Hbs b Hb)) as (r & -> & _). eauto. }
    rewrite Hrs. eexists; split; [done|]. intros γ Hγ.
    apply (elem_of_concat_mapM _ _ _ _ Hrs) in Hγ as (b & r & Hb & Hr & Hγ).
    destruct (IHy _ _ b Hm (Hbs b Hb)) as (r' & Hr' & Hγ'). rewrite Hr in Hr'. simplify_eq.
    by apply Hγ'.
  - destruct (mode x B) as [B1|] eqn:Hx; simpl in Hm; [|discriminate].
    destruct (mode y B) as [B2|] eqn:Hy; simpl in Hm; [|discriminate]. simplify_eq.
    destruct (IHx _ _ β Hx HB) as (b1 & -> & Hb1). destruct (IHy _ _ β Hy HB) as (b2 & -> & Hb2).
    eexists; split; [done|]. intros γ Hγ z [Hz1 Hz2]%list_elem_of_filter.
    apply elem_of_app in Hγ as [?|?]; [by apply Hb1|by apply Hb2].
  - case_bool_decide as Hsub; [|discriminate].
    destruct (mode x B) as [B1|] eqn:Hx; simpl in Hm; [|discriminate]. simplify_eq.
    assert (first_unbound β (clause_vars x) = None) as ->.
    { apply first_unbound_None. intros z Hz. apply elem_of_dom, HB. by apply Hsub. }
    destruct (IHx _ _ β Hx HB) as (bs & -> & _). simpl.
    eexists; split; [done|]. intros γ [_ ->]%elem_of_keep_if. done.
  - case_bool_decide; [simplify_eq; by apply check2_bound|discriminate].
  - case_bool_decide; [simplify_eq; by apply check2_bound|discriminate].
  - case_bool_decide; [simplify_eq; by apply check2_bound|discriminate].
Qed.


(** ** Computing modes *)

Lemma mode_mono c B B' : mode c B = Some B' → B ⊆ B'.
Proof.
  revert B B'. induction c as [e a v|x IHx y IHy|x IHx y IHy|x IHx|t p|t p|t p]; intros B B' Hm;
    simpl in Hm.
  - simplify_eq. set_solver.
  - destruct (mode x B) as [B1|] eqn:H1; simpl in Hm; [|done].
    specialize (IHx _ _ H1). specialize (IHy _ _ Hm). set_solver.
  - destruct (mode x B) as [B1|] eqn:H1; simpl in Hm; [|done].
    destruct (mode y B) as [B2|] eqn:H2; simpl in Hm; [|done]. simplify_eq.
    specialize (IHx _ _ H1). specialize (IHy _ _ H2).
    intros z Hz. apply list_elem_of_filter. split; [apply IHy|apply IHx]; done.
  - case_bool_decide; [|done]. destruct (mode x B); simpl in Hm; simplify_eq; done.
  - case_bool_decide; simplify_eq; done.
  - case_bool_decide; simplify_eq; done.
  - case_bool_decide; simplify_eq; done.
Qed.

(** A property of bound variables that every clause of a conjunction
    keeps, from a first clause that establishes it, holds at its end. *)
Lemma mode_and_all (Q : list nat → Prop) c cs B B1 :
  mode c B = Some B1 → Q B1 →
  (∀ c' B, c' ∈ cs → Q B → ∃ B', mode c' B = Some B' ∧ Q B') →
  ∃ B', mode (and_all c cs) B = Some B' ∧ Q B'.
Proof.
  unfold and_all. revert c B1. induction cs as [|c' cs IH]; intros c B1 Hc HQ Hcs; simpl; [eauto|].
  destruct (Hcs c' B1) as (B2 & Hc' & HQ2); [set_solver|done|].
  apply (IH (And c c') B2); [simpl; by rewrite Hc|done|]. intros c'' B' Hin. apply Hcs. set_solver.
Qed.

Lemma mode_Or x y B B1 B2 :
  mode x B = Some B1 → mode y B = Some B2 → mode (Or x y) B = Some (filter (λ v, v ∈ B2) B1).
Proof. simpl. by intros -> ->. Qed.

Lemma mode_And x y B B1 : mode x B = Some B1 → mode (And x y) B = mode y B1.
Proof. simpl. by intros ->. Qed.

Lemma mode_check_Some x y B :
  term_vars x ++ term_vars y ⊆ B →
  mode (GlobMatch x y) B = Some B ∧ mode (Is x y) B = Some B ∧ mode (Ge x y) B = Some B.
Proof. intros H. simpl. by rewrite bool_decide_true. Qed.

(** ** Evaluation depends on the facts only as a set *)

(** Two results agree: both fail, or both succeed with the same
    bindings, in any order and multiplicity. *)
Definition result_sim {E A} (r1 r2 : result E (list A)) : Prop :=
  match r1, r2 with
  | Ok bs1, Ok bs2 => bs1 ≡ₛ bs2
  | Err _, Err _ => True
  | _, _ => False
  end.

Section result_sim.
Context {E A : Type}.
Implicit Types r : result E (list A).

Lemma result_sim_Ok r1 r2 bs1 : result_sim r1 r2 → r1 = Ok bs1 → ∃ bs2, r2 = Ok bs2 ∧ bs1 ≡ₛ bs2.
Proof. intros Hs ->. destruct r2; simpl in Hs; [eauto|done]. Qed.

Lemma result_sim_Err r1 r2 e1 : result_sim r1 r2 → r1 = Err e1 → ∃ e2, r2 = Err e2.
Proof. intros Hs ->. destruct r2; simpl in Hs; [done|eauto]. Qed.

(** Mapping the results of both sides keeps them similar. *)
Lemma result_sim_bind {B} r1 r2 (f : list A → list B) :
  Proper (same_elems ==> same_elems) f →
  result_sim r1 r2 → result_sim (bs ← r1; Ok (f bs)) (bs ← r2; Ok (f bs)).
Proof. intros Hf. destruct r1, r2; simpl; try done. apply Hf. Qed.
End result_sim.

Section sim.
Context (idx1 idx2 : index).
Hypothesis Hidx : ∀ a e v, lookup idx1 a e v ≡ₛ lookup idx2 a e v.

(** The conjunction step: running [f] and [g] on the bindings [bs1] and
    [bs2], which have the same elements, when [f] and [g] agree on each
    binding. *)
Lemma mapM_join_sim (f g : binding → result error (list binding)) bs1 bs2 :
  bs1 ≡ₛ bs2 → (∀ β, result_sim (f β) (g β)) →
  result_sim (mjoin <$> mapM f bs1) (mjoin <$> mapM g bs2).
Proof.
  intros [H12 H21] Hfg. destruct (mapM f bs1) as [rs1|e1] eqn:Hm1.
  - assert (∀ β, β ∈ bs2 → ∃ r, g β = Ok r) as Hg.
    { intros β Hβ. destruct (mapM_Ok_elem f bs1 rs1 β Hm1 (H21 β Hβ)) as (r & Hr & _).
      destruct (result_sim_Ok _ _ _ (Hfg β) Hr) as (r' & -> & _). eauto. }
    destruct (mapM_Ok_total g bs2 Hg) as [rs2 Hm2]. rewrite Hm2. simpl. split; intros y Hy.
    + apply (elem_of_concat_mapM _ _ _ _ Hm1) in Hy as (β & r & Hβ & Hr & Hy).
      apply (elem_of_concat_mapM _ _ _ _ Hm2).
      destruct (result_sim_Ok _ _ _ (Hfg β) Hr) as (r' & Hr' & [Hsub _]). exists β, r'. auto.
    + apply (elem_of_concat_mapM _ _ _ _ Hm2) in Hy as (β & r & Hβ & Hr & Hy).
      apply (elem_of_concat_mapM _ _ _ _ Hm1).
      destruct (mapM_Ok_elem f bs1 rs1 β Hm1 (H21 β Hβ)) as (r1 & Hr1 & _).
      destruct (result_sim_Ok _ _ _ (Hfg β) Hr1) as (r' & Hr' & [_ Hsup]).
      rewrite Hr in Hr'. simplify_eq. exists β, r1. auto.
  - apply mapM_result_Err_first in Hm1 as (pre & β & post & ys & -> & _ & Hβ).
    destruct (result_sim_Err _ _ _ (Hfg β) Hβ) as [e2 He2].
    destruct (mapM_result_Err g bs2) as [e' ->]; [|done].
    exists β, e2. split; [apply H12; set_solver|done].
Qed.

Lemma eval_sim c β : result_sim (eval idx1 c β) (eval idx2 c β).
Proof.
  revert β. induction c as [e a v|x IHx y IHy|x IHx y IHy|x IHx|t p|t p|t p]; intros β; simpl.
  - by rewrite (Hidx a).
  - destruct (eval idx1 x β) as [bs1|e1] eqn:H1; simpl.
    + destruct (result_sim_Ok _ _ _ (IHx β) H1) as (bs2 & -> & Hbs). by apply mapM_join_sim.
    + by destruct (result_sim_Err _ _ _ (IHx β) H1) as [? ->].
  - destruct (eval idx1 x β) as [b1|e1] eqn:H1; simpl.
    + destruct (result_sim_Ok _ _ _ (IHx β) H1) as (b1' & -> & Hb1). simpl.
      destruct (eval idx1 y β) as [b2|e2] eqn:H2; simpl.
      * destruct (result_sim_Ok _ _ _ (IHy β) H2) as (b2' & -> & Hb2). simpl. by rewrite Hb1, Hb2.
      * by destruct (result_sim_Err _ _ _ (IHy β) H2) as [? ->].
    + by destruct (result_sim_Err _ _ _ (IHx β) H1) as [? ->].
  - destruct (first_unbound β (clause_vars x)); [done|].
    destruct (eval idx1 x β) as [bs1|e1] eqn:H1; simpl.
    + destruct (result_sim_Ok _ _ _ (IHx β) H1) as (bs2 & -> & Hbs). simpl.
      by rewrite (bool_decide_ext _ _ (same_elems_nil _ _ Hbs)).
    + by destruct (result_sim_Err _ _ _ (IHx β) H1) as [? ->].
  - destruct (check2 _ _ _ _); simpl; done.
  - destruct (check2 _ _ _ _); simpl; done.
  - destruct (check2 _ _ _ _); simpl; done.
Qed.

Lemma run_sim w : result_sim (run idx1 w) (run idx2 w).
Proof. destruct w; [done|apply eval_sim]. Qed.
End sim.

(** ** Monotonicity in the facts *)

(** A clause that reads no fact: its result does not depend on the
    index. *)
Fixpoint fact_free (c : clause) : bool :=
  match c with
  | Match _ _ _ => false
  | And x y | Or x y => fact_free x && fact_free y
  | Not x => fact_free x
  | GlobMatch _ _ | Is _ _ | Ge _ _ => true
  end.

(** A clause whose negations read no fact: more facts can only give
    more answers. *)
Fixpoint neg_safe (c : clause) : bool :=
  match c with
  | And x y | Or x y => neg_safe x && neg_safe y
  | Not x => fact_free x
  | Match _ _ _ | GlobMatch _ _ | Is _ _ | Ge _ _ => true
  end.

Lemma mapM_ext_result {E A B} (f g : A → result E B) (l : list A) :
  (∀ x, f x = g x) → mapM f l = mapM g l.
Proof. intros Hfg. induction l as [|x l IH]; simpl; [done|]. by rewrite Hfg, IH. Qed.

Lemma eval_fact_free idx1 idx2 c β : fact_free c = true → eval idx1 c β = eval idx2 c β.
Proof.
  revert β. induction c as [e a v|x IHx y IHy|x IHx y IHy|x IHx|t p|t p|t p];
    intros β Hc; simpl in *; rewrite ?andb_true_iff in Hc; try done.
  - destruct Hc as [Hx Hy]. rewrite IHx by done. destruct (eval idx2 x β) as [bs|]; simpl; [|done].
    by rewrite (mapM_ext_result (eval idx1 y) (eval idx2 y)) by auto.
  - destruct Hc as [Hx Hy]. by rewrite IHx, IHy.
  - destruct (first_unbound β (clause_vars x)); [done|]. by rewrite IHx.
Qed.

Lemma omap_subseteq {A B} (f : A → option B) (l1 l2 : list A) : l1 ⊆ l2 → omap f l1 ⊆ omap f l2.
Proof. intros Hl y. rewrite !list_elem_of_omap. naive_solver. Qed.

Section mono.
Context (idx1 idx2 : index).
Hypothesis Hidx : ∀ a e v, lookup idx1 a e v ⊆ lookup idx2 a e v.

(** Over an index with more facts, a clause whose negations read no
    fact has at least the answers it had. *)
Lemma eval_mono c β bs1 bs2 :
  neg_safe c = true → eval idx1 c β = Ok bs1 → eval idx2 c β = Ok bs2 → bs1 ⊆ bs2.
Proof.
  revert β bs1 bs2. induction c as [e a v|x IHx y IHy|x IHx y IHy|x IHx|t p|t p|t p];
    intros β bs1 bs2 Hc H1 H2; simpl in *; rewrite ?andb_true_iff in Hc.
  - simplify_eq. by apply omap_subseteq.
  - destruct Hc as [Hx Hy]. inv_bind H1. inv_bind H2.
    destruct (mapM (eval idx1 y) a) as [rs1|] eqn:Hm1; simplify_eq/=.
    destruct (mapM (eval idx2 y) a0) as [rs2|] eqn:Hm2; simplify_eq/=.
    intros γ Hγ. apply (elem_of_concat_mapM _ _ _ _ Hm1) in Hγ as (β1 & r1 & Hβ1 & Hr1 & Hγ).
    apply (elem_of_concat_mapM _ _ _ _ Hm2).
    assert (β1 ∈ a0) as Hβ1' by (eapply IHx; eauto).
    destruct (mapM_Ok_elem _ _ _ _ Hm2 Hβ1') as (r2 & Hr2 & _).
    exists β1, r2. split_and!; [done|done|]. by eapply IHy.
  - destruct Hc as [Hx Hy]. inv_bind H1. inv_bind H2. simplify_eq.
    intros γ [Hγ|Hγ]%elem_of_app; apply elem_of_app; [left; eapply IHx|right; eapply IHy]; eauto.
  - destruct (first_unbound β (clause_vars x)); [done|].
    rewrite (eval_fact_free idx1 idx2) in H1 by done. congruence.
  - congruence.
  - congruence.
  - congruence.
Qed.

Lemma and_all_neg_safe c cs : neg_safe (and_all c cs) = true ↔ Forall (λ c', neg_safe c' = true) (c :: cs).
Proof.
  revert c. induction cs as [|c' cs IH]; intros c; simpl.
  - rewrite Forall_singleton. done.
  - rewrite IH, !Forall_cons. simpl. rewrite andb_true_iff. tauto.
Qed.

Lemma run_mono w bs1 bs2 :
  Forall (λ c, neg_safe c = true) w → run idx1 w = Ok bs1 → run idx2 w = Ok bs2 → bs1 ⊆ bs2.
Proof.
  destruct w as [|c cs]; simpl; [congruence|].
  intros Hw. apply eval_mono. by apply and_all_neg_safe.
Qed.

End mono.

(** The index of [F ++ G] answers at least what the index of [F] does. *)
Lemma lookup_build_app F G a e v : lookup (build F) a e v ⊆ lookup (build (F ++ G)) a e v.
Proof. rewrite !lookup_build_scan. unfold scan. rewrite filter_app, fmap_app. set_solver. Qed.

(** The index of a fact list answers as the index of any list with the
    same facts. *)
Lemma lookup_build_same_elems F1 F2 a e v :
  F1 ≡ₛ F2 → lookup (build F1) a e v ≡ₛ lookup (build F2) a e v.
Proof. intros HF. rewrite !lookup_build_scan. unfold scan. by rewrite HF. Qed.

End Clause.
