(* ===== verification/Delegation.v ===== *)
(** * Delegations and their projection to facts (spec 3, 4.3)

    A delegation has a CID, an issuer and an audience DID, an ordered
    list of capabilities {can, with, nb}, an expiration (seconds or
    Infinity) and proofs, which are delegations themselves.  [assert]
    projects a delegation and, recursively, its proofs into facts;
    [from] builds the fact database of a delegation set and [transact]
    adds delegations to it (the [DB.from] / [DB.transact] of
    [agent/db.js]). *)
From S2P Require Import Prelude Term Index.

Module Delegation.
Import Term Index.

Record capability := Capability {
  can : string;
  with_ : string;
  nb : list (string * scalar)
}.

#[warnings="-register-all"]
Inductive delegation := Delegation {
  cid : N;
  issuer : string;
  audience : string;
  capabilities : list capability;
  expiration : option Z;
  proofs : list delegation
}.

(** Induction through the nested list of proofs. *)
Section delegation_ind_nested.
Variable P : delegation → Prop.
Hypothesis Hd : ∀ d, Forall P (proofs d) → P d.

Fixpoint delegation_ind_nested (d : delegation) : P d :=
    match d as d0 return P d0 with
    | Delegation n i a cs e ps =>
        Hd (Delegation n i a cs e ps)
          ((fix go (l : list delegation) : Forall P l :=
              match l with
              | [] => List.Forall_nil P
              | p :: l' => List.Forall_cons P p l' (delegation_ind_nested p) (go l')
              end) ps)
    end.
End delegation_ind_nested.

Definition exp_scalar (e : option Z) : scalar :=
  match e with Some z => SInt z | None => SInf end.

Definition entity (d : delegation) : scalar := SLink (Cid (cid d)).

Definition capability_facts (n : N) (i : nat) (c : capability) : list fact :=
  let k := SLink (CapLink n i) in
  [Fact k "capability/can" (SStr (can c)); Fact k "capability/with" (SStr (with_ c))]
  ++ map (λ fv, Fact k ("capability/nb/" +:+ fv.1) fv.2) (nb c)
  ++ [Fact (SLink (Cid n)) "ucan/capability" k].

(** The facts a delegation states about itself. *)
Definition own_facts (d : delegation) : list fact :=
  [Fact (entity d) "ucan/issuer" (SStr (issuer d));
Fact (entity d) "ucan/audience" (SStr (audience d));
Fact (entity d) "ucan/expiration" (exp_scalar (expiration d))]
  ++ mjoin (imap (capability_facts (cid d)) (capabilities d))
  ++ map (λ p, Fact (entity d) "ucan/proof" (entity p)) (proofs d).

Fixpoint assert (d : delegation) : list fact :=
  own_facts d ++ flat_map assert (proofs d).

(** A delegation and, transitively, its proofs. *)
Fixpoint closure (d : delegation) : list delegation :=
  d :: flat_map closure (proofs d).

Definition all_delegations (ds : list delegation) : list delegation :=
  flat_map closure ds.

Record db := Db { db_facts : list fact; db_index : index }.

(** [DB.from({proofs})] *)
Definition from (ds : list delegation) : db :=
  let F := flat_map assert ds in Db F (build F).

(** [DB.transact(db, [{assert: {proof}} ...])] *)
Definition transact (D : db) (ds : list delegation) : db :=
  let F := flat_map assert ds in Db (db_facts D ++ F) (foldl add_fact (db_index D) F).

(** The index of a database is the index of its facts. *)
Definition db_wf (D : db) : Prop := db_index D = build (db_facts D).

(** Content addressing: one CID names one delegation. *)
Definition cid_unique (ds : list delegation) : Prop :=
  ∀ d1 d2, d1 ∈ all_delegations ds → d2 ∈ all_delegations ds → cid d1 = cid d2 → d1 = d2.

(** A delegation is unexpired at [t]: no expiration, or [t ≤ exp]. *)
Definition unexpired (d : delegation) (t : Z) : Prop :=
  match expiration d with None => True | Some e => (t ≤ e)%Z end.


(** ** The projector, declaratively *)

Inductive own_fact (d : delegation) : fact → Prop :=
  | OfIssuer : own_fact d (Fact (entity d) "ucan/issuer" (SStr (issuer d)))
  | OfAudience : own_fact d (Fact (entity d) "ucan/audience" (SStr (audience d)))
  | OfExpiration : own_fact d (Fact (entity d) "ucan/expiration" (exp_scalar (expiration d)))
  | OfCan i c : capabilities d !! i = Some c →
      own_fact d (Fact (SLink (CapLink (cid d) i)) "capability/can" (SStr (can c)))
  | OfWith i c : capabilities d !! i = Some c →
      own_fact d (Fact (SLink (CapLink (cid d) i)) "capability/with" (SStr (with_ c)))
  | OfNb i c k v : capabilities d !! i = Some c → (k, v) ∈ nb c →
      own_fact d (Fact (SLink (CapLink (cid d) i)) ("capability/nb/" +:+ k) v)
  | OfCapability i c : capabilities d !! i = Some c →
      own_fact d (Fact (entity d) "ucan/capability" (SLink (CapLink (cid d) i)))
  | OfProof p : p ∈ proofs d → own_fact d (Fact (entity d) "ucan/proof" (entity p)).

Lemma elem_of_capability_facts n i c f :
  f ∈ capability_facts n i c ↔
    f = Fact (SLink (CapLink n i)) "capability/can" (SStr (can c)) ∨
    f = Fact (SLink (CapLink n i)) "capability/with" (SStr (with_ c)) ∨
    (∃ k v, (k, v) ∈ nb c ∧ f = Fact (SLink (CapLink n i)) ("capability/nb/" +:+ k) v) ∨
    f = Fact (SLink (Cid n)) "ucan/capability" (SLink (CapLink n i)).
Proof.
  unfold capability_facts.
  rewrite !elem_of_app, !elem_of_cons, list_elem_of_fmap, !elem_of_nil. split.
  - intros [[?|[?|[]]]|[([k v] & ? & ?)|[?|[]]]]; subst; naive_solver.
  - intros [?|[?|[(k & v & ? & ?)|?]]]; subst;
      [left; left|left; right; left|right; left; by exists (k, v)|right; right; left]; done.
Qed.

(** [own_facts] enumerates exactly the facts of [own_fact]. *)
Lemma own_facts_spec d f : f ∈ own_facts d ↔ own_fact d f.
Proof.
  unfold own_facts.
  rewrite !elem_of_app, !elem_of_cons, elem_of_nil, list_elem_of_join, list_elem_of_fmap.
  setoid_rewrite elem_of_lookup_imap. split.
  - intros [[->|[->|[->|[]]]]|[(l & Hf & i & c & -> & Hc)|(p & -> & Hp)]]; try by constructor.
    apply elem_of_capability_facts in Hf as [->|[->|[(k & v & ? & ->)| ->]]]; by econstructor.
  - destruct 1 as [| | |i c Hc|i c Hc|i c k v Hc Hkv|i c Hc|p Hp];
      [by left; auto|by left; auto|by left; auto| | | | |by right; right; eauto];
      right; left; (eexists; split; [|eexists _, _; split; [done|exact Hc]]);
      apply elem_of_capability_facts; naive_solver.
Qed.

(** The facts of a delegation set are the own facts of its delegations
    and of their proofs, transitively. *)
Lemma elem_of_assert ds f :
  f ∈ flat_map assert ds ↔ ∃ d, d ∈ all_delegations ds ∧ own_fact d f.
Proof.
  unfold all_delegations. rewrite elem_of_flat_map. setoid_rewrite elem_of_flat_map.
  assert (∀ d, f ∈ assert d ↔ ∃ d', d' ∈ closure d ∧ own_fact d' f) as Hd.
  { apply delegation_ind_nested. intros d Hps.
    replace (assert d) with (own_facts d ++ flat_map assert (proofs d)) by (by destruct d).
    replace (closure d) with (d :: flat_map closure (proofs d)) by (by destruct d).
    rewrite elem_of_app, own_facts_spec, elem_of_flat_map. setoid_rewrite elem_of_cons.
    setoid_rewrite elem_of_flat_map. rewrite Forall_forall in Hps. split.
    - intros [Hown|(p & Hp & Hf)]; [eauto|].
      destruct (proj1 (Hps p Hp) Hf) as (d' & ? & ?). eauto 10.
    - intros (d' & [->|(p & Hp & Hd')] & Hf); [by left|right].
      exists p. split; [done|]. apply (Hps p Hp); eauto. }
  setoid_rewrite Hd. naive_solver.
Qed.



(** ** Facts by attribute *)

(** Attribute names of different facts differ, also against the
    ["capability/nb/" +:+ k] family. *)
Ltac attr_discr :=
  try match goal with
  | H : @eq string _ _ |- _ => cbv [String.append] in H; discriminate
  end.

Ltac fact_lemma :=
  rewrite elem_of_assert; split;
  [intros (d & Hd & Ho); inversion Ho; subst; attr_discr; eauto 10
  |intros (d & Hd & Hrest); exists d; split; [done|];
   repeat match goal with H : ∃ _, _ |- _ => destruct H | H : _ ∧ _ |- _ => destruct H end;
   subst; by econstructor].

Section facts.
Context (ds : list delegation).

Lemma fact_issuer e v :
Fact e "ucan/issuer" v ∈ flat_map assert ds ↔
    ∃ d, d ∈ all_delegations ds ∧ e = entity d ∧ v = SStr (issuer d).
  Proof. fact_lemma. Qed.

Lemma fact_audience e v :
Fact e "ucan/audience" v ∈ flat_map assert ds ↔
    ∃ d, d ∈ all_delegations ds ∧ e = entity d ∧ v = SStr (audience d).
  Proof. fact_lemma. Qed.

Lemma fact_expiration e v :
Fact e "ucan/expiration" v ∈ flat_map assert ds ↔
    ∃ d, d ∈ all_delegations ds ∧ e = entity d ∧ v = exp_scalar (expiration d).
  Proof. fact_lemma. Qed.

Lemma fact_capability e v :
Fact e "ucan/capability" v ∈ flat_map assert ds ↔
    ∃ d, d ∈ all_delegations ds ∧ ∃ i c, capabilities d !! i = Some c ∧
      e = entity d ∧ v = SLink (CapLink (cid d) i).
  Proof. fact_lemma. Qed.

Lemma fact_can e v :
Fact e "capability/can" v ∈ flat_map assert ds ↔
    ∃ d, d ∈ all_delegations ds ∧ ∃ i c, capabilities d !! i = Some c ∧
      e = SLink (CapLink (cid d) i) ∧ v = SStr (can c).
  Proof. fact_lemma. Qed.

Lemma fact_with e v :
Fact e "capability/with" v ∈ flat_map assert ds ↔
    ∃ d, d ∈ all_delegations ds ∧ ∃ i c, capabilities d !! i = Some c ∧
      e = SLink (CapLink (cid d) i) ∧ v = SStr (with_ c).
  Proof. fact_lemma. Qed.

Lemma fact_nb k e v :
Fact e ("capability/nb/" +:+ k) v ∈ flat_map assert ds ↔
    ∃ d, d ∈ all_delegations ds ∧ ∃ i c, capabilities d !! i = Some c ∧
      e = SLink (CapLink (cid d) i) ∧ (k, v) ∈ nb c.
  Proof.
    rewrite elem_of_assert; split.
    - intros (d & Hd & Ho); inversion Ho; subst; attr_discr.
      match goal with H : _ +:+ _ = _ +:+ _ |- _ => cbv [String.append] in H end.
      subst. eauto 10.
    - intros (d & Hd & i & c & Hc & -> & Hkv). exists d. split; [done|]. by econstructor.
  Qed.

Lemma fact_proof e v :
Fact e "ucan/proof" v ∈ flat_map assert ds ↔
    ∃ d, d ∈ all_delegations ds ∧ ∃ p, p ∈ proofs d ∧ e = entity d ∧ v = entity p.
  Proof. fact_lemma. Qed.
End facts.


(** ** The database *)

Lemma build_app F G : build (F ++ G) = foldl add_fact (build F) G.
Proof. unfold build. by rewrite foldl_app. Qed.

(** Adding delegations incrementally gives the database built from
    scratch over all of them. *)
Lemma transact_from ds ds' : transact (from ds) ds' = from (ds ++ ds').
Proof. unfold transact, from. simpl. by rewrite flat_map_app, build_app. Qed.

Lemma transact_wf D ds : db_wf D → db_wf (transact D ds).
Proof. unfold db_wf, transact. simpl. intros ->. by rewrite build_app. Qed.

(** Under content addressing, an entity or capability link names one
    delegation. *)
Section unique.
Context (ds : list delegation) (Hu : cid_unique ds).

Lemma entity_same d1 d2 :
    d1 ∈ all_delegations ds → d2 ∈ all_delegations ds → entity d1 = entity d2 → d1 = d2.
  Proof. intros ?? He. apply Hu; [done|done|]. by injection He. Qed.

Lemma caplink_same d1 d2 i1 i2 c1 c2 :
    d1 ∈ all_delegations ds → d2 ∈ all_delegations ds →
    capabilities d1 !! i1 = Some c1 → capabilities d2 !! i2 = Some c2 →
    SLink (CapLink (cid d1) i1) = SLink (CapLink (cid d2) i2) → d1 = d2 ∧ i1 = i2 ∧ c1 = c2.
  Proof.
    intros ?? H1 H2 He. injection He as Hc ->.
    assert (d1 = d2) as <- by (by apply Hu). split_and!; [done|done|congruence].
  Qed.
End unique.

Lemma NoDup_fmap_inj_on {A B} (f : A → B) (l : list A) x y :
  NoDup (f <$> l) → x ∈ l → y ∈ l → f x = f y → x = y.
Proof.
  induction l as [|a l IH]; intros Hnd Hx Hy Hf; [set_solver|].
  rewrite fmap_cons in Hnd. apply NoDup_cons in Hnd as [Hnin Hnd].
  apply elem_of_cons in Hx as [->|Hx], Hy as [->|Hy]; auto.
  - destruct Hnin. rewrite Hf. by apply list_elem_of_fmap_2.
  - destruct Hnin. rewrite <-Hf. by apply list_elem_of_fmap_2.
Qed.

(** Distinct CIDs over the closure of a set give content addressing; the
    premise is decidable, so concrete sets discharge it by computation. *)
Lemma cid_unique_NoDup ds : NoDup (cid <$> all_delegations ds) → cid_unique ds.
Proof. intros Hnd d1 d2 H1 H2. by apply (NoDup_fmap_inj_on cid (all_delegations ds)). Qed.

(** Content addressing of a concrete delegation set, by evaluation. *)
Lemma cid_unique_check ds : bool_decide (NoDup (cid <$> all_delegations ds)) = true → cid_unique ds.
Proof. intros H%bool_decide_eq_true. by apply cid_unique_NoDup. Qed.

End Delegation.
