(* ===== verification/Fixtures.v ===== *)
(** * Fixtures of the test suite

    The principals and delegation shapes [src/unnamed/part_001] builds
    its scenarios from: a space shared with an agent, and
    [setupAccount], which makes an account ([did:mailto:]) that logs an
    agent in with a ["ucan:*"] delegation carrying the space's recovery
    delegation as proof, attested by the service.  CIDs, which content
    hashing would compute, are given explicitly; the login is given no
    expiration (the tests query well within ucanto's default lifetime,
    which is not modelled). *)
From S2P Require Import Prelude Term Delegation.

Module Fixtures.
Import Term Delegation.
Local Open Scope string_scope.

Definition alice := "did:key:z6MkAlice".
Definition bob := "did:key:z6MkBob".
Definition w3up := "did:web:web3.storage".

(** [fromEmail(local@domain)] of [@web3-storage/did-mailto]. *)
Definition from_email (local domain : string) : string :=
  "did:mailto:" +:+ domain +:+ ":" +:+ local.

(** [space.share(agent, {can, expiration})]: the space delegates each
    ability on itself to the agent. *)
Definition share (n : N) (space agent : string) (can_ : list string) (exp : option Z) : delegation :=
  Delegation n space agent (map (λ a, Capability a space []) can_) exp [].

(** [space.createRecovery(account)]: the space delegates everything on
    itself to the account. *)
Definition recovery (n : N) (space account : string) : delegation :=
  Delegation n space account [Capability "*" space []] None [].

(** The login delegation of [setupAccount]. *)
Definition login (n : N) (account agent : string) (prfs : list delegation) : delegation :=
  Delegation n account agent [Capability "*" "ucan:*" []] None prfs.

(** [Capability.UCAN.attest.delegate]: the service attests a proof. *)
Definition attestation (n : N) (agent : string) (proof : N) : delegation :=
  Delegation n w3up agent [Capability "ucan/attest" w3up [("proof", SLink (Cid proof))]] None [].

Record account_setup := AccountSetup {
  acc_space : string;
  acc_account : string;
  acc_recovery : delegation;
  acc_login : delegation;
  acc_attestation : delegation
}.

(** [setupAccount({email, name, agent})], CIDs from [n]. *)
Definition setup_account (n : N) (local domain space agent : string) : account_setup :=
  let account := from_email local domain in
  let rec := recovery n space account in
  let lg := login (n + 1) account agent [rec] in
  AccountSetup space account rec lg (attestation (n + 2) agent (n + 1)).

Definition setup_proofs (a : account_setup) : list delegation :=
  [acc_login a; acc_attestation a].

End Fixtures.
