(* ===== verification/Matchers.v ===== *)
(** * Domain matchers (spec 4.5)

    The clause builders query.js composes: [Capability.match],
    [Delegation.match] / [forwards] / [issuedBy] / [hasProof],
    [Attestation.match] and [Text.match].  Each builder that allocates
    internal variables is a [fresh] computation; the clause it returns
    is given by a pure [*_clause] function of those variables, whose
    meaning over the facts of a delegation set is characterised by the
    [sat_*] lemmas (under content addressing, [cid_unique]). *)
From S2P Require Import Prelude Term Glob Index Clause Delegation.

Module Matchers.
Import Term Glob Index Clause Delegation.

Definition str (s : string) : term := Const (SStr s).

(** [Capability.match(capability, {can, subject})] *)
Definition capability_match (cap can_ subject : term) : clause :=
  And (Match cap "capability/can" can_) (Match cap "capability/with" subject).

(** The clause of [Delegation.match(delegation, {capability, audience,
    issuer, time})] with its expiration variable [exp]. *)
Definition delegation_match_clause (exp d cap aud iss time : term) : clause :=
  And (And (And (And (Match d "ucan/capability" cap) (Match d "ucan/audience" aud))
                (Match d "ucan/issuer" iss))
           (Match d "ucan/expiration" exp))
      (Ge exp time).

Definition delegation_match (d cap aud iss time : term) : fresh clause :=
  exp ← variable; mret (delegation_match_clause exp d cap aud iss time).

(** [Delegation.forwards(delegation, {issuer, audience, can, time})]: a
    delegation of [can] on the wildcard resource ["ucan:*"]. *)
Definition forwards_clause (cap exp d iss aud can_ time : term) : clause :=
  And (capability_match cap can_ (str "ucan:*")) (delegation_match_clause exp d cap aud iss time).

Definition forwards (d iss aud can_ time : term) : fresh clause :=
  cap ← variable; m ← delegation_match d cap aud iss time;
  mret (And (capability_match cap can_ (str "ucan:*")) m).

(** [Delegation.issuedBy(delegation, issuer)] *)
Definition issued_by (d iss : term) : clause := Match d "ucan/issuer" iss.

(** [Delegation.hasProof(delegation, proof)] *)
Definition has_proof (d p : term) : clause := Match d "ucan/proof" p.

(** [Attestation.match(attestation, {proof, time, audience})]: a
    delegation to [audience] of ["ucan/attest"] whose [nb.proof] is
    [proof], unexpired at [time]. *)
Definition attestation_clause (cap iss exp att proof time aud : term) : clause :=
  And (And (Match cap "capability/can" (str "ucan/attest")) (Match cap "capability/nb/proof" proof))
      (delegation_match_clause exp att cap aud iss time).

Definition attestation_match (att proof time aud : term) : fresh clause :=
  cap ← variable; iss ← variable; m ← delegation_match att cap aud iss time;
  mret (And (And (Match cap "capability/can" (str "ucan/attest"))
                 (Match cap "capability/nb/proof" proof)) m).

(** [API.TextConstraint]: an exact string or a [{glob}] pattern. *)
Inductive text_constraint :=
  | Exactly (s : string)
  | GlobPattern (p : string).

(** [Text.match(term, constraint)] *)
Definition text_match (t : term) (tc : text_constraint) : clause :=
  match tc with
  | Exactly s => Is t (str s)
  | GlobPattern p => GlobMatch t (str p)
  end.

Definition text_sat (tc : text_constraint) (s : string) : Prop :=
  match tc with Exactly s' => s = s' | GlobPattern p => glob p s = true end.

(** ** The builders return their clauses *)

Lemma forwards_run d iss aud can_ time n :
  run_fresh (forwards d iss aud can_ time) n =
  (forwards_clause (Var n) (Var (S n)) d iss aud can_ time, S (S n)).
Proof. reflexivity. Qed.

Lemma attestation_match_run att proof time aud n :
  run_fresh (attestation_match att proof time aud) n =
  (attestation_clause (Var n) (Var (S n)) (Var (S (S n))) att proof time aud, S (S (S n))).
Proof. reflexivity. Qed.

(** ** Meaning over the facts of a delegation set *)

Lemma scalar_ge_unexpired d t :
  scalar_ge (exp_scalar (expiration d)) (SInt t) = true ↔ unexpired d t.
Proof.
  unfold unexpired. destruct (expiration d); simpl; [|done].
  by rewrite bool_decide_eq_true.
Qed.

Lemma sat_text_match F t tc β :
  sat F (text_match t tc) β ↔ ∃ s, resolve β t = Some (SStr s) ∧ text_sat tc s.
Proof.
  destruct tc as [s'|p]; simpl; unfold test2, str; simpl; split.
  - intros (a & b & Ha & Hb & Hab). case_bool_decide; [|done]. simplify_eq. eauto.
  - intros (s & Hs & ->). exists (SStr s'), (SStr s'). by rewrite bool_decide_eq_true.
  - intros (a & b & Ha & Hb & Hab). simplify_eq.
    destruct a; try discriminate. eauto.
  - intros (s & Hs & Hg). by exists (SStr s), (SStr p).
Qed.

Section semantics.
Context (ds : list delegation) (Hu : cid_unique ds).
Local Abbreviation F := (flat_map assert ds).
Local Abbreviation all := (all_delegations ds).

Lemma sat_capability_match k cn sb β :
    sat F (capability_match k cn sb) β ↔
    ∃ d i c, d ∈ all ∧ capabilities d !! i = Some c ∧
      resolve β k = Some (SLink (CapLink (cid d) i)) ∧
      resolve β cn = Some (SStr (can c)) ∧ resolve β sb = Some (SStr (with_ c)).
  Proof.
    simpl. setoid_rewrite fact_can. setoid_rewrite fact_with. split.
    - intros [(? & v & (d & Hd & i & c & Hc & -> & ->) & Hk & Hv)
              (? & w & (d' & Hd' & i' & c' & Hc' & -> & ->) & Hk' & Hw)].
      rewrite Hk in Hk'.
      destruct (caplink_same ds Hu d d' i i' c c') as (<- & <- & <-); [done..|congruence|].
      eauto 10.
    - intros (d & i & c & Hd & Hc & Hk & Hcn & Hsb). split; do 2 eexists; eauto 10.
  Qed.

Lemma sat_delegation_match_clause exp d cap aud iss time β :
    sat F (delegation_match_clause exp d cap aud iss time) β ↔
    ∃ dl, dl ∈ all ∧ resolve β d = Some (entity dl) ∧
      (∃ i c, capabilities dl !! i = Some c ∧ resolve β cap = Some (SLink (CapLink (cid dl) i))) ∧
      resolve β aud = Some (SStr (audience dl)) ∧ resolve β iss = Some (SStr (issuer dl)) ∧
      resolve β exp = Some (exp_scalar (expiration dl)) ∧
      ∃ t, resolve β time = Some t ∧ scalar_ge (exp_scalar (expiration dl)) t = true.
  Proof.
    simpl. unfold test2.
    setoid_rewrite fact_capability. setoid_rewrite fact_audience.
    setoid_rewrite fact_issuer. setoid_rewrite fact_expiration. split.
    - intros [[[[(? & ? & (d1 & H1 & i & c & Hc & -> & ->) & Hd1 & Hk)
                 (? & ? & (d2 & H2 & -> & ->) & Hd2 & Ha)]
                (? & ? & (d3 & H3 & -> & ->) & Hd3 & Hi)]
               (? & ? & (d4 & H4 & -> & ->) & Hd4 & He)]
              (a & b & Ha' & Hb & Hab)].
      rewrite Hd1 in Hd2, Hd3, Hd4. simplify_eq.
      repeat match goal with
      | H : cid ?x = cid ?y |- _ => assert (x = y) by (apply Hu; auto); clear H; subst
      end.
      eexists. eauto 20.
    - intros (dl & Hdl & Hd & (i & c & Hc & Hk) & Ha & Hi & He & t & Ht & Hge).
      split_and!; do 2 eexists; eauto 10.
  Qed.

Lemma sat_attestation_clause cap iss exp att proof time aud β :
    sat F (attestation_clause cap iss exp att proof time aud) β ↔
    ∃ a i c pv, a ∈ all ∧ capabilities a !! i = Some c ∧ can c = "ucan/attest" ∧
      ("proof", pv) ∈ nb c ∧ resolve β proof = Some pv ∧
      resolve β cap = Some (SLink (CapLink (cid a) i)) ∧
      resolve β att = Some (entity a) ∧ resolve β aud = Some (SStr (audience a)) ∧
      resolve β iss = Some (SStr (issuer a)) ∧
      resolve β exp = Some (exp_scalar (expiration a)) ∧
      ∃ t, resolve β time = Some t ∧ scalar_ge (exp_scalar (expiration a)) t = true.
  Proof.
    unfold attestation_clause. cbn [sat]. rewrite sat_delegation_match_clause.
    change "capability/nb/proof" with ("capability/nb/" +:+ "proof").
    setoid_rewrite fact_can. setoid_rewrite fact_nb. split.
    - intros [[(? & ? & (a1 & H1 & i1 & c1 & Hc1 & -> & ->) & Hk1 & Hcan)
               (? & pv & (a2 & H2 & i2 & c2 & Hc2 & -> & Hpv) & Hk2 & Hp)]
              (a & Ha & Hatt & (i & c & Hc & Hk) & Haud & Hiss & Hexp & Htime)].
      assert (a2 = a1 ∧ i2 = i1 ∧ c2 = c1) as (-> & -> & ->)
        by (apply (caplink_same ds Hu); auto; congruence).
      assert (a = a1 ∧ i = i1 ∧ c = c1) as (-> & -> & ->)
        by (apply (caplink_same ds Hu); auto; congruence).
      simpl in Hcan. simplify_eq. exists a1, i1, c1, pv. eauto 20.
    - intros (a & i & c & pv & Ha & Hc & Hcan & Hpv & Hp & Hk & Hatt & Haud & Hiss & Hexp & Ht).
      split; [split|].
      + exists (SLink (CapLink (cid a) i)), (SStr "ucan/attest").
        split; [|split; [done|reflexivity]].
        exists a. split; [done|]. exists i, c. by rewrite Hcan.
      + do 2 eexists. eauto 10.
      + exists a. eauto 10.
  Qed.
End semantics.

End Matchers.
