(* ===== verification/Query.v ===== *)
(** * The authorization query of query.js

    [explicit], [implicit], [match_] and [query] translate the four
    exports of [src/packages/w3up-client/src/authorization/query.js].
    A JS default parameter [x = DB.string()] allocates a variable only
    when the caller leaves [x] out; [default_var] models it, in the
    order of the destructuring pattern.  The [*_run] lemmas give the
    clause each builder returns at a counter value; the semantic
    lemmas characterise those clauses over the facts of a delegation
    set. *)
From S2P Require Import Prelude Term Glob Index Clause Delegation Fixtures Matchers.

Module Query.
Import Term Glob Index Clause Delegation Fixtures Matchers.

(** The selector object of [explicit], [implicit] and [match]. *)
Record selector := Selector {
  sel_audience : option term;
  sel_issuer : option term;
  sel_subject : option term;
  sel_can : option term;
  sel_time : option term
}.

Definition default_var (o : option term) : fresh term :=
  match o with Some t => mret t | None => variable end.

(** [explicit(delegation, selector)]: a capability whose [with] is the
    subject, in a delegation to the audience unexpired at [time]. *)
Definition explicit (delegation : term) (sel : selector) : fresh clause :=
  audience ← default_var (sel_audience sel);
  issuer ← default_var (sel_issuer sel);
  subject ← default_var (sel_subject sel);
  can_ ← default_var (sel_can sel);
  time ← default_var (sel_time sel);
  capability ← variable;
  m ← delegation_match delegation capability audience issuer time;
  mret (And (capability_match capability can_ subject) m).

(** [implicit(delegation, selector)]: a ["ucan:*"] delegation issued by
    the subject, or carrying a proof that explicitly delegates [can] on
    the subject to its issuer.  [DB.or] of the single [explicit] clause
    is that clause. *)
Definition implicit (delegation : term) (sel : selector) : fresh clause :=
  subject ← default_var (sel_subject sel);
  can_ ← default_var (sel_can sel);
  time ← default_var (sel_time sel);
  audience ← default_var (sel_audience sel);
  issuer ← default_var (sel_issuer sel);
  proof ← variable;
  fw ← forwards delegation issuer audience can_ time;
  ex ← explicit proof (Selector (Some issuer) None (Some subject) (Some can_) (Some time));
  mret (And fw (Or (issued_by delegation subject) (And (has_proof delegation proof) ex))).

(** [match(delegation, selector)]: explicit or implicit. *)
Definition match_ (delegation : term) (sel : selector) : fresh clause :=
  audience ← default_var (sel_audience sel);
  subject ← default_var (sel_subject sel);
  issuer ← default_var (sel_issuer sel);
  can_ ← default_var (sel_can sel);
  time ← default_var (sel_time sel);
  ex ← explicit delegation (Selector (Some audience) (Some issuer) (Some subject) (Some can_) (Some time));
  im ← implicit delegation (Selector (Some audience) (Some issuer) (Some subject) (Some can_) (Some time));
  mret (Or ex im).

(** The argument of [query]: [can] is given by its keys, in order
    ([{}] when absent); [time] defaults to the current time [now]. *)
Record query_selector := QuerySelector {
  q_audience : text_constraint;
  q_can : list string;
  q_subject : option text_constraint;
  q_time : option Z
}.

(** One group of variables per requested ability. *)
Record proof_group := ProofGroup {
  g_issuer : term;
  g_can : term;
  g_proof : term;
  g_attestation : term;
  g_need : option string
}.

(** The query value: [select] and [where]. *)
Record query_value := QueryValue {
  select_proofs : list proof_group;
  select_subject : term;
  select_audience : term;
  where_ : list clause
}.

(** JS truthiness of a string: only [""] is falsy. *)
Definition js_truthy (s : string) : bool := negb (bool_decide (s = "")).

(** [...(need && { need })]: the field is present for a truthy need. *)
Definition make_group (need : option string) : fresh proof_group :=
  issuer ← variable; can_ ← variable; proof ← variable; attestation ← variable;
  mret (ProofGroup issuer can_ proof attestation
          (match need with Some n => if js_truthy n then Some n else None | None => None end)).

(** The clause of one group: a matching proof, the requested ability
    glob-matched by the delegated one, and an attestation unless the
    issuer is not a [did:mailto:] principal. *)
Definition group_clause (subject audience : term) (time : Z) (g : proof_group) : fresh clause :=
  clause ← match_ (g_proof g) (Selector (Some audience) (Some (g_issuer g)) (Some subject)
                                        (Some (g_can g)) (Some (Const (SInt time))));
  att ← attestation_match (g_attestation g) (g_proof g) (Const (SInt time)) audience;
  let attestations := Or (Not (GlobMatch (g_issuer g) (str "did:mailto:*"))) att in
  mret (And (match g_need g with
             | Some need => And clause (GlobMatch (str need) (g_can g))
             | None => clause
             end) attestations).

(** [query({can = {}, time = Date.now() / 1000, ...selector})] *)
Definition query (sel : query_selector) (now : Z) : fresh query_value :=
  let time := default now (q_time sel) in
  subject ← variable;
  audience ← variable;
  let need := q_can sel in
  proofs ← mapM make_group (match need with [] => [None] | _ => Some <$> need end);
  where_ ← mapM (group_clause subject audience time) proofs;
  mret (QueryValue proofs subject audience
          (where_ ++ [text_match subject (default (GlobPattern "*") (q_subject sel));
                      text_match audience (q_audience sel)])).

(** ** The clauses the builders return *)

Definition explicit_clause (cap exp d aud iss sub can_ time : term) : clause :=
  And (capability_match cap can_ sub) (delegation_match_clause exp d cap aud iss time).

Definition implicit_clause (p cap1 exp1 iss2 cap2 exp2 d aud iss sub can_ time : term) : clause :=
  And (forwards_clause cap1 exp1 d iss aud can_ time)
      (Or (issued_by d sub)
          (And (has_proof d p) (explicit_clause cap2 exp2 p iss iss2 sub can_ time))).

Definition full (aud iss sub can_ time : term) : selector :=
  Selector (Some aud) (Some iss) (Some sub) (Some can_) (Some time).

Lemma explicit_run d aud iss sub can_ time n :
  run_fresh (explicit d (full aud iss sub can_ time)) n =
  (explicit_clause (Var n) (Var (S n)) d aud iss sub can_ time, S (S n)).
Proof. reflexivity. Qed.

Lemma implicit_run d aud iss sub can_ time n :
  run_fresh (implicit d (full aud iss sub can_ time)) n =
  (implicit_clause (Var n) (Var (n + 1)) (Var (n + 2)) (Var (n + 3)) (Var (n + 4)) (Var (n + 5))
                   d aud iss sub can_ time, n + 6).
Proof.
  unfold implicit. simpl. rewrite !Nat.add_succ_r, !Nat.add_0_r. reflexivity.
Qed.

Definition match_clause (d aud iss sub can_ time : term) (n : nat) : clause :=
  Or (explicit_clause (Var n) (Var (S n)) d aud iss sub can_ time)
     (implicit_clause (Var (n + 2)) (Var (n + 3)) (Var (n + 4)) (Var (n + 5)) (Var (n + 6))
                      (Var (n + 7)) d aud iss sub can_ time).

Lemma match_run d aud iss sub can_ time n :
  run_fresh (match_ d (full aud iss sub can_ time)) n = (match_clause d aud iss sub can_ time n, n + 8).
Proof.
  unfold match_, match_clause. simpl. rewrite !Nat.add_succ_r, !Nat.add_0_r. reflexivity.
Qed.

(** The clause of a group, its variables allocated from [n]. *)
Definition group_clause_at (sub aud : term) (time : Z) (g : proof_group) (n : nat) : clause :=
  let m := match_clause (g_proof g) aud (g_issuer g) sub (g_can g) (Const (SInt time)) n in
  And (match g_need g with
       | Some need => And m (GlobMatch (str need) (g_can g))
       | None => m
       end)
      (Or (Not (GlobMatch (g_issuer g) (str "did:mailto:*")))
          (attestation_clause (Var (n + 8)) (Var (n + 9)) (Var (n + 10))
             (g_attestation g) (g_proof g) (Const (SInt time)) aud)).

Lemma group_clause_run sub aud time g n :
  run_fresh (group_clause sub aud time g) n = (group_clause_at sub aud time g n, n + 11).
Proof.
  unfold group_clause, group_clause_at, match_clause. simpl.
  rewrite !Nat.add_succ_r, !Nat.add_0_r. reflexivity.
Qed.

(** ** The clauses of a group are well-moded *)

(** Every variable of the terms [ts] is in [B]. *)
Definition vars_in (ts : list term) (B : list nat) : Prop := ∀ t, t ∈ ts → term_vars t ⊆ B.

Lemma vars_in_filter ts B1 B2 : vars_in ts B1 → vars_in ts B2 → vars_in ts (filter (λ v, v ∈ B2) B1).
Proof. intros H1 H2 t Ht x Hx. apply list_elem_of_filter. split; [by apply (H2 t)|by apply (H1 t)]. Qed.

Lemma vars_in_cons t ts B : vars_in (t :: ts) B ↔ term_vars t ⊆ B ∧ vars_in ts B.
Proof. unfold vars_in. setoid_rewrite elem_of_cons. naive_solver. Qed.

Lemma vars_in_nil B : vars_in [] B.
Proof. intros t Ht. by apply not_elem_of_nil in Ht. Qed.

Lemma vars_in_mono ts B B' : vars_in ts B → B ⊆ B' → vars_in ts B'.
Proof. intros H Hs t Ht. set_solver. Qed.

Lemma mode_explicit_clause cap exp d aud iss sub can_ c B :
  ∃ B', mode (explicit_clause cap exp d aud iss sub can_ (Const c)) B = Some B' ∧ B ⊆ B' ∧
    vars_in [cap; exp; d; aud; iss; sub; can_] B'.
Proof.
  eexists. split; [simpl; rewrite bool_decide_true; [reflexivity|set_solver]|].
  split; [set_solver|]. intros t Ht. set_solver.
Qed.

Lemma mode_implicit_clause p cap1 exp1 iss2 cap2 exp2 d aud iss sub can_ c B :
  ∃ B', mode (implicit_clause p cap1 exp1 iss2 cap2 exp2 d aud iss sub can_ (Const c)) B = Some B' ∧
    B ⊆ B' ∧ vars_in [d; aud; iss; sub; can_] B'.
Proof.
  set (B1 := term_vars d ++ term_vars exp1 ++ term_vars d ++ term_vars iss ++ term_vars d ++ term_vars aud ++
             term_vars d ++ term_vars cap1 ++ term_vars cap1 ++ [] ++ term_vars cap1 ++ term_vars can_ ++ B).
  assert (mode (forwards_clause cap1 exp1 d iss aud can_ (Const c)) B = Some B1) as Hf
    by (simpl; rewrite bool_decide_true; [reflexivity|set_solver]).
  destruct (mode_explicit_clause cap2 exp2 p iss iss2 sub can_ c (term_vars d ++ term_vars p ++ B1))
    as (B3 & Hx & HB3 & Hv3).
  eexists. split.
  { unfold implicit_clause. rewrite (mode_And _ _ _ _ Hf). apply mode_Or; [reflexivity|].
    rewrite (mode_And _ _ _ (term_vars d ++ term_vars p ++ B1)); [exact Hx|reflexivity]. }
  split.
  - intros x Hx'. apply list_elem_of_filter. split; [apply HB3|]; unfold B1; set_solver.
  - apply vars_in_filter.
    + rewrite !vars_in_cons. split_and!; try (unfold B1; set_solver); apply vars_in_nil.
    + rewrite !vars_in_cons in Hv3. rewrite !vars_in_cons.
      destruct Hv3 as (_ & _ & _ & _ & _ & Hsub & Hcan & _).
      split_and!; try done; try (intros x Hx'; apply HB3; unfold B1; set_solver); apply vars_in_nil.
Qed.

Lemma mode_match_clause d aud iss sub can_ c n B :
  ∃ B', mode (match_clause d aud iss sub can_ (Const c) n) B = Some B' ∧ B ⊆ B' ∧
    vars_in [d; aud; iss; sub; can_] B'.
Proof.
  destruct (mode_explicit_clause (Var n) (Var (S n)) d aud iss sub can_ c B) as (B1 & H1 & HB1 & Hv1).
  destruct (mode_implicit_clause (Var (n + 2)) (Var (n + 3)) (Var (n + 4)) (Var (n + 5)) (Var (n + 6))
              (Var (n + 7)) d aud iss sub can_ c B) as (B2 & H2 & HB2 & Hv2).
  eexists. split; [by apply mode_Or|]. split.
  - intros x Hx. apply list_elem_of_filter. split; [apply HB2|apply HB1]; done.
  - apply vars_in_filter; [|done]. rewrite !vars_in_cons in Hv1. rewrite !vars_in_cons. naive_solver.
Qed.

(** The clause of a group binds at least what it is given, the subject
    and the audience, and never meets an unbound variable. *)
Lemma mode_group_clause_at sub aud t g n B :
  ∃ B', mode (group_clause_at sub aud t g n) B = Some B' ∧ B ⊆ B' ∧
    term_vars sub ⊆ B' ∧ term_vars aud ⊆ B'.
Proof.
  destruct (mode_match_clause (g_proof g) aud (g_issuer g) sub (g_can g) (SInt t) n B) as (B1 & H1 & HB1 & Hv1).
  rewrite !vars_in_cons in Hv1. destruct Hv1 as (Hd & Ha & Hi & Hs & Hc & _).
  assert (mode (match g_need g with
                | Some need => And (match_clause (g_proof g) aud (g_issuer g) sub (g_can g) (Const (SInt t)) n)
                                   (GlobMatch (str need) (g_can g))
                | None => match_clause (g_proof g) aud (g_issuer g) sub (g_can g) (Const (SInt t)) n
                end) B = Some B1) as Hneed.
  { destruct (g_need g); [|done]. rewrite (mode_And _ _ _ _ H1). apply mode_check_Some. set_solver. }
  set (att := attestation_clause (Var (n + 8)) (Var (n + 9)) (Var (n + 10)) (g_attestation g) (g_proof g)
                (Const (SInt t)) aud).
  set (B2 := term_vars (g_attestation g) ++ term_vars (Var (n + 10)) ++ term_vars (g_attestation g) ++
             term_vars (Var (n + 9)) ++ term_vars (g_attestation g) ++ term_vars aud ++
             term_vars (g_attestation g) ++ term_vars (Var (n + 8)) ++ term_vars (Var (n + 8)) ++
             term_vars (g_proof g) ++ term_vars (Var (n + 8)) ++ [] ++ B1).
  assert (mode att B1 = Some B2) as Hatt by (simpl; rewrite bool_decide_true; [reflexivity|set_solver]).
  assert (mode (Not (GlobMatch (g_issuer g) (str "did:mailto:*"))) B1 = Some B1) as Hnot.
  { simpl. by rewrite bool_decide_true by set_solver. }
  eexists. split.
  { unfold group_clause_at. cbv zeta. rewrite (mode_And _ _ _ _ Hneed). by apply mode_Or. }
  assert (∀ x, x ∈ B1 → x ∈ filter (λ v, v ∈ B2) B1) as Hf.
  { intros x Hx. apply list_elem_of_filter. split; [unfold B2; set_solver|done]. }
  split_and!; [intros x Hx; by apply Hf, HB1|intros x Hx; by apply Hf, Hs|intros x Hx; by apply Hf, Ha].
Qed.

(** [make_group] allocates the issuer, ability, proof and attestation
    variables in that order. *)
Lemma make_group_run need m :
  run_fresh (make_group need) m =
    (ProofGroup (Var m) (Var (m + 1)) (Var (m + 2)) (Var (m + 3))
       (match need with Some n => if js_truthy n then Some n else None | None => None end), m + 4).
Proof. unfold make_group. simpl. rewrite !Nat.add_succ_r, !Nat.add_0_r. reflexivity. Qed.

(** ** Meaning at the level of delegations *)

(** [dl] delegates [can_] on [sub] to [aud] and is unexpired at [t]. *)
Definition grants (ds : list delegation) (dl : delegation) (aud can_ sub : string) (t : Z) : Prop :=
  dl ∈ all_delegations ds ∧ audience dl = aud ∧ unexpired dl t ∧
  ∃ c, c ∈ capabilities dl ∧ can c = can_ ∧ with_ c = sub.

(** [dl] delegates [can_] on ["ucan:*"] to [aud], and its issuer is
    [sub] or one of its proofs delegates [can_] on [sub] to its issuer. *)
Definition implicitly_grants (ds : list delegation) (dl : delegation) (aud can_ sub : string) (t : Z) : Prop :=
  grants ds dl aud can_ "ucan:*" t ∧
  (issuer dl = sub ∨ ∃ p, p ∈ proofs dl ∧ grants ds p (issuer dl) can_ sub t).

Lemma proof_in_all ds dl p : dl ∈ all_delegations ds → p ∈ proofs dl → p ∈ all_delegations ds.
Proof.
  unfold all_delegations. rewrite !elem_of_flat_map. intros (d & Hd & Hdl) Hp.
  exists d. split; [done|]. clear Hd. revert dl Hdl Hp. induction d using delegation_ind_nested.
  intros dl Hdl Hp. replace (closure d) with (d :: flat_map closure (proofs d)) in * by (by destruct d).
  apply elem_of_cons in Hdl as [->|Hdl].
  - right. apply elem_of_flat_map. exists p. split; [done|]. destruct p; left.
  - right. apply elem_of_flat_map in Hdl as (q & Hq & Hdl). apply elem_of_flat_map.
    exists q. split; [done|]. rewrite Forall_forall in H. by apply (H q Hq dl).
Qed.

Section semantics.
Context (ds : list delegation) (Hu : cid_unique ds).
Local Abbreviation F := (flat_map assert ds).
Local Abbreviation all := (all_delegations ds).

Lemma sat_explicit_clause cap exp d aud iss sub can_ time β :
    sat F (explicit_clause cap exp d aud iss sub can_ time) β ↔
    ∃ dl i c, dl ∈ all ∧ capabilities dl !! i = Some c ∧
      resolve β d = Some (entity dl) ∧ resolve β cap = Some (SLink (CapLink (cid dl) i)) ∧
      resolve β can_ = Some (SStr (can c)) ∧ resolve β sub = Some (SStr (with_ c)) ∧
      resolve β aud = Some (SStr (audience dl)) ∧ resolve β iss = Some (SStr (issuer dl)) ∧
      resolve β exp = Some (exp_scalar (expiration dl)) ∧
      ∃ t, resolve β time = Some t ∧ scalar_ge (exp_scalar (expiration dl)) t = true.
  Proof.
    unfold explicit_clause. cbn [sat].
    rewrite sat_capability_match, sat_delegation_match_clause by done. split.
    - intros [(d1 & i1 & c1 & H1 & Hc1 & Hk1 & Hcan & Hsub)
              (dl & Hdl & Hd & (i & c & Hc & Hk) & Haud & Hiss & Hexp & Ht)].
      rewrite Hk1 in Hk.
      destruct (caplink_same ds Hu d1 dl i1 i c1 c) as (<- & <- & <-); [done..|congruence|].
      exists d1, i1, c1. eauto 20.
    - intros (dl & i & c & Hdl & Hc & Hd & Hk & Hcan & Hsub & Haud & Hiss & Hexp & Ht).
      split; [exists dl, i, c|exists dl]; eauto 20.
  Qed.

(** What a satisfied explicit clause shows about its delegation. *)
Lemma sat_explicit_grants cap exp d aud iss sub can_ t β :
    sat F (explicit_clause cap exp d aud iss sub can_ (Const (SInt t))) β →
    ∃ dl a cn s, resolve β d = Some (entity dl) ∧ resolve β aud = Some (SStr a) ∧
      resolve β iss = Some (SStr (issuer dl)) ∧
      resolve β can_ = Some (SStr cn) ∧ resolve β sub = Some (SStr s) ∧ grants ds dl a cn s t.
  Proof.
    rewrite sat_explicit_clause.
    intros (dl & i & c & Hdl & Hc & Hd & _ & Hcan & Hsub & Haud & Hiss & _ & tv & Ht & Hge).
    simpl in Ht. simplify_eq. apply scalar_ge_unexpired in Hge.
    exists dl, (audience dl), (can c), (with_ c). split_and!; try done.
    split_and!; try done. exists c. split_and!; [by eapply list_elem_of_lookup_2|done..].
  Qed.

Lemma sat_implicit_grants p cap1 exp1 iss2 cap2 exp2 d aud iss sub can_ t β :
    sat F (implicit_clause p cap1 exp1 iss2 cap2 exp2 d aud iss sub can_ (Const (SInt t))) β →
    ∃ dl a cn s, resolve β d = Some (entity dl) ∧ resolve β aud = Some (SStr a) ∧
      resolve β iss = Some (SStr (issuer dl)) ∧
      resolve β can_ = Some (SStr cn) ∧ resolve β sub = Some (SStr s) ∧
      implicitly_grants ds dl a cn s t.
  Proof.
    unfold implicit_clause. cbn [sat]. intros [Hfw Hor].
    apply (sat_explicit_grants cap1 exp1 d aud iss (str "ucan:*")) in Hfw
      as (dl & a & cn & s0 & Hd & Haud & Hiss & Hcan & Hs0 & Hg). simpl in Hs0. simplify_eq.
    destruct Hor as [(e' & v' & Hf & He & Hv)|[(e' & v' & Hf & He & Hv) Hex]].
    - apply fact_issuer in Hf as (d' & Hd' & -> & ->). rewrite Hd in He. simplify_eq.
      assert (d' = dl) as -> by (apply Hu; [done|apply Hg|congruence]).
      exists dl, a, cn, (issuer dl). split_and!; try done. split; [done|by left].
    - apply fact_proof in Hf as (d' & Hd' & q & Hq & -> & ->). rewrite Hd in He. simplify_eq.
      assert (d' = dl) as -> by (apply Hu; [done|apply Hg|congruence]).
      apply sat_explicit_grants in Hex as (q' & a' & cn' & s & Hq' & Ha' & _ & Hcn' & Hs & Hgq).
      rewrite Hv in Hq'. simplify_eq.
      assert (q' = q) as -> by (apply Hu; [apply Hgq|eapply proof_in_all; [apply Hg|done]|congruence]).
      exists dl, a, cn, s. split_and!; try done. split; [done|right]. eauto.
  Qed.
End semantics.

(** ** The query *)

Lemma query_unfold sel now k :
  run_fresh (query sel now) k =
  let '(ps, n1) := run_fresh (mapM make_group
                     (match q_can sel with [] => [None] | _ => Some <$> q_can sel end)) (S (S k)) in
  let '(ws, n2) := run_fresh (mapM (group_clause (Var k) (Var (S k)) (default now (q_time sel))) ps) n1 in
  (QueryValue ps (Var k) (Var (S k))
     (ws ++ [text_match (Var k) (default (GlobPattern "*") (q_subject sel));
             text_match (Var (S k)) (q_audience sel)]), n2).
Proof. reflexivity. Qed.

Lemma query_run sel now k :
  let r := run_fresh (query sel now) k in
  select_subject r.1 = Var k ∧ select_audience r.1 = Var (S k) ∧
  Forall2 (λ g c, ∃ j, c = group_clause_at (Var k) (Var (S k)) (default now (q_time sel)) g j)
          (select_proofs r.1) (take (length (select_proofs r.1)) (where_ r.1)) ∧
  drop (length (select_proofs r.1)) (where_ r.1) =
    [text_match (Var k) (default (GlobPattern "*") (q_subject sel)); text_match (Var (S k)) (q_audience sel)].
Proof.
  rewrite query_unfold.
  destruct (run_fresh (mapM make_group _) (S (S k))) as [ps n1].
  pose proof (mapM_fresh_Forall2 (group_clause (Var k) (Var (S k)) (default now (q_time sel))) ps n1) as Hw.
  destruct (run_fresh (mapM _ ps) n1) as [ws n2]. cbn [fst snd select_subject select_audience
    select_proofs where_] in *.
  apply Forall2_length in Hw as Hlen. rewrite Hlen, take_app_length, drop_app_length.
  split_and!; try done. eapply Forall2_impl; [exact Hw|].
  intros g c (j & ->). exists j. by rewrite group_clause_run.
Qed.


(** C17: An ability requested as the empty string is falsy in
    [...(need && { need })] and [need ? .. : clause]: the query for
    [{can: {'': []}}] is the query for no ability at all, which matches
    proofs of any ability. *)
Theorem query_empty_need aud sub tm now k :
  run_fresh (query (QuerySelector aud [""%string] sub tm) now) k =
  run_fresh (query (QuerySelector aud [] sub tm) now) k.
Proof. reflexivity. Qed.

(** The query always has a group of variables: one per requested
    ability, or a single unconstrained one. *)
Lemma query_groups sel now k : select_proofs (run_fresh (query sel now) k).1 ≠ [].
Proof.
  rewrite query_unfold.
  set (ns := match q_can sel with [] => [None] | _ => Some <$> q_can sel end).
  pose proof (mapM_fresh_Forall2 make_group ns (S (S k))) as Hl%Forall2_length.
  destruct (run_fresh (mapM make_group ns) _) as [ps n1]. destruct (run_fresh (mapM _ ps) n1).
  simpl in *. intros ->. unfold ns in Hl. by destruct (q_can sel).
Qed.


Lemma mode_text_match k tc B : k ∈ B → mode (text_match (Var k) tc) B = Some B.
Proof. intros Hk. destruct tc; apply mode_check_Some; set_solver. Qed.

(** One group per requested ability, in order, each needing its
    ability when it is truthy. *)
Lemma query_needs sel now :
  q_can sel ≠ [] →
  Forall2 (λ A g, g_need g = if js_truthy A then Some A else None)
    (q_can sel) (select_proofs (run_fresh (query sel now) 0).1).
Proof.
  intros Hne. rewrite query_unfold.
  replace (match q_can sel with [] => [None] | _ => Some <$> q_can sel end) with (Some <$> q_can sel)
    by (by destruct (q_can sel)).
  pose proof (mapM_fresh_Forall2 make_group (Some <$> q_can sel) 2) as Hw.
  destruct (run_fresh (mapM make_group _) 2) as [ps n1]. destruct (run_fresh (mapM _ ps) n1).
  cbn [fst select_proofs] in *. apply Forall2_fmap_l in Hw. eapply Forall2_impl; [exact Hw|].
  intros A g [m ->]. by rewrite make_group_run.
Qed.

(** The conjunction of the [where] clauses is well-moded from no bound
    variable. *)
Lemma query_where_mode sel now :
  ∃ c cs B', where_ (run_fresh (query sel now) 0).1 = c :: cs ∧ mode (and_all c cs) [] = Some B'.
Proof.
  destruct (query_run sel now 0) as (_ & _ & Hw & Hd). pose proof (query_groups sel now 0) as Hne.
  set (q := (run_fresh (query sel now) 0).1) in *.
  rewrite <-(take_drop (length (select_proofs q)) (where_ q)), Hd.
  remember (take (length (select_proofs q)) (where_ q)) as ws0 eqn:Hws0. clear Hws0 Hd.
  destruct (select_proofs q) as [|g gs]; [done|]. inversion Hw as [|? c ? ws (j & ->) Hws Heq1 Heq2].
  destruct (mode_group_clause_at (Var 0) (Var 1) (default now (q_time sel)) g j [])
    as (B1 & H1 & _ & H01 & H11).
  destruct (mode_and_all (λ B, 0 ∈ B ∧ 1 ∈ B) _
              (ws ++ [text_match (Var 0) (default (GlobPattern "*") (q_subject sel));
                      text_match (Var 1) (q_audience sel)]) [] B1 H1) as (B' & Hm & _).
  - split; [apply H01|apply H11]; set_solver.
  - intros c' B Hc' [H0 H1']. apply elem_of_app in Hc' as [Hc'|Hc'].
    + apply list_elem_of_lookup in Hc' as [i Hi].
      destruct (Forall2_lookup_r _ _ _ _ _ Hws Hi) as (g' & _ & j' & ->).
      destruct (mode_group_clause_at (Var 0) (Var 1) (default now (q_time sel)) g' j' B)
        as (B'' & Hm'' & HB'' & _). exists B''. split; [done|]. split; apply HB''; done.
    + repeat (apply elem_of_cons in Hc' as [->|Hc']); [| |by apply not_elem_of_nil in Hc'];
        eexists; (split; [apply mode_text_match; done|done]).
  - eauto.
Qed.

(** The query [query] builds never meets an unbound variable: over any
    index it evaluates without error. *)
Lemma query_run_ok idx sel now : ∃ bs, run idx (where_ (run_fresh (query sel now) 0).1) = Ok bs.
Proof.
  destruct (query_where_mode sel now) as (c & cs & B' & -> & Hm).
  destruct (eval_mode_ok idx _ [] B' ∅ Hm) as (bs & Hev & _); [by intros ? ?%not_elem_of_nil|].
  eauto.
Qed.

(** The layout of the query's variables: the subject is [0], the
    audience [1], group [i] holds [2 + 4 i] to [2 + 4 i + 3], and the
    clause of group [i] allocates its internal variables from
    [2 + 4 n + 11 i] for [n] groups. *)
Lemma query_layout sel now :
  let q := (run_fresh (query sel now) 0).1 in
  (∀ i g, select_proofs q !! i = Some g →
     g_issuer g = Var (2 + 4 * i) ∧ g_can g = Var (2 + 4 * i + 1) ∧
     g_proof g = Var (2 + 4 * i + 2) ∧ g_attestation g = Var (2 + 4 * i + 3) ∧
     where_ q !! i = Some (group_clause_at (Var 0) (Var 1) (default now (q_time sel)) g
                             (2 + 4 * length (select_proofs q) + 11 * i))).
Proof.
  rewrite query_unfold.
  set (ns := match q_can sel with [] => [None] | _ => Some <$> q_can sel end).
  destruct (mapM_fresh_layout make_group 4 ns 2) as [Hn1 Hps].
  { intros x m. by rewrite make_group_run. }
  pose proof (mapM_fresh_Forall2 make_group ns 2) as Hlen%Forall2_length.
  destruct (run_fresh (mapM make_group ns) 2) as [ps n1] eqn:E. cbn [fst snd] in Hn1, Hps, Hlen. subst n1.
  set (gc := group_clause (Var 0) (Var 1) (default now (q_time sel))).
  destruct (mapM_fresh_layout gc 11 ps (2 + 4 * length ns)) as [_ Hws].
  { intros x m. unfold gc. by rewrite group_clause_run. }
  pose proof (mapM_fresh_Forall2 gc ps (2 + 4 * length ns)) as Hlen'%Forall2_length.
  destruct (run_fresh (mapM gc ps) _) as [ws n2]. cbn [fst snd select_proofs where_] in *. intros i g Hg.
  destruct (lookup_lt_is_Some_2 ns i) as [x Hx]; [rewrite Hlen; by eapply lookup_lt_Some|].
  pose proof (Hps i x Hx) as Hi. rewrite make_group_run, Hg in Hi. simpl in Hi. injection Hi as ->. simpl. split_and!; try done.
  rewrite lookup_app_l by (rewrite <-Hlen'; by eapply lookup_lt_Some).
  rewrite (Hws i _ Hg). unfold gc. rewrite group_clause_run. simpl. by rewrite Hlen.
Qed.

Lemma text_match_neg_safe t tc : neg_safe (text_match t tc) = true.
Proof. by destruct tc. Qed.

(** The negations of the query test only the issuer's DID: they read
    no fact. *)
Lemma query_neg_safe sel now k :
  Forall (λ c, neg_safe c = true) (where_ (run_fresh (query sel now) k).1).
Proof.
  destruct (query_run sel now k) as (_ & _ & Hw & Hd).
  rewrite <-(take_drop (length (select_proofs (run_fresh (query sel now) k).1))
                       (where_ (run_fresh (query sel now) k).1)), Hd.
  apply Forall_app. split.
  - apply Forall_forall. intros c Hc. apply list_elem_of_lookup in Hc as [i Hi].
    destruct (Forall2_lookup_r _ _ _ _ _ Hw Hi) as (g & _ & j & ->).
    unfold group_clause_at. by destruct (g_need g).
  - repeat constructor; apply text_match_neg_safe.
Qed.

(** The attestation of a proof: a delegation to the audience of
    ["ucan/attest"] naming the proof, unexpired at [t]. *)
Definition attests (ds : list delegation) (att dl : delegation) (aud : string) (t : Z) : Prop :=
  att ∈ all_delegations ds ∧ audience att = aud ∧ unexpired att t ∧
  ∃ c, c ∈ capabilities att ∧ can c = "ucan/attest" ∧ ("proof", entity dl) ∈ nb c.

(** What an answer shows about one group of variables: a proof that
    grants the delegated ability on the subject to the audience,
    explicitly or implicitly, covering the requested ability, and an
    attestation when its issuer is a [did:mailto:] principal. *)
Definition group_sound (ds : list delegation) (γ : binding) (g : proof_group) (aud sub : string) (t : Z) : Prop :=
  ∃ dl cn, resolve γ (g_proof g) = Some (entity dl) ∧ resolve γ (g_can g) = Some (SStr cn) ∧
    resolve γ (g_issuer g) = Some (SStr (issuer dl)) ∧
    (grants ds dl aud cn sub t ∨ implicitly_grants ds dl aud cn sub t) ∧
    (∀ need, g_need g = Some need → glob cn need = true) ∧
    (glob "did:mailto:*" (issuer dl) = true →
       ∃ att, resolve γ (g_attestation g) = Some (entity att) ∧ attests ds att dl aud t).

Lemma sat_not_glob_bound F x p s β :
  resolve β x = Some (SStr s) →
  sat F (Not (GlobMatch x (Matchers.str p))) β → glob p s = false.
Proof.
  intros Hx Hn. destruct (glob p s) eqn:Hg; [|done]. exfalso. apply Hn.
  exists β. split; [done|]. by exists (SStr s), (SStr p).
Qed.

Section group.
Context (ds : list delegation) (Hu : cid_unique ds).
Local Abbreviation F := (flat_map assert ds).

Lemma sat_match_clause_grants d aud iss sub can_ t n γ :
    sat F (match_clause d aud iss sub can_ (Const (SInt t)) n) γ →
    ∃ dl a cn s, resolve γ d = Some (entity dl) ∧ resolve γ aud = Some (SStr a) ∧
      resolve γ iss = Some (SStr (issuer dl)) ∧ resolve γ can_ = Some (SStr cn) ∧
      resolve γ sub = Some (SStr s) ∧ (grants ds dl a cn s t ∨ implicitly_grants ds dl a cn s t).
  Proof.
    intros [Hm|Hm]; [apply sat_explicit_grants in Hm|apply sat_implicit_grants in Hm]; try done;
      destruct Hm as (dl & a & cn & s & ?); exists dl, a, cn, s; naive_solver.
  Qed.

Lemma sat_group_clause_sound sub aud t g n γ a s :
    resolve γ aud = Some (SStr a) → resolve γ sub = Some (SStr s) →
    sat F (group_clause_at sub aud t g n) γ → group_sound ds γ g a s t.
  Proof.
    intros Ha Hs. unfold group_clause_at. cbn [sat]. intros [Hm Hatt].
    assert (∃ dl cn, resolve γ (g_proof g) = Some (entity dl) ∧ resolve γ (g_can g) = Some (SStr cn) ∧
              resolve γ (g_issuer g) = Some (SStr (issuer dl)) ∧
              (grants ds dl a cn s t ∨ implicitly_grants ds dl a cn s t) ∧
              (∀ need, g_need g = Some need → glob cn need = true)) as (dl & cn & Hp & Hc & Hi & Hg & Hn).
    { destruct (g_need g) as [need|]; [destruct Hm as [Hm Hgl]|];
        apply sat_match_clause_grants in Hm as (dl & a' & cn & s' & Hp & Ha' & Hi & Hc & Hs' & Hg);
        rewrite Ha in Ha'; rewrite Hs in Hs'; simplify_eq; exists dl, cn; split_and!; try done.
      intros need' [= <-]. destruct Hgl as (tx & px & Htx & Hpx & Hgl).
      simpl in Htx. rewrite Hc in Hpx. by simplify_eq. }
    exists dl, cn. split_and!; try done. intros Hmail.
    destruct Hatt as [Hnot|Hatt].
    - by rewrite (sat_not_glob_bound F _ _ _ γ Hi Hnot) in Hmail.
    - apply sat_attestation_clause in Hatt as
        (att & i & c & pv & Hatt & Hc' & Hcan & Hpv & Hp' & _ & Hae & Haud & _ & _ & tv & Ht & Hge); [|done].
      rewrite Hp in Hp'. simpl in Ht. simplify_eq. exists att. split; [done|].
      split_and!; try done.
      + by apply scalar_ge_unexpired.
      + exists c. split_and!; [by eapply list_elem_of_lookup_2|done|done].
  Qed.
End group.

(** Soundness of the query: every answer binds the audience and the
    subject to strings that satisfy the selector's text constraints,
    and for every requested ability a proof that grants it to the
    audience on the subject at the query time, explicitly or through a
    ["ucan:*"] delegation, with an unexpired attestation when the proof
    was issued by a [did:mailto:] principal. *)
Lemma query_answers_sound ds sel now bs γ :
  cid_unique ds →
  run (build (flat_map assert ds)) (where_ (run_fresh (query sel now) 0).1) = Ok bs → γ ∈ bs →
  let q := (run_fresh (query sel now) 0).1 in
  ∃ a s, resolve γ (select_audience q) = Some (SStr a) ∧ text_sat (q_audience sel) a ∧
    resolve γ (select_subject q) = Some (SStr s) ∧
    text_sat (default (GlobPattern "*") (q_subject sel)) s ∧
    ∀ g, g ∈ select_proofs q → group_sound ds γ g a s (default now (q_time sel)).
Proof.
  intros Hu Hr Hγ. cbv zeta. pose proof (run_sat _ _ _ _ Hr Hγ) as Hsat.
  destruct (query_run sel now 0) as (Hs & Ha & Hw & Hd).
  set (q := (run_fresh (query sel now) 0).1) in *.
  assert (∀ c, c ∈ take (length (select_proofs q)) (where_ q) → sat (flat_map assert ds) c γ) as Htake.
  { intros c Hc. apply Hsat. rewrite <-(take_drop (length (select_proofs q)) (where_ q)).
    apply elem_of_app. by left. }
  assert (∀ c, c ∈ drop (length (select_proofs q)) (where_ q) → sat (flat_map assert ds) c γ) as Hdrop.
  { intros c Hc. apply Hsat. rewrite <-(take_drop (length (select_proofs q)) (where_ q)).
    apply elem_of_app. by right. }
  rewrite Hd in Hdrop.
  assert (sat (flat_map assert ds) (text_match (Var 0) (default (GlobPattern "*") (q_subject sel))) γ)
    as (s & Hsv & Hst)%sat_text_match by (apply Hdrop; set_solver).
  assert (sat (flat_map assert ds) (text_match (Var 1) (q_audience sel)) γ)
    as (a & Hav & Hat)%sat_text_match by (apply Hdrop; set_solver).
  exists a, s. rewrite Hs, Ha. split_and!; try done.
  intros g Hg. apply list_elem_of_lookup in Hg as [i Hi].
  destruct (Forall2_lookup_l _ _ _ _ _ Hw Hi) as (c & Hc & j & ->).
  eapply sat_group_clause_sound; [done|exact Hav|exact Hsv|].
  apply Htake. by eapply list_elem_of_lookup_2.
Qed.

(** C1: Soundness of the query: every answer binds the audience and the
    subject to strings that satisfy the selector's text constraints,
    and for every requested ability a proof that grants it to the
    audience on the subject at the query time, explicitly or through a
    ["ucan:*"] delegation, with an unexpired attestation when the proof
    was issued by a [did:mailto:] principal. *)
Theorem query_sound ds sel now bs γ :
  cid_unique ds →
  run (build (flat_map assert ds)) (where_ (run_fresh (query sel now) 0).1) = Ok bs → γ ∈ bs →
  let q := (run_fresh (query sel now) 0).1 in
  ∃ a s, resolve γ (select_audience q) = Some (SStr a) ∧ text_sat (q_audience sel) a ∧
    resolve γ (select_subject q) = Some (SStr s) ∧
    text_sat (default (GlobPattern "*") (q_subject sel)) s ∧
    ∀ g, g ∈ select_proofs q → group_sound ds γ g a s (default now (q_time sel)).
Proof. exact (query_answers_sound ds sel now bs γ). Qed.

(** ** Witnesses *)

(** A space shares [store/add] with alice, who asks for it. *)
Definition example_store : list delegation := [share 1 "did:key:z6MkSpace" alice ["store/add"] None].
Definition example_selector : query_selector := QuerySelector (Exactly alice) ["store/add"] None None.

Definition example_run : result error (list binding) :=
  run (build (flat_map assert example_store)) (where_ (run_fresh (query example_selector 1000) 0).1).

Definition example_answers : list binding := match example_run with Ok bs => bs | Err _ => [] end.
Definition example_answer : binding := default ∅ (head example_answers).

Lemma query_sound_witness :
  cid_unique example_store ∧ example_run = Ok example_answers ∧ example_answer ∈ example_answers ∧
  let q := (run_fresh (query example_selector 1000) 0).1 in
  ∃ a s, resolve example_answer (select_audience q) = Some (SStr a) ∧ text_sat (q_audience example_selector) a ∧
    resolve example_answer (select_subject q) = Some (SStr s) ∧
    text_sat (default (GlobPattern "*") (q_subject example_selector)) s ∧
    ∀ g, g ∈ select_proofs q → group_sound example_store example_answer g a s (default 1000%Z (q_time example_selector)).
Proof.
  assert (cid_unique example_store) as Hu by (apply cid_unique_check; vm_compute; reflexivity).
  assert (example_run = Ok example_answers) as Hr by (vm_compute; reflexivity).
  assert (example_answer ∈ example_answers) as Hin by (vm_compute; left).
  split_and!; [done..|]. exact (query_sound example_store example_selector 1000 _ _ Hu Hr Hin).
Defined.

End Query.
