(* ===== verification/Typing.v ===== *)
(** * Types of query variables and of facts

    query.js declares each variable of its query with a type:
    [DB.string()] for the subject, the audience, and each group's
    issuer and ability, [DB.link()] for each group's proof and
    attestation.  This file gives the facts the projector asserts a
    schema (the entity and value type of each attribute), a static
    check [ty_ok] that a clause binds each variable only to values of
    its type, and its soundness for the evaluator ([eval_typed]): over
    schema-conformant facts, every answer of a well-typed clause is a
    well-typed binding.  A variable already bound when a position is
    reached is only compared, so the check follows the mode analysis
    of [Clause] along conjunctions.  The query of query.js is
    well-typed for every selector ([query_ty_ok]), hence every answer
    binds its string variables to strings and its link variables to
    CIDs, over any delegation set ([query_answers_typed]). *)
From S2P Require Import Prelude Term Index Clause Delegation Matchers Query.

Module Typing.
Import Term Index Clause Delegation Matchers Query.

(** The types of the values facts carry: strings, times (an integer
    or [Infinity]), delegation CIDs, capability entities, and any. *)
Inductive ty := TStr | TTime | TCid | TCap | TAny.

#[export] Instance ty_eq_dec : EqDecision ty.
Proof. solve_decision. Defined.

Definition has_ty (v : scalar) (τ : ty) : bool :=
  match τ, v with
  | TAny, _ => true
  | TStr, SStr _ => true
  | TTime, (SInt _ | SInf) => true
  | TCid, SLink (Cid _) => true
  | TCap, SLink (CapLink _ _) => true
  | _, _ => false
  end.

(** A value of type [τ] may be held by a variable of type [σ]. *)
Definition ty_le (τ σ : ty) : bool := bool_decide (σ = TAny ∨ τ = σ).

(** The schema of the facts of [agent/db.js]: the types of the entity
    and of the value of each attribute. *)
Definition schema (a : string) : option (ty * ty) :=
  if String.prefix "capability/nb/" a then Some (TCap, TAny)
  else if bool_decide (a = "ucan/issuer") then Some (TCid, TStr)
  else if bool_decide (a = "ucan/audience") then Some (TCid, TStr)
  else if bool_decide (a = "ucan/expiration") then Some (TCid, TTime)
  else if bool_decide (a = "ucan/capability") then Some (TCid, TCap)
  else if bool_decide (a = "ucan/proof") then Some (TCid, TCid)
  else if bool_decide (a = "capability/can") then Some (TCap, TStr)
  else if bool_decide (a = "capability/with") then Some (TCap, TStr)
  else None.

Definition fact_wt (f : fact) : bool :=
  match schema (f_attr f) with
  | Some (τe, τv) => has_ty (f_entity f) τe && has_ty (f_value f) τv
  | None => false
  end.

(** A typing of the variables. *)
Abbreviation env := (nat → ty).

Definition binding_wt (Γ : env) (β : binding) : Prop :=
  ∀ x v, β !! x = Some v → has_ty v (Γ x) = true.

(** A position of a [Match] may bind its variable to a value of type
    [τ]: the variable is already bound ([B]), or its type admits [τ]. *)
Definition pos_ok (Γ : env) (B : list nat) (t : term) (τ : ty) : bool :=
  match t with Var x => bool_decide (x ∈ B) || ty_le τ (Γ x) | Const _ => true end.

(** The type check, from the variables bound beforehand [B], along the
    order of evaluation.  Negations and constraints bind nothing. *)
Fixpoint ty_ok (Γ : env) (c : clause) (B : list nat) : bool :=
  match c with
  | Match e a v =>
      match schema a with
      | Some (τe, τv) => pos_ok Γ B e τe && pos_ok Γ (term_vars e ++ B) v τv
      | None => true
      end
  | And x y => ty_ok Γ x B && ty_ok Γ y (default B (mode x B))
  | Or x y => ty_ok Γ x B && ty_ok Γ y B
  | Not _ | GlobMatch _ _ | Is _ _ | Ge _ _ => true
  end.

(** ** The projector asserts schema-conformant facts *)

Lemma schema_nb k : schema ("capability/nb/" +:+ k) = Some (TCap, TAny).
Proof. unfold schema. by rewrite string_prefix_app. Qed.

Lemma assert_wt ds f : f ∈ flat_map assert ds → fact_wt f = true.
Proof.
  intros (d & _ & Hf)%elem_of_assert. inversion Hf; subst; try reflexivity.
  - by destruct (expiration d).
  - cbv [fact_wt f_attr f_entity f_value]. by rewrite schema_nb.
Qed.

(** ** Soundness of the check *)

Lemma has_ty_le v τ σ : has_ty v τ = true → ty_le τ σ = true → has_ty v σ = true.
Proof. unfold ty_le. rewrite bool_decide_eq_true. by intros Hv [->|<-]; [destruct v|]. Qed.

Lemma unify_typed Γ B t τ s β β' :
  binding_wt Γ β → (∀ x, x ∈ B → x ∈ dom β) → pos_ok Γ B t τ = true → has_ty s τ = true →
  unify t s β = Some β' → binding_wt Γ β'.
Proof.
  intros Hβ HB Hpos Hs. unfold unify. destruct (resolve β t) as [c|] eqn:Hr.
  - case_decide; intros; by simplify_eq.
  - destruct t as [x|]; [|done]. intros [= <-]. simpl in Hr, Hpos.
    apply orb_true_iff in Hpos as [Hx|Hle].
    + apply bool_decide_eq_true, HB, elem_of_dom in Hx. by rewrite Hr in Hx; destruct Hx.
    + intros y v. destruct (decide (y = x)) as [->|Hne].
      * rewrite lookup_insert_eq. intros [= <-]. by eapply has_ty_le.
      * rewrite lookup_insert_ne by done. apply Hβ.
Qed.

Lemma dom_unify t s β β' B :
  (∀ x, x ∈ B → x ∈ dom β) → unify t s β = Some β' → ∀ x, x ∈ term_vars t ++ B → x ∈ dom β'.
Proof.
  intros HB Hu x [Hx|Hx]%elem_of_app; [by eapply unify_dom|].
  eapply subseteq_dom; [apply (unify_sound _ _ _ _ Hu)|]. auto.
Qed.

Section sound.
Context (Γ : env) (F : list fact) (HF : ∀ f, f ∈ F → fact_wt f = true).

(** Over schema-conformant facts, evaluating a well-typed, well-moded
    clause from a well-typed binding gives well-typed answers. *)
Lemma eval_typed c B B' β bs :
  ty_ok Γ c B = true → mode c B = Some B' → binding_wt Γ β → (∀ x, x ∈ B → x ∈ dom β) →
  eval (build F) c β = Ok bs → ∀ γ, γ ∈ bs → binding_wt Γ γ.
Proof.
  revert B B' β bs. induction c as [e a v|x IHx y IHy|x IHx y IHy|x IHx|t p|t p|t p];
    intros B B' β bs Hty Hm Hβ HB Hev γ Hγ; simpl in Hty, Hm, Hev.
  - simplify_eq. apply list_elem_of_omap in Hγ as ([e' v'] & Hl & Hu). simpl in Hu.
    apply elem_of_lookup_build in Hl as (Hf & _). apply HF in Hf. unfold fact_wt in Hf.
    cbn [f_attr f_entity f_value] in Hf. destruct (schema a) as [[τe τv]|]; [|done].
    apply andb_true_iff in Hf as [He Hv]. apply andb_true_iff in Hty as [Hte Htv].
    destruct (unify e e' β) as [β1|] eqn:H1; simpl in Hu; [|discriminate].
    eapply unify_typed; [eapply unify_typed; eauto| |exact Htv|exact Hv|exact Hu].
    by eapply dom_unify.
  - apply andb_true_iff in Hty as [Htx Hty]. destruct (mode x B) as [B1|] eqn:Hx; simpl in Hm, Hty; [|done].
    destruct (eval (build F) x β) as [bx|] eqn:Hex; simpl in Hev; [|done].
    destruct (mapM (eval (build F) y) bx) as [rs|] eqn:Hrs; simpl in Hev; simplify_eq.
    apply (elem_of_concat_mapM _ _ _ _ Hrs) in Hγ as (b & r & Hb & Hr & Hγ).
    destruct (eval_mode_ok (build F) x B B1 β Hx HB) as (bx' & Hex' & Hdom). rewrite Hex in Hex'.
    simplify_eq. apply (IHy B1 B' b r); [done|done| |by apply Hdom|done|done].
    by apply (IHx B B1 β bx').
  - apply andb_true_iff in Hty as [Htx Hty].
    destruct (mode x B) as [B1|] eqn:Hx; simpl in Hm; [|done].
    destruct (mode y B) as [B2|] eqn:Hy; simpl in Hm; [|done].
    inv_bind Hev. simplify_eq. apply elem_of_app in Hγ as [Hγ|Hγ]; eauto.
  - destruct (first_unbound β (clause_vars x)); [done|]. inv_bind Hev. simplify_eq.
    by apply elem_of_keep_if in Hγ as [_ ->].
  - by rewrite (check2_keep _ _ _ _ _ _ Hev Hγ).
  - by rewrite (check2_keep _ _ _ _ _ _ Hev Hγ).
  - by rewrite (check2_keep _ _ _ _ _ _ Hev Hγ).
Qed.
End sound.

(** A conjunction of clauses each well-typed from any bound variables
    is well-typed. *)
Lemma ty_ok_and_all Γ c cs B :
  (∀ c' B, c' ∈ c :: cs → ty_ok Γ c' B = true) → ty_ok Γ (and_all c cs) B = true.
Proof.
  revert c. induction cs as [|c' cs IH]; intros c Hall; simpl; [apply Hall; set_solver|].
  apply IH. intros c'' B' Hc''. apply elem_of_cons in Hc'' as [->|Hc''].
  - simpl. rewrite !Hall; set_solver.
  - apply Hall. set_solver.
Qed.

(** Over schema-conformant facts, every answer of a well-typed,
    well-moded [where] is well-typed. *)
Lemma run_typed Γ F c cs B' bs γ :
  (∀ f, f ∈ F → fact_wt f = true) → (∀ c' B, c' ∈ c :: cs → ty_ok Γ c' B = true) →
  mode (and_all c cs) [] = Some B' → run (build F) (c :: cs) = Ok bs → γ ∈ bs → binding_wt Γ γ.
Proof.
  intros HF Hall Hm Hr. apply (eval_typed Γ F HF (and_all c cs) [] B' ∅ bs); try done.
  - by apply ty_ok_and_all.
  - by intros ? ?%not_elem_of_nil.
Qed.

(** ** The query of query.js is well-typed *)

(** A check that needs no bound variables: every position's type fits
    its variable. *)
Definition pos_strict (Γ : env) (t : term) (τ : ty) : bool :=
  match t with Var x => ty_le τ (Γ x) | Const _ => true end.

Fixpoint ty_strict (Γ : env) (c : clause) : bool :=
  match c with
  | Match e a v =>
      match schema a with Some (τe, τv) => pos_strict Γ e τe && pos_strict Γ v τv | None => true end
  | And x y | Or x y => ty_strict Γ x && ty_strict Γ y
  | Not _ | GlobMatch _ _ | Is _ _ | Ge _ _ => true
  end.

(** The schema of each attribute the matchers read. *)
Lemma schema_issuer : schema "ucan/issuer" = Some (TCid, TStr). Proof. reflexivity. Qed.
Lemma schema_audience : schema "ucan/audience" = Some (TCid, TStr). Proof. reflexivity. Qed.
Lemma schema_expiration : schema "ucan/expiration" = Some (TCid, TTime). Proof. reflexivity. Qed.
Lemma schema_capability : schema "ucan/capability" = Some (TCid, TCap). Proof. reflexivity. Qed.
Lemma schema_proof : schema "ucan/proof" = Some (TCid, TCid). Proof. reflexivity. Qed.
Lemma schema_can : schema "capability/can" = Some (TCap, TStr). Proof. reflexivity. Qed.
Lemma schema_with : schema "capability/with" = Some (TCap, TStr). Proof. reflexivity. Qed.
Lemma schema_nb_proof : schema "capability/nb/proof" = Some (TCap, TAny). Proof. reflexivity. Qed.

Create Rewrite HintDb schema_db.
#[export] Hint Rewrite schema_issuer schema_audience schema_expiration schema_capability
  schema_proof schema_can schema_with schema_nb_proof : schema_db.

Lemma ty_strict_ok Γ c B : ty_strict Γ c = true → ty_ok Γ c B = true.
Proof.
  revert B. induction c as [e a v|x IHx y IHy|x IHx y IHy|x IHx|t p|t p|t p]; intros B Hs;
    simpl in *; rewrite ?andb_true_iff in Hs |- *; try done.
  - destruct (schema a) as [[τe τv]|]; [|done]. apply andb_true_iff in Hs as [He Hv].
    rewrite andb_true_iff. split; [destruct e|destruct v]; simpl in *; rewrite ?He, ?Hv, ?orb_true_r; done.
  - destruct Hs. split; auto.
  - destruct Hs. split; auto.
Qed.

(** The type of a term under [Γ]; constants are not constrained. *)
Definition term_ty (Γ : env) (t : term) (τ : ty) : Prop :=
  match t with Var x => Γ x = τ | Const _ => True end.

Lemma pos_strict_ty Γ t τ : term_ty Γ t τ → pos_strict Γ t τ = true.
Proof. destruct t; simpl; [intros ->; unfold ty_le; by apply bool_decide_eq_true; right|done]. Qed.

Lemma ty_ok_And Γ x y B : ty_ok Γ (And x y) B = ty_ok Γ x B && ty_ok Γ y (default B (mode x B)).
Proof. reflexivity. Qed.

Lemma ty_ok_Match Γ e a v B τe τv :
  schema a = Some (τe, τv) → ty_ok Γ (Match e a v) B = pos_ok Γ B e τe && pos_ok Γ (term_vars e ++ B) v τv.
Proof. simpl. by intros ->. Qed.

Lemma pos_ok_bound Γ B t τ : term_vars t ⊆ B → pos_ok Γ B t τ = true.
Proof. destruct t as [x|]; simpl; [|done]. intros Hx. rewrite bool_decide_true; [done|set_solver]. Qed.

Section group.
Context (Γ : env) (sub aud : term) (t : Z) (g : proof_group) (n : nat).
Context (Hsub : term_ty Γ sub TStr) (Haud : term_ty Γ aud TStr).
Context (Hiss : term_ty Γ (g_issuer g) TStr) (Hcan : term_ty Γ (g_can g) TStr).
Context (Hprf : term_ty Γ (g_proof g) TCid) (Hatt : term_ty Γ (g_attestation g) TCid).
Context (Hint : ∀ x, n ≤ x → x < n + 11 → Γ x = TAny).

Lemma internal_ty τ k : k < 11 → pos_strict Γ (Var (n + k)) τ = true.
Proof. intros Hk. simpl. rewrite Hint by lia. unfold ty_le. apply bool_decide_eq_true. by left. Qed.

Ltac strict :=
  repeat match goal with
  | |- context [pos_strict Γ (Var (n + ?k)) ?τ] => rewrite (internal_ty τ k) by lia
  | |- context [pos_strict Γ (Var (S n)) ?τ] => rewrite <-(Nat.add_1_r n), (internal_ty τ 1) by lia
  | |- context [pos_strict Γ (Var n) ?τ] => rewrite <-(Nat.add_0_r n), (internal_ty τ 0) by lia
  | |- context [pos_strict Γ sub TStr] => rewrite (pos_strict_ty _ _ _ Hsub)
  | |- context [pos_strict Γ aud TStr] => rewrite (pos_strict_ty _ _ _ Haud)
  | |- context [pos_strict Γ (g_issuer g) TStr] => rewrite (pos_strict_ty _ _ _ Hiss)
  | |- context [pos_strict Γ (g_can g) TStr] => rewrite (pos_strict_ty _ _ _ Hcan)
  | |- context [pos_strict Γ (g_proof g) TCid] => rewrite (pos_strict_ty _ _ _ Hprf)
  | |- context [pos_strict Γ (g_attestation g) TCid] => rewrite (pos_strict_ty _ _ _ Hatt)
  end.

Lemma match_clause_strict :
  ty_strict Γ (match_clause (g_proof g) aud (g_issuer g) sub (g_can g) (Const (SInt t)) n) = true.
Proof.
  cbn [ty_strict match_clause explicit_clause implicit_clause forwards_clause capability_match
       delegation_match_clause issued_by has_proof str].
  autorewrite with schema_db. strict. reflexivity.
Qed.

Lemma delegation_match_strict :
  ty_strict Γ (delegation_match_clause (Var (n + 10)) (g_attestation g) (Var (n + 8)) aud (Var (n + 9))
                 (Const (SInt t))) = true.
Proof. cbn [ty_strict delegation_match_clause]. autorewrite with schema_db. strict. reflexivity. Qed.

Lemma internal_pos_ok B τ k : k < 11 → pos_ok Γ B (Var (n + k)) τ = true.
Proof. intros Hk. simpl. rewrite Hint by lia. apply orb_true_iff. right. by apply bool_decide_eq_true; left. Qed.

(** The attestation clause reads [nb.proof] (of any type) only once the
    proof is bound. *)
Lemma attestation_ty_ok B :
  term_vars (g_proof g) ⊆ B →
  ty_ok Γ (attestation_clause (Var (n + 8)) (Var (n + 9)) (Var (n + 10)) (g_attestation g) (g_proof g)
             (Const (SInt t)) aud) B = true.
Proof.
  intros Hp. unfold attestation_clause.
  rewrite !ty_ok_And, (ty_ok_Match _ _ _ _ _ _ _ schema_can), (ty_ok_Match _ _ _ _ _ _ _ schema_nb_proof),
    (ty_strict_ok _ _ _ delegation_match_strict), !internal_pos_ok by lia.
  rewrite (pos_ok_bound _ _ (g_proof g)); [done|]. simpl. set_solver.
Qed.

(** The clause of a group is well-typed from any bound variables. *)
Lemma group_ty_ok B : ty_ok Γ (group_clause_at sub aud t g n) B = true.
Proof.
  destruct (mode_match_clause (g_proof g) aud (g_issuer g) sub (g_can g) (SInt t) n B) as (B1 & H1 & _ & Hv1).
  apply vars_in_cons in Hv1 as [Hd Hv1]. unfold group_clause_at. cbv zeta. rewrite ty_ok_And.
  apply andb_true_iff. destruct (g_need g) as [need|].
  - rewrite ty_ok_And, (ty_strict_ok _ _ _ match_clause_strict). split; [done|].
    rewrite (mode_And _ _ _ _ H1). rewrite !vars_in_cons in Hv1.
    rewrite (proj1 (mode_check_Some (str need) (g_can g) B1 ltac:(simpl; set_solver))). cbn.
    by apply attestation_ty_ok.
  - rewrite (ty_strict_ok _ _ _ match_clause_strict), H1. split; [done|]. cbn. by apply attestation_ty_ok.
Qed.

End group.

(** The types query.js declares: [DB.string()] for the subject [0],
    the audience [1] and each group's issuer and ability, [DB.link()]
    for each group's proof and attestation ([make_group]), for [N - 2]
    group variables; the clause builders' internal variables, from [N]
    on, are left unconstrained. *)
Definition query_env (N : nat) : env := λ x,
  if decide (x < 2) then TStr
  else if decide (x < N) then (if decide ((x - 2) mod 4 < 2) then TStr else TCid)
  else TAny.

Lemma query_env_group N i k :
  2 + 4 * i + 3 < N → k < 4 → query_env N (2 + 4 * i + k) = if decide (k < 2) then TStr else TCid.
Proof.
  intros HN Hk. unfold query_env. rewrite decide_False, decide_True by lia.
  replace (2 + 4 * i + k - 2) with (k + i * 4) by lia. by rewrite Nat.Div0.mod_add, Nat.mod_small.
Qed.

(** Every clause of the query is well-typed for the declared types. *)
Lemma query_ty_ok sel now c B :
  let q := (run_fresh (query sel now) 0).1 in
  c ∈ where_ q → ty_ok (query_env (2 + 4 * length (select_proofs q))) c B = true.
Proof.
  intros q Hc. destruct (query_run sel now 0) as (_ & _ & _ & Hd). pose proof (query_layout sel now) as Hl.
  fold q in Hd, Hl. set (N := 2 + 4 * length (select_proofs q)).
  rewrite <-(take_drop (length (select_proofs q)) (where_ q)), Hd in Hc.
  apply elem_of_app in Hc as [Hc|Hc].
  - apply list_elem_of_lookup in Hc as [i Hi]. pose proof (lookup_lt_Some _ _ _ Hi) as Hlt.
    rewrite length_take in Hlt. rewrite lookup_take_lt in Hi by lia.
    destruct (lookup_lt_is_Some_2 (select_proofs q) i) as [g Hg]; [lia|].
    destruct (Hl i g Hg) as (Hiss & Hcan & Hprf & Hatt & Hw). rewrite Hw in Hi. injection Hi as <-.
    apply group_ty_ok; rewrite ?Hiss, ?Hcan, ?Hprf, ?Hatt; cbn [term_ty]; try reflexivity;
      try (rewrite query_env_group by lia; reflexivity).
    + rewrite <-(Nat.add_0_r (2 + 4 * i)), query_env_group by lia. reflexivity.
    + intros x Hx _. unfold query_env. by rewrite !decide_False by lia.
  - repeat (apply elem_of_cons in Hc as [->|Hc]); [| |by apply not_elem_of_nil in Hc];
      by destruct (q_subject sel) as [[]|], (q_audience sel).
Qed.

(** A term holds only values of type [τ] in [γ]. *)
Definition holds (γ : binding) (t : term) (τ : ty) : Prop :=
  ∀ v, resolve γ t = Some v → has_ty v τ = true.

Lemma holds_var Γ γ x τ : binding_wt Γ γ → Γ x = τ → holds γ (Var x) τ.
Proof. intros Hγ <- v. apply Hγ. Qed.

(** C8: The answers of the query respect the types query.js declares
    for its variables: over the facts of any delegation set (content
    addressing not assumed), every answer binds the subject, the
    audience, and each group's issuer and ability ([DB.string()]) only
    to strings, and each group's proof and attestation ([DB.link()])
    only to delegation CIDs. *)
Theorem query_answers_typed ds sel now bs γ :
  run (build (flat_map assert ds)) (where_ (run_fresh (query sel now) 0).1) = Ok bs → γ ∈ bs →
  let q := (run_fresh (query sel now) 0).1 in
  holds γ (select_subject q) TStr ∧ holds γ (select_audience q) TStr ∧
  ∀ g, g ∈ select_proofs q →
    holds γ (g_issuer g) TStr ∧ holds γ (g_can g) TStr ∧ holds γ (g_proof g) TCid ∧
    holds γ (g_attestation g) TCid.
Proof.
  intros Hr Hγ q. destruct (query_run sel now 0) as (Hs & Ha & _). pose proof (query_layout sel now) as Hl.
  fold q in Hs, Ha, Hl, Hr. set (N := 2 + 4 * length (select_proofs q)).
  assert (binding_wt (query_env N) γ) as Hwt.
  { destruct (query_where_mode sel now) as (c & cs & B' & Hw & Hm). fold q in Hw. rewrite Hw in Hr.
    apply (run_typed _ _ c cs B' bs γ (assert_wt ds)); try done.
    intros c' B Hc'. rewrite <-Hw in Hc'. by apply query_ty_ok. }
  rewrite Hs, Ha. split_and!; [by apply (holds_var (query_env N))..|].
  intros g Hg. apply list_elem_of_lookup in Hg as [i Hi]. pose proof (lookup_lt_Some _ _ _ Hi).
  destruct (Hl i g Hi) as (-> & -> & -> & -> & _).
  split_and!; apply (holds_var (query_env N)); try done;
    [rewrite <-(Nat.add_0_r (2 + 4 * i))|..]; rewrite query_env_group by lia; reflexivity.
Qed.

(** The answer of the query for alice's [store/add] over the space's
    delegation is well-typed. *)
Lemma query_answers_typed_witness :
  example_run = Ok example_answers ∧ example_answer ∈ example_answers ∧
  let q := (run_fresh (query example_selector 1000) 0).1 in
  holds example_answer (select_subject q) TStr ∧ holds example_answer (select_audience q) TStr ∧
  ∀ g, g ∈ select_proofs q →
    holds example_answer (g_issuer g) TStr ∧ holds example_answer (g_can g) TStr ∧
    holds example_answer (g_proof g) TCid ∧ holds example_answer (g_attestation g) TCid.
Proof.
  assert (example_run = Ok example_answers) as Hr by (vm_compute; reflexivity).
  assert (example_answer ∈ example_answers) as Hin by (vm_compute; left).
  split_and!; [done..|]. exact (query_answers_typed example_store example_selector 1000 _ _ Hr Hin).
Defined.

End Typing.
