(* ===== verification/Authorization.v ===== *)
(** * Authorization records (spec 4.6)

    [find] runs the query of a selector over a fact database and
    projects each answer to an authorization record: the audience as
    authority, the subject, the abilities of the groups (the requested
    ones, or the delegated one when none was requested) and the CIDs of
    the proofs and attestations the answer binds, without repetition.
    One answer gives one record; records are not merged across answers
    (the spec leaves deduplication to callers).  The theorems: every
    record is backed by unexpired, attested proofs ([find_sound]);
    explicit grants, grants of any ability and attested [did:mailto:]
    logins are found ([find_complete_*]); the expiration boundary;
    [find] never fails; it depends on the delegations only as a set,
    and more delegations never withdraw a record. *)
From S2P Require Import Prelude Term Glob Index Clause Delegation Fixtures Matchers Query.

Module Authorization.
Import Term Glob Index Clause Delegation Fixtures Matchers Query.

Record authorization := Authorization {
  authority : string;
  subject : string;
  abilities : list string;
  proof_cids : list N
}.

#[export] Instance authorization_eq_dec : EqDecision authorization.
Proof. solve_decision. Defined.

Definition as_string (o : option scalar) : option string :=
  match o with Some (SStr s) => Some s | _ => None end.

Definition as_cid (o : option scalar) : list N :=
  match o with Some (SLink (Cid n)) => [n] | _ => [] end.

(** The ability a group stands for: the requested one, or the delegated
    one when none was requested. *)
Definition group_can (γ : binding) (g : proof_group) : option string :=
  match g_need g with Some need => Some need | None => as_string (resolve γ (g_can g)) end.

Definition group_proofs (γ : binding) (g : proof_group) : list N :=
  as_cid (resolve γ (g_proof g)) ++ as_cid (resolve γ (g_attestation g)).

Definition from_binding (q : query_value) (γ : binding) : option authorization :=
  authority ← as_string (resolve γ (select_audience q));
  subject ← as_string (resolve γ (select_subject q));
  cans ← mapM (group_can γ) (select_proofs q);
  mret (Authorization authority subject (remove_dups cans)
          (remove_dups (mjoin (group_proofs γ <$> select_proofs q)))).

(** [Authorization.find(db, selector)] at time [now]. *)
Definition find (D : db) (sel : query_selector) (now : Z) : result error (list authorization) :=
  let q := (run_fresh (query sel now) 0).1 in
  bs ← run (db_index D) (where_ q);
  Ok (omap (from_binding q) (bs : list binding)).

(** ** Soundness of the records *)

Lemma find_answer D sel now rs r :
  find D sel now = Ok rs → r ∈ rs →
  ∃ bs γ, run (db_index D) (where_ (run_fresh (query sel now) 0).1) = Ok bs ∧ γ ∈ bs ∧
    from_binding (run_fresh (query sel now) 0).1 γ = Some r.
Proof.
  unfold find. intros H Hr. inv_bind H. injection H as <-.
  apply list_elem_of_omap in Hr as (γ & Hγ & Hf). eauto.
Qed.

Lemma from_binding_inv q γ r :
  from_binding q γ = Some r →
  resolve γ (select_audience q) = Some (SStr (authority r)) ∧
  resolve γ (select_subject q) = Some (SStr (subject r)) ∧
  (∀ a, a ∈ abilities r → ∃ g, g ∈ select_proofs q ∧ group_can γ g = Some a) ∧
  (∀ g n, g ∈ select_proofs q → n ∈ group_proofs γ g → n ∈ proof_cids r).
Proof.
  unfold from_binding. intros H.
  destruct (as_string (resolve γ (select_audience q))) as [a|] eqn:Ha; [|done]. simpl in H.
  destruct (as_string (resolve γ (select_subject q))) as [s|] eqn:Hs; [|done]. simpl in H.
  destruct (mapM (group_can γ) (select_proofs q)) as [cans|] eqn:Hc; [|done].
  simpl in H. injection H as <-. simpl.
  unfold as_string in Ha, Hs. repeat case_match; simplify_eq. split_and!; try done.
  - intros a' Ha'. rewrite elem_of_remove_dups in Ha'. apply mapM_Some_1 in Hc.
    apply list_elem_of_lookup in Ha' as [i Hi].
    destruct (Forall2_lookup_r _ _ _ _ _ Hc Hi) as (g & Hg & Hgc).
    exists g. split; [by eapply list_elem_of_lookup_2|done].
  - intros g n Hg Hn. rewrite elem_of_remove_dups. apply list_elem_of_join.
    exists (group_proofs γ g). split; [done|]. by apply list_elem_of_fmap_2.
Qed.

(** C2: Soundness of [find]: every record names an authority and a
    subject that satisfy the selector, and each of its abilities is
    covered by a delegated ability of a cited proof that grants it to
    the authority on the subject at the query time, explicitly or
    through ["ucan:*"]; a cited proof issued by a [did:mailto:]
    principal comes with a cited, unexpired attestation. *)
Theorem find_sound ds sel now rs r :
  cid_unique ds → find (from ds) sel now = Ok rs → r ∈ rs →
  let t := default now (q_time sel) in
  text_sat (q_audience sel) (authority r) ∧
  text_sat (default (GlobPattern "*") (q_subject sel)) (subject r) ∧
  ∀ a, a ∈ abilities r → ∃ d cn,
    cid d ∈ proof_cids r ∧ glob cn a = true ∧
    (grants ds d (authority r) cn (subject r) t ∨ implicitly_grants ds d (authority r) cn (subject r) t) ∧
    (glob "did:mailto:*" (issuer d) = true →
       ∃ att, cid att ∈ proof_cids r ∧ attests ds att d (authority r) t).
Proof.
  intros Hu Hf Hr t. destruct (find_answer _ _ _ _ _ Hf Hr) as (bs & γ & Hrun & Hγ & Hb).
  destruct (query_answers_sound ds sel now bs γ Hu Hrun Hγ) as (a0 & s0 & Ha & Hat & Hs & Hst & Hg).
  destruct (from_binding_inv _ _ _ Hb) as (Ha' & Hs' & Hab & Hcid).
  rewrite Ha in Ha'. rewrite Hs in Hs'. simplify_eq.
  split_and!; try done. intros a Hain. destruct (Hab a Hain) as (g & Hgin & Hgc).
  destruct (Hg g Hgin) as (dl & cn & Hp & Hc & _ & Hgr & Hn & Hm).
  exists dl, cn. split_and!; try done.
  - apply (Hcid g); [done|]. unfold group_proofs. rewrite Hp. simpl. set_solver.
  - unfold group_can in Hgc. destruct (g_need g) as [need|] eqn:Hneed.
    + simplify_eq. by apply Hn.
    + rewrite Hc in Hgc. simpl in Hgc. simplify_eq. by apply glob_complete, glob_rel_refl.
  - intros Hmail. destruct (Hm Hmail) as (att & Hae & Hatt). exists att. split; [|done].
    apply (Hcid g); [done|]. unfold group_proofs. rewrite Hae. simpl. set_solver.
Qed.

(** Every record cites a proof that grants an ability on its subject
    to its authority at the query time. *)
Lemma find_cites_grant ds sel now rs r :
  cid_unique ds → find (from ds) sel now = Ok rs → r ∈ rs →
  ∃ d cn, cid d ∈ proof_cids r ∧
    (grants ds d (authority r) cn (subject r) (default now (q_time sel)) ∨
     implicitly_grants ds d (authority r) cn (subject r) (default now (q_time sel))).
Proof.
  intros Hu Hf Hr. destruct (find_answer _ _ _ _ _ Hf Hr) as (bs & γ & Hrun & Hγ & Hb).
  destruct (query_answers_sound ds sel now bs γ Hu Hrun Hγ) as (a0 & s0 & Ha & _ & Hs & _ & Hg).
  destruct (from_binding_inv _ _ _ Hb) as (Ha' & Hs' & _ & Hcid).
  rewrite Ha in Ha'. rewrite Hs in Hs'. simplify_eq.
  assert (∃ g, g ∈ select_proofs (run_fresh (query sel now) 0).1) as [g Hgin].
  { pose proof (query_groups sel now 0) as Hne.
    destruct (select_proofs _); [done|]. eexists. by left. }
  destruct (Hg g Hgin) as (dl & cn & Hp & _ & _ & Hgr & _).
  exists dl, cn. split; [|done]. apply (Hcid g); [done|].
  unfold group_proofs. rewrite Hp. simpl. set_solver.
Qed.

Lemma grants_unexpired ds d aud cn sub t :
  grants ds d aud cn sub t ∨ implicitly_grants ds d aud cn sub t → d ∈ all_delegations ds ∧ unexpired d t.
Proof. unfold implicitly_grants, grants. naive_solver. Qed.

Lemma all_delegations_leaf d : proofs d = [] → all_delegations [d] = [d].
Proof. intros Hp. unfold all_delegations. simpl. destruct d; simpl in *. by subst. Qed.

Lemma cid_unique_leaf d : proofs d = [] → cid_unique [d].
Proof. intros Hp d1 d2. rewrite all_delegations_leaf by done. set_solver. Qed.

(** ** Completeness for explicit grants *)

(** The query of one requested ability, its variables numbered. *)
Lemma query_single aud A sub tm now :
  (run_fresh (query (QuerySelector aud [A] sub tm) now) 0).1 =
  let g := ProofGroup (Var 2) (Var 3) (Var 4) (Var 5) (if js_truthy A then Some A else None) in
  QueryValue [g] (Var 0) (Var 1)
    [group_clause_at (Var 0) (Var 1) (default now tm) g 6;
     text_match (Var 0) (default (GlobPattern "*") sub); text_match (Var 1) aud].
Proof. reflexivity. Qed.

(** The group and the [where] clause of the query for one ability,
    with no subject constraint. *)
Definition single_group (A : string) : proof_group :=
  ProofGroup (Var 2) (Var 3) (Var 4) (Var 5) (if js_truthy A then Some A else None).

Definition single_where (X A : string) (t : Z) : clause :=
  and_all (group_clause_at (Var 0) (Var 1) t (single_group A) 6)
    [text_match (Var 0) (GlobPattern "*"); text_match (Var 1) (Exactly X)].

(** Below any binding satisfying the query for one ability lies an
    answer of [find]: it satisfies the query, and binds the subject,
    the audience, the group's issuer, ability and proof. *)
Lemma single_answer ds X A t now δ :
  sat (flat_map assert ds) (single_where X A t) δ →
  ∃ rs γ, find (from ds) (QuerySelector (Exactly X) [A] None (Some t)) now = Ok rs ∧
    (∀ r, from_binding (run_fresh (query (QuerySelector (Exactly X) [A] None (Some t)) now) 0).1 γ = Some r →
          r ∈ rs) ∧
    γ ⊆ δ ∧ sat (flat_map assert ds) (single_where X A t) γ ∧
    ∀ x v, δ !! x = Some v → x ∈ [0; 1; 2; 3; 4] → γ !! x = Some v.
Proof.
  intros Hsat.
  assert (∃ B, mode (single_where X A t) [] = Some B ∧ [0; 1; 2; 3; 4] ⊆ B) as (B & Hmode & HB).
  { unfold single_where, single_group. destruct (js_truthy A);
      eexists; (split; [vm_compute; reflexivity|]); set_solver. }
  destruct (eval_mode_ok (build (flat_map assert ds)) _ _ _ ∅ Hmode ltac:(set_solver))
    as (bs & Hev & Hdom).
  destruct (eval_correct _ _ _ _ Hev) as [Hsound Hcomplete].
  destruct (Hcomplete _ (map_empty_subseteq _) Hsat) as (γ & Hγ & _ & Hγδ).
  exists (omap (from_binding (run_fresh (query (QuerySelector (Exactly X) [A] None (Some t)) now) 0).1) bs), γ.
  split_and!.
  - unfold find. rewrite query_single. simpl (default _ _). exact (f_equal _ Hev).
  - intros r Hr. apply list_elem_of_omap. eauto.
  - done.
  - by apply Hsound.
  - intros x v Hx HxB. destruct (proj1 (elem_of_dom γ x) (Hdom γ Hγ x (HB x HxB))) as [v' Hv'].
    rewrite (lookup_weaken _ _ _ _ Hv' Hγδ) in Hx. by simplify_eq.
Qed.

Section complete.
Context (ds : list delegation) (Hu : cid_unique ds).
Context (d : delegation) (i : nat) (c : capability) (t : Z).
Context (Hd : d ∈ all_delegations ds) (Hi : capabilities d !! i = Some c) (Ht : unexpired d t).
Context (Hmail : glob "did:mailto:*" (issuer d) = false).

(** The binding an explicit grant of [c] by [d] satisfies. *)
Definition grant_binding : binding :=
    <[0 := SStr (with_ c)]> (<[1 := SStr (audience d)]> (<[2 := SStr (issuer d)]>
      (<[3 := SStr (can c)]> (<[4 := entity d]> (<[6 := SLink (CapLink (cid d) i)]>
        {[7 := exp_scalar (expiration d)]}))))).

(** The clause of a group whose variables start at [a] and whose
    internal variables start at [j] holds in any binding that maps the
    subject, the audience and the group's issuer, ability and proof to
    those of the grant, and the clause's capability and expiration
    variables to its capability and expiration. *)
Lemma sat_group_grant β a j nd :
    (∀ A, nd = Some A → glob (can c) A = true) →
    β !! 0 = Some (SStr (with_ c)) → β !! 1 = Some (SStr (audience d)) →
    β !! a = Some (SStr (issuer d)) → β !! (a + 1) = Some (SStr (can c)) →
    β !! (a + 2) = Some (entity d) → β !! j = Some (SLink (CapLink (cid d) i)) →
    β !! S j = Some (exp_scalar (expiration d)) →
    sat (flat_map assert ds)
      (group_clause_at (Var 0) (Var 1) t (ProofGroup (Var a) (Var (a + 1)) (Var (a + 2)) (Var (a + 3)) nd) j) β.
  Proof.
    intros HA H0 H1 Ha Hc Hp Hj HSj.
    assert (sat (flat_map assert ds) (match_clause (Var (a + 2)) (Var 1) (Var a) (Var 0) (Var (a + 1))
              (Const (SInt t)) j) β) as Hm.
    { left. apply sat_explicit_clause; [done|]. exists d, i, c.
      split_and!; try done. exists (SInt t). split; [done|]. by apply scalar_ge_unexpired. }
    unfold group_clause_at. cbn [sat g_need g_issuer g_can g_proof g_attestation]. split.
    - destruct nd as [A|]; [|done]. split; [done|].
      exists (SStr A), (SStr (can c)). split_and!; [done|done|by apply HA].
    - left. intros (δ & Hsub & tx & px & H2 & Hp' & Hg).
      simpl in H2, Hp'. rewrite (lookup_weaken _ _ _ _ Ha Hsub) in H2. simplify_eq.
      unfold text_glob in Hg. by rewrite Hmail in Hg.
  Qed.

Lemma sat_grant_binding A :
    (js_truthy A = true → glob (can c) A = true) →
    sat (flat_map assert ds) (single_where (audience d) A t) grant_binding.
  Proof.
    intros HA. unfold single_where, single_group.
    apply sat_and_all. intros c' Hc'.
    repeat (apply elem_of_cons in Hc' as [->|Hc']); [| | |by apply not_elem_of_nil in Hc'].
    - apply (sat_group_grant _ 2 6); try by vm_compute.
      intros A' HA'. destruct (js_truthy A); simplify_eq. by apply HA.
    - apply sat_text_match. exists (with_ c). split; [by vm_compute|apply glob_star_all].
    - apply sat_text_match. exists (audience d). split; [by vm_compute|done].
  Qed.
End complete.

(** The query with no requested ability is the query for the falsy
    ability [""]. *)
Lemma query_no_ability aud sub tm now :
  (run_fresh (query (QuerySelector aud [] sub tm) now) 0).1 =
  (run_fresh (query (QuerySelector aud [""%string] sub tm) now) 0).1.
Proof. reflexivity. Qed.

Lemma find_no_ability D aud sub tm now :
  find D (QuerySelector aud [] sub tm) now = find D (QuerySelector aud [""%string] sub tm) now.
Proof. unfold find. by rewrite query_no_ability. Qed.

(** Completeness for explicit grants, for one requested ability [A]
    (read as no ability when it is [""]): an unexpired delegation to
    [X] of a capability on [S], whose ability pattern covers [A], and
    not issued by a [did:mailto:] principal, is found by the query for
    [A] at [t]: a record with authority [X] and subject [S] cites it,
    its ability [A], or the delegated one when [A] is [""]. *)
Lemma find_explicit_grant ds d cp X S A t now :
  cid_unique ds → d ∈ all_delegations ds → audience d = X → unexpired d t →
  cp ∈ capabilities d → with_ cp = S → (A ≠ "" → glob (can cp) A = true) →
  glob "did:mailto:*" (issuer d) = false →
  ∃ rs, find (from ds) (QuerySelector (Exactly X) [A] None (Some t)) now = Ok rs ∧
    ∃ r, r ∈ rs ∧ authority r = X ∧ subject r = S ∧
      abilities r = [if js_truthy A then A else can cp] ∧ cid d ∈ proof_cids r.
Proof.
  intros Hu Hd <- Ht Hc <- HA Hmail. apply list_elem_of_lookup in Hc as [i Hi].
  destruct (single_answer ds (audience d) A t now (grant_binding d i cp))
    as (rs & γ & Hf & Hr & _ & _ & Hγ).
  { apply sat_grant_binding; [done..|]. intros HAt. apply HA. intros ->. discriminate. }
  pose proof (Hγ 0 (SStr (with_ cp)) ltac:(by vm_compute) ltac:(set_solver)) as G0.
  pose proof (Hγ 1 (SStr (audience d)) ltac:(by vm_compute) ltac:(set_solver)) as G1.
  pose proof (Hγ 3 (SStr (can cp)) ltac:(by vm_compute) ltac:(set_solver)) as G3.
  pose proof (Hγ 4 (entity d) ltac:(by vm_compute) ltac:(set_solver)) as G4.
  exists rs. split; [done|]. destruct (js_truthy A) eqn:HAt;
    (eexists; split; [apply Hr; rewrite query_single;
       unfold from_binding; cbn [select_audience select_subject select_proofs resolve mapM];
       rewrite G0, G1; unfold group_can; simpl; rewrite HAt; simpl; rewrite ?G3; done|]);
    simpl; split_and!; try done; apply elem_of_remove_dups; unfold group_proofs; simpl;
    rewrite G4; simpl; set_solver.
Qed.

(** ** Completeness for attested logins *)

(** The subject a ["ucan:*"] delegation [d] reaches by its capability
    [cp]: its issuer, or the resource of a proof [p] that delegates the
    same ability to that issuer, unexpired at [t]. *)
Definition reaches (d : delegation) (cp : capability) (p : delegation) (cq : capability) (S : string) (t : Z) : Prop :=
  issuer d = S ∨
  (p ∈ proofs d ∧ cq ∈ capabilities p ∧ audience p = issuer d ∧ can cq = can cp ∧ with_ cq = S ∧ unexpired p t).

(** The same, with the position [k] of [cq] among the capabilities of [p]. *)
Definition reaches_at (d : delegation) (cp : capability) (p : delegation) (k : nat) (cq : capability)
    (S : string) (t : Z) : Prop :=
  issuer d = S ∨
  (p ∈ proofs d ∧ capabilities p !! k = Some cq ∧ audience p = issuer d ∧ can cq = can cp ∧
   with_ cq = S ∧ unexpired p t).

Lemma reaches_at_index d cp p cq S t : reaches d cp p cq S t → ∃ k, reaches_at d cp p k cq S t.
Proof.
  intros [HS|(Hp & Hq & Hrest)]; [exists 0; by left|].
  apply list_elem_of_lookup in Hq as [k Hk]. exists k. right. auto.
Qed.

Section login.
Context (ds : list delegation) (Hu : cid_unique ds).
Context (d : delegation) (i : nat) (cp : capability) (a : delegation) (j : nat) (ca : capability) (t : Z).
Context (p : delegation) (k : nat) (cq : capability) (S : string).
Context (Hd : d ∈ all_delegations ds) (Hi : capabilities d !! i = Some cp) (Hw : with_ cp = "ucan:*").
Context (Ht : unexpired d t) (Hreach : reaches_at d cp p k cq S t).
Context (Ha : a ∈ all_delegations ds) (Hj : capabilities a !! j = Some ca) (Hca : can ca = "ucan/attest").
Context (Hpf : ("proof", entity d) ∈ nb ca) (Hat : unexpired a t) (Haud : audience a = audience d).

(** The binding of a ["ucan:*"] login [d] reaching the subject [S]
    (through its proof [p], when [d] is not issued by [S]), and of its
    attestation [a]. *)
Definition login_binding : binding :=
    <[0 := SStr S]> (<[1 := SStr (audience d)]> (<[2 := SStr (issuer d)]>
      (<[3 := SStr (can cp)]> (<[4 := entity d]> (<[5 := entity a]>
        (<[8 := entity p]> (<[9 := SLink (CapLink (cid d) i)]> (<[10 := exp_scalar (expiration d)]>
          (<[11 := SStr (issuer p)]> (<[12 := SLink (CapLink (cid p) k)]>
            (<[13 := exp_scalar (expiration p)]> (<[14 := SLink (CapLink (cid a) j)]>
              (<[15 := SStr (issuer a)]> {[16 := exp_scalar (expiration a)]}))))))))))))).

Lemma sat_login_reaches :
    sat (flat_map assert ds)
      (Or (issued_by (Var 4) (Var 0))
          (And (has_proof (Var 4) (Var 8))
               (explicit_clause (Var 12) (Var 13) (Var 8) (Var 2) (Var 11) (Var 0) (Var 3) (Const (SInt t)))))
      login_binding.
  Proof.
    destruct Hreach as [HS|(Hp & Hk & Hpa & Hcan & Hwith & Htp)].
    - left. exists (entity d), (SStr (issuer d)). split_and!; [apply fact_issuer; eauto|by vm_compute|].
      rewrite HS. by vm_compute.
    - right. split.
      + exists (entity d), (entity p). split; [|by vm_compute]. apply fact_proof. eauto 10.
      + apply sat_explicit_clause; [done|]. exists p, k, cq.
        split_and!; try done; try (by vm_compute).
        * exact (proof_in_all ds d p Hd Hp).
        * simpl. by rewrite Hcan.
        * simpl. by rewrite Hwith.
        * simpl. by rewrite Hpa.
        * exists (SInt t). split; [done|]. by apply scalar_ge_unexpired.
  Qed.

Lemma sat_login_binding A :
    glob (can cp) A = true → sat (flat_map assert ds) (single_where (audience d) A t) login_binding.
  Proof.
    intros HA. unfold single_where, single_group. apply sat_and_all. intros c' Hc'.
    repeat (apply elem_of_cons in Hc' as [->|Hc']); [| | |by apply not_elem_of_nil in Hc'].
    - assert (sat (flat_map assert ds) (match_clause (Var 4) (Var 1) (Var 2) (Var 0) (Var 3)
                (Const (SInt t)) 6) login_binding) as Hm.
      { right. split; [|exact sat_login_reaches].
        apply (sat_explicit_clause ds Hu (Var 9) (Var 10) (Var 4) (Var 1) (Var 2) (str "ucan:*")).
        exists d, i, cp. split_and!; try done; try (by vm_compute).
        + simpl. by rewrite Hw.
        + exists (SInt t). split; [done|]. by apply scalar_ge_unexpired. }
      unfold group_clause_at. cbn [sat]. split.
      + destruct (js_truthy A); [|done]. split; [done|].
        exists (SStr A), (SStr (can cp)). split_and!; [done|by vm_compute|done].
      + right. apply sat_attestation_clause; [done|]. exists a, j, ca, (entity d).
        split_and!; try done; try (by vm_compute).
        * simpl. by rewrite Haud.
        * exists (SInt t). split; [done|]. by apply scalar_ge_unexpired.
    - apply sat_text_match. exists S. split; [by vm_compute|apply glob_star_all].
    - apply sat_text_match. exists (audience d). split; [by vm_compute|done].
  Qed.
End login.

(** An answer whose group issuer is a [did:mailto:] principal binds the
    group's attestation. *)
Lemma single_where_attested F X A t γ s :
  sat F (single_where X A t) γ → γ !! 2 = Some (SStr s) → glob "did:mailto:*" s = true →
  ∃ v, γ !! 5 = Some v.
Proof.
  intros Hsat H2 Hs. unfold single_where in Hsat.
  pose proof (proj1 (sat_and_all _ _ _ _) Hsat _ ltac:(left)) as Hg. clear Hsat.
  unfold group_clause_at in Hg. destruct Hg as [_ [Hnot|Hatt]].
  - exfalso. apply Hnot. exists γ. split; [done|]. exists (SStr s), (SStr "did:mailto:*").
    split_and!; [simpl; by rewrite H2|done|done].
  - destruct Hatt as [_ [[[[(e' & v' & _ & H5 & _) _] _] _] _]]. simpl in H5.
    destruct (γ !! 5); [eauto|done].
Qed.

(** Completeness for attested logins: a ["ucan:*"] delegation to [X]
    issued by a [did:mailto:] principal, unexpired at [t], reaching the
    subject [S] with an ability whose pattern covers [A], together with
    an unexpired attestation of it to [X], is found by the query for
    [A] at [t]: a record with authority [X], subject [S] and ability
    [A] cites both. *)
Lemma find_login_grant ds d cp p cq a ca X S A t now :
  cid_unique ds → d ∈ all_delegations ds → audience d = X → unexpired d t →
  cp ∈ capabilities d → with_ cp = "ucan:*" → glob (can cp) A = true → A ≠ "" →
  reaches d cp p cq S t → glob "did:mailto:*" (issuer d) = true →
  a ∈ all_delegations ds → audience a = X → unexpired a t →
  ca ∈ capabilities a → can ca = "ucan/attest" → ("proof", entity d) ∈ nb ca →
  ∃ rs, find (from ds) (QuerySelector (Exactly X) [A] None (Some t)) now = Ok rs ∧
    ∃ r, r ∈ rs ∧ authority r = X ∧ subject r = S ∧ abilities r = [A] ∧
      cid d ∈ proof_cids r ∧ cid a ∈ proof_cids r.
Proof.
  intros Hu Hd <- Ht Hc Hw HA HA0 Hreach Hmail Ha Haud Hat Hca Hcan Hpf.
  apply list_elem_of_lookup in Hc as [i Hi]. apply list_elem_of_lookup in Hca as [j Hj].
  apply reaches_at_index in Hreach as [k Hreach].
  assert (js_truthy A = true) as HAt by (unfold js_truthy; by rewrite bool_decide_eq_false_2).
  destruct (single_answer ds (audience d) A t now (login_binding d i cp a j p k S))
    as (rs & γ & Hf & Hr & Hγδ & Hsat & Hγ); [by eapply sat_login_binding|].
  pose proof (Hγ 0 (SStr S) ltac:(by vm_compute) ltac:(set_solver)) as G0.
  pose proof (Hγ 1 (SStr (audience d)) ltac:(by vm_compute) ltac:(set_solver)) as G1.
  pose proof (Hγ 2 (SStr (issuer d)) ltac:(by vm_compute) ltac:(set_solver)) as G2.
  pose proof (Hγ 4 (entity d) ltac:(by vm_compute) ltac:(set_solver)) as G4.
  destruct (single_where_attested _ _ _ _ _ _ Hsat G2 Hmail) as [v G5].
  assert (login_binding d i cp a j p k S !! 5 = Some (entity a)) as E5 by (by vm_compute).
  rewrite (lookup_weaken _ _ _ _ G5 Hγδ) in E5. simplify_eq.
  exists rs. split; [done|]. eexists. split; [apply Hr; rewrite query_single|].
  - unfold from_binding. cbn [select_audience select_subject select_proofs resolve mapM].
    rewrite G0, G1. unfold group_can. simpl. by rewrite HAt.
  - simpl. split_and!; try done; apply elem_of_remove_dups; unfold group_proofs; simpl;
      rewrite G4, G5; simpl; set_solver.
Qed.

(** C3: Completeness for explicit grants: a delegation to [X] of a
    capability on [S] whose ability pattern covers a requested ability
    [A] (e.g. [store/*] covers [store/add]), unexpired at [t] and not
    issued by a [did:mailto:] principal, is found by the query for [A]
    at [t]: a record with authority [X], subject [S] and ability [A]
    cites it. *)
Theorem find_complete_explicit ds d cp X S A t now :
  cid_unique ds → d ∈ all_delegations ds → audience d = X → unexpired d t →
  cp ∈ capabilities d → with_ cp = S → glob (can cp) A = true → A ≠ "" →
  glob "did:mailto:*" (issuer d) = false →
  ∃ rs, find (from ds) (QuerySelector (Exactly X) [A] None (Some t)) now = Ok rs ∧
    ∃ r, r ∈ rs ∧ authority r = X ∧ subject r = S ∧ abilities r = [A] ∧ cid d ∈ proof_cids r.
Proof.
  intros Hu Hd HX Ht Hc HS HA HA0 Hmail.
  assert (js_truthy A = true) as HAt by (unfold js_truthy; by rewrite bool_decide_eq_false_2).
  destruct (find_explicit_grant ds d cp X S A t now Hu Hd HX Ht Hc HS (λ _, HA) Hmail)
    as (rs & Hf & r & Hr & Hrest). rewrite HAt in Hrest. eauto.
Qed.

(** C5: Completeness of the query for any ability ([can: {}]): every
    capability of an unexpired delegation to [X], not issued by a
    [did:mailto:] principal, is found: a record with authority [X],
    subject the capability's resource and ability the delegated one
    cites the delegation. *)
Theorem find_complete_any ds d cp X t now :
  cid_unique ds → d ∈ all_delegations ds → audience d = X → unexpired d t →
  cp ∈ capabilities d → glob "did:mailto:*" (issuer d) = false →
  ∃ rs, find (from ds) (QuerySelector (Exactly X) [] None (Some t)) now = Ok rs ∧
    ∃ r, r ∈ rs ∧ authority r = X ∧ subject r = with_ cp ∧ abilities r = [can cp] ∧
      cid d ∈ proof_cids r.
Proof.
  intros Hu Hd HX Ht Hc Hmail. rewrite find_no_ability.
  exact (find_explicit_grant ds d cp X (with_ cp) "" t now Hu Hd HX Ht Hc eq_refl
           (λ H, False_rect _ (H eq_refl)) Hmail).
Qed.

(** C4: Completeness for attested logins (the implicit path): a
    ["ucan:*"] delegation to [X] issued by a [did:mailto:] account,
    unexpired at [t], whose ability pattern covers the requested [A],
    and which reaches the subject [S] (it is issued by [S], or one of
    its proofs, unexpired, delegates the same ability on [S] to its
    issuer), together with an unexpired attestation of it to [X], is
    found by the query for [A] at [t]: a record with authority [X],
    subject [S] and ability [A] cites the login and its attestation. *)
Theorem find_complete_login ds d cp p cq a ca X S A t now :
  cid_unique ds → d ∈ all_delegations ds → audience d = X → unexpired d t →
  cp ∈ capabilities d → with_ cp = "ucan:*" → glob (can cp) A = true → A ≠ "" →
  reaches d cp p cq S t → glob "did:mailto:*" (issuer d) = true →
  a ∈ all_delegations ds → audience a = X → unexpired a t →
  ca ∈ capabilities a → can ca = "ucan/attest" → ("proof", entity d) ∈ nb ca →
  ∃ rs, find (from ds) (QuerySelector (Exactly X) [A] None (Some t)) now = Ok rs ∧
    ∃ r, r ∈ rs ∧ authority r = X ∧ subject r = S ∧ abilities r = [A] ∧
      cid d ∈ proof_cids r ∧ cid a ∈ proof_cids r.
Proof. exact (find_login_grant ds d cp p cq a ca X S A t now). Qed.

(** C7: Expiration boundary: a direct grant, alone in the store and not
    issued by a [did:mailto:] principal, is found by the query for its
    ability at [t] exactly when it is unexpired at [t]: [t ≤ e] for an
    expiration [e], and always when it has none. *)
Theorem find_expiration_boundary d cp t now :
  proofs d = [] → cp ∈ capabilities d → glob "did:mailto:*" (issuer d) = false →
  (∃ rs r, find (from [d]) (QuerySelector (Exactly (audience d)) [can cp] None (Some t)) now = Ok rs
           ∧ r ∈ rs) ↔ unexpired d t.
Proof.
  intros Hp Hc Hmail. split.
  - intros (rs & r & Hf & Hr).
    destruct (find_cites_grant _ _ _ _ _ (cid_unique_leaf d Hp) Hf Hr) as (dl & cn & _ & Hg).
    apply grants_unexpired in Hg as [Hdl Ht]. rewrite all_delegations_leaf in Hdl by done.
    by apply list_elem_of_singleton in Hdl as ->.
  - intros Ht.
    destruct (find_explicit_grant [d] d cp (audience d) (with_ cp) (can cp) t now) as (rs & Hf & r & Hr & _);
      try done.
    + by apply cid_unique_leaf.
    + rewrite all_delegations_leaf by done. set_solver.
    + intros _. apply glob_complete, glob_rel_refl.
    + eauto.
Qed.

(** ** No error *)

(** C12: [Authorization.find] never fails: for every database,
    selector and time, the query that query.js builds evaluates without
    an unbound-variable error, so a selector that matches nothing gives
    an empty list, never an error. *)
Theorem find_total D sel now : ∃ rs, find D sel now = Ok rs.
Proof. unfold find. destruct (query_run_ok (db_index D) sel now) as [bs ->]. eauto. Qed.

(** ** Idempotence of projection *)

Lemma assert_same_elems ds1 ds2 : ds1 ≡ₛ ds2 → flat_map assert ds1 ≡ₛ flat_map assert ds2.
Proof. intros [H1 H2]. split; intros f; rewrite !elem_of_flat_map; naive_solver. Qed.

(** [find] depends on the delegations of the database only as a set. *)
Lemma find_same_elems ds1 ds2 sel now :
  ds1 ≡ₛ ds2 → result_sim (find (from ds1) sel now) (find (from ds2) sel now).
Proof.
  intros Hds. unfold find. apply result_sim_bind; [apply _|].
  apply run_sim. intros a e v. by apply lookup_build_same_elems, assert_same_elems.
Qed.

(** C13: Idempotence of projection: transacting again delegations the
    database already holds (in particular all of them) leaves [find]
    failing exactly when it failed before, and otherwise returning the
    same records up to order and repetition. *)
Theorem find_transact_idempotent ds ds' sel now :
  ds' ⊆ ds → result_sim (find (transact (from ds) ds') sel now) (find (from ds) sel now).
Proof.
  intros Hsub. rewrite transact_from. apply find_same_elems. split; set_solver.
Qed.

(** ** Monotonicity *)

(** C15: Monotonicity of authorization: transacting more delegations
    into a database never withdraws a record [find] returned; every
    record found before is found after. *)
Theorem find_transact_monotone ds ds' sel now rs :
  find (from ds) sel now = Ok rs →
  ∃ rs', find (transact (from ds) ds') sel now = Ok rs' ∧ rs ⊆ rs'.
Proof.
  rewrite transact_from. unfold find. intros H. inv_bind H. injection H as <-.
  destruct (query_run_ok (db_index (from (ds ++ ds'))) sel now) as [bs' Hbs'].
  rewrite Hbs'. eexists. split; [done|]. apply omap_subseteq.
  eapply run_mono; [|apply query_neg_safe|done|done].
  intros attr e v. cbn [from db_index]. rewrite flat_map_app. apply lookup_build_app.
Qed.

(** ** Witnesses *)

Definition example_records : list authorization :=
  match find (from example_store) example_selector 1000 with Ok rs => rs | Err _ => [] end.
Definition example_record : authorization := default (Authorization "" "" [] []) (head example_records).

Lemma find_sound_witness :
  cid_unique example_store ∧ find (from example_store) example_selector 1000 = Ok example_records ∧
  example_record ∈ example_records ∧
  let t := default 1000%Z (q_time example_selector) in
  text_sat (q_audience example_selector) (authority example_record) ∧
  text_sat (default (GlobPattern "*") (q_subject example_selector)) (subject example_record) ∧
  ∀ a, a ∈ abilities example_record → ∃ d cn,
    cid d ∈ proof_cids example_record ∧ glob cn a = true ∧
    (grants example_store d (authority example_record) cn (subject example_record) t ∨
     implicitly_grants example_store d (authority example_record) cn (subject example_record) t) ∧
    (glob "did:mailto:*" (issuer d) = true →
       ∃ att, cid att ∈ proof_cids example_record ∧ attests example_store att d (authority example_record) t).
Proof.
  assert (cid_unique example_store) as Hu by (apply cid_unique_check; vm_compute; reflexivity).
  assert (find (from example_store) example_selector 1000 = Ok example_records) as Hf by (vm_compute; reflexivity).
  assert (example_record ∈ example_records) as Hin by (vm_compute; left).
  split_and!; [done..|]. exact (find_sound example_store example_selector 1000 _ _ Hu Hf Hin).
Defined.

(** The grant of [example_store] and its capability. *)
Definition example_grant : delegation := share 1 "did:key:z6MkSpace" alice ["store/add"] None.
Definition example_capability : capability := Capability "store/add" "did:key:z6MkSpace" [].

(** A grant of the ability pattern [store/*]. *)
Definition example_star_grant : delegation := share 1 "did:key:z6MkSpace" alice ["store/*"] None.
Definition example_star_capability : capability := Capability "store/*" "did:key:z6MkSpace" [].

Lemma find_complete_explicit_witness :
  cid_unique [example_star_grant] ∧ example_star_grant ∈ all_delegations [example_star_grant] ∧
  unexpired example_star_grant 1000 ∧ example_star_capability ∈ capabilities example_star_grant ∧
  glob (can example_star_capability) "store/add" = true ∧
  glob "did:mailto:*" (issuer example_star_grant) = false ∧
  ∃ rs, find (from [example_star_grant]) (QuerySelector (Exactly alice) ["store/add"] None (Some 1000%Z)) 1000
          = Ok rs ∧
    ∃ r, r ∈ rs ∧ authority r = alice ∧ subject r = "did:key:z6MkSpace" ∧ abilities r = ["store/add"] ∧
      cid example_star_grant ∈ proof_cids r.
Proof.
  assert (cid_unique [example_star_grant]) as Hu by (apply cid_unique_check; vm_compute; reflexivity).
  assert (example_star_grant ∈ all_delegations [example_star_grant]) as Hd by (vm_compute; left).
  assert (unexpired example_star_grant 1000) as Ht by (vm_compute; exact I).
  assert (example_star_capability ∈ capabilities example_star_grant) as Hc by (vm_compute; left).
  assert (glob (can example_star_capability) "store/add" = true) as Hg by (vm_compute; reflexivity).
  assert (glob "did:mailto:*" (issuer example_star_grant) = false) as Hm by (vm_compute; reflexivity).
  split_and!; try done.
  exact (find_complete_explicit [example_star_grant] example_star_grant example_star_capability alice
           "did:key:z6MkSpace" "store/add" 1000 1000 Hu Hd eq_refl Ht Hc eq_refl Hg ltac:(discriminate) Hm).
Defined.

Lemma find_complete_any_witness :
  cid_unique [example_star_grant] ∧ example_star_grant ∈ all_delegations [example_star_grant] ∧
  unexpired example_star_grant 1000 ∧ example_star_capability ∈ capabilities example_star_grant ∧
  glob "did:mailto:*" (issuer example_star_grant) = false ∧
  ∃ rs, find (from [example_star_grant]) (QuerySelector (Exactly alice) [] None (Some 1000%Z)) 1000 = Ok rs ∧
    ∃ r, r ∈ rs ∧ authority r = alice ∧ subject r = "did:key:z6MkSpace" ∧ abilities r = ["store/*"] ∧
      cid example_star_grant ∈ proof_cids r.
Proof.
  assert (cid_unique [example_star_grant]) as Hu by (apply cid_unique_check; vm_compute; reflexivity).
  assert (example_star_grant ∈ all_delegations [example_star_grant]) as Hd by (vm_compute; left).
  assert (unexpired example_star_grant 1000) as Ht by (vm_compute; exact I).
  assert (example_star_capability ∈ capabilities example_star_grant) as Hc by (vm_compute; left).
  assert (glob "did:mailto:*" (issuer example_star_grant) = false) as Hm by (vm_compute; reflexivity).
  split_and!; try done.
  exact (find_complete_any [example_star_grant] example_star_grant example_star_capability alice
           1000 1000 Hu Hd eq_refl Ht Hc Hm).
Defined.

(** A grant expiring at [999]. *)
Definition example_expiring : delegation := share 1 "did:key:z6MkSpace" alice ["store/add"] (Some 999%Z).

Lemma find_expiration_boundary_witness :
  proofs example_expiring = [] ∧ example_capability ∈ capabilities example_expiring ∧
  glob "did:mailto:*" (issuer example_expiring) = false ∧
  ((∃ rs r, find (from [example_expiring])
              (QuerySelector (Exactly (audience example_expiring)) [can example_capability] None (Some 1000%Z)) 1000
            = Ok rs ∧ r ∈ rs) ↔ unexpired example_expiring 1000).
Proof.
  assert (example_capability ∈ capabilities example_expiring) as Hc by (vm_compute; left).
  split_and!; [reflexivity|done|vm_compute; reflexivity|].
  exact (find_expiration_boundary example_expiring example_capability 1000 1000 eq_refl Hc eq_refl).
Defined.

Lemma find_transact_idempotent_witness :
  example_store ⊆ example_store ∧
  result_sim (find (transact (from example_store) example_store) example_selector 1000)
             (find (from example_store) example_selector 1000).
Proof.
  split; [done|]. exact (find_transact_idempotent example_store example_store example_selector 1000 (reflexivity _)).
Defined.

Lemma find_transact_monotone_witness :
  find (from example_store) example_selector 1000 = Ok example_records ∧ example_records ≠ [] ∧
  ∃ rs', find (transact (from example_store) [example_expiring]) example_selector 1000 = Ok rs' ∧
    example_records ⊆ rs'.
Proof.
  assert (find (from example_store) example_selector 1000 = Ok example_records) as Hf by (vm_compute; reflexivity).
  split_and!; [done|vm_compute; discriminate|].
  exact (find_transact_monotone example_store [example_expiring] example_selector 1000 _ Hf).
Defined.

(** An account's login to Alice and its attestation. *)
Definition example_account : account_setup := setup_account 10 "alice" "web.mail" "did:key:z6MkSpace" alice.
Definition example_login_capability : capability := Capability "*" "ucan:*" [].
Definition example_attest_capability : capability :=
  Capability "ucan/attest" w3up [("proof", SLink (Cid 11))].

Definition example_recovery_capability : capability := Capability "*" "did:key:z6MkSpace" [].

Lemma find_complete_login_witness :
  cid_unique (setup_proofs example_account) ∧
  acc_login example_account ∈ all_delegations (setup_proofs example_account) ∧
  reaches (acc_login example_account) example_login_capability (acc_recovery example_account)
    example_recovery_capability "did:key:z6MkSpace" 1000 ∧
  ∃ rs, find (from (setup_proofs example_account))
          (QuerySelector (Exactly alice) ["store/add"] None (Some 1000%Z)) 1000 = Ok rs ∧
    ∃ r, r ∈ rs ∧ authority r = alice ∧ subject r = "did:key:z6MkSpace" ∧
      abilities r = ["store/add"] ∧ cid (acc_login example_account) ∈ proof_cids r ∧
      cid (acc_attestation example_account) ∈ proof_cids r.
Proof.
  assert (cid_unique (setup_proofs example_account)) as Hu by (apply cid_unique_check; vm_compute; reflexivity).
  assert (acc_login example_account ∈ all_delegations (setup_proofs example_account)) as Hd by (vm_compute; left).
  assert (reaches (acc_login example_account) example_login_capability (acc_recovery example_account)
            example_recovery_capability "did:key:z6MkSpace" 1000) as Hr
    by (right; vm_compute; split_and!; solve [reflexivity|exact I|repeat constructor]).
  split_and!; [done|done|done|].
  apply (find_complete_login (setup_proofs example_account) (acc_login example_account)
           example_login_capability (acc_recovery example_account) example_recovery_capability
           (acc_attestation example_account) example_attest_capability
           alice "did:key:z6MkSpace" "store/add" 1000 1000 Hu Hd);
    try exact Hr; vm_compute; solve [reflexivity|exact I|repeat constructor|discriminate].
Defined.

End Authorization.
