(* ===== verification/Grouping.v ===== *)
(** * The grouping law (spec 8)

    Spec section 8: two unexpired proofs granting different abilities
    on the same audience and subject are reported in one
    authorization record listing both abilities.  For the query of
    query.js this holds for any number of requested abilities: when
    each is explicitly granted to the audience on the subject, [find]
    returns a record whose authority and subject are those and which
    lists every requested ability and cites every grant
    ([find_grouped]).  The proof builds the binding the grants satisfy
    (one group of variables per ability, laid out as [query_layout]
    says), and takes the answer of the evaluator below it. *)
From S2P Require Import Prelude Term Glob Index Clause Delegation Fixtures Matchers Query Authorization.

Module Grouping.
Import Term Glob Index Clause Delegation Fixtures Matchers Query Authorization.

(** A grant of a requested ability: the ability, the delegation, the
    position of the capability among its capabilities, and the
    capability. *)
Abbreviation grant := (string * delegation * nat * capability)%type.

Definition grant_can (g : grant) : string := g.1.1.1.

(** The variables of the groups from [k] on, for [N] group variables:
    group [k] binds its issuer, ability and proof at [2 + 4 k], and
    the capability and expiration of its explicit match at [N + 11 k]. *)
Fixpoint grants_map (N k : nat) (gs : list grant) : binding :=
  match gs with
  | [] => ∅
  | (_, d, i, c) :: gs' =>
      <[2 + 4 * k := SStr (issuer d)]> (<[2 + 4 * k + 1 := SStr (can c)]> (<[2 + 4 * k + 2 := entity d]>
        (<[N + 11 * k := SLink (CapLink (cid d) i)]> (<[S (N + 11 * k) := exp_scalar (expiration d)]>
          (grants_map N (S k) gs')))))
  end.

(** The binding of the subject [sub], the audience [X] and the groups. *)
Definition grouped_binding (X sub : string) (gs : list grant) : binding :=
  <[0 := SStr sub]> (<[1 := SStr X]> (grants_map (2 + 4 * length gs) 0 gs)).

Lemma lookup_insert_at (m : binding) i j x : i = j → <[i:=x]> m !! j = Some x.
Proof. intros ->. apply lookup_insert_eq. Qed.

(** Lookups in a chain of inserts at keys told apart by [lia]. *)
Ltac lookup_insert_solve :=
  repeat first [rewrite lookup_insert_at by lia; done | rewrite lookup_insert_ne by lia].

Lemma grants_map_lookup N k0 gs k A d i c :
  gs !! k = Some (A, d, i, c) → 2 + 4 * (k0 + length gs) ≤ N →
  let m := grants_map N k0 gs in let a := 2 + 4 * (k0 + k) in let j := N + 11 * (k0 + k) in
  m !! a = Some (SStr (issuer d)) ∧ m !! (a + 1) = Some (SStr (can c)) ∧ m !! (a + 2) = Some (entity d) ∧
  m !! j = Some (SLink (CapLink (cid d) i)) ∧ m !! S j = Some (exp_scalar (expiration d)).
Proof.
  revert k0 k. induction gs as [|[[[A' d'] i'] c'] gs IH]; intros k0 k Hk HN; [done|].
  destruct k as [|k]; simpl in Hk; cbn [length] in HN; cbn [grants_map].
  - simplify_eq. split_and!; lookup_insert_solve.
  - pose proof (lookup_lt_Some _ _ _ Hk). destruct (IH (S k0) k Hk ltac:(lia)) as (H1 & H2 & H3 & H4 & H5).
    replace (k0 + S k) with (S k0 + k) by lia. split_and!; lookup_insert_solve; done.
Qed.


Lemma grouped_binding_base X sub gs :
  grouped_binding X sub gs !! 0 = Some (SStr sub) ∧ grouped_binding X sub gs !! 1 = Some (SStr X).
Proof. unfold grouped_binding. split; lookup_insert_solve. Qed.

Lemma grouped_binding_lookup X sub gs k A d i c :
  gs !! k = Some (A, d, i, c) →
  let β := grouped_binding X sub gs in let N := 2 + 4 * length gs in
  β !! (2 + 4 * k) = Some (SStr (issuer d)) ∧ β !! (2 + 4 * k + 1) = Some (SStr (can c)) ∧
  β !! (2 + 4 * k + 2) = Some (entity d) ∧ β !! (N + 11 * k) = Some (SLink (CapLink (cid d) i)) ∧
  β !! S (N + 11 * k) = Some (exp_scalar (expiration d)).
Proof.
  intros Hk. pose proof (lookup_lt_Some _ _ _ Hk).
  destruct (grants_map_lookup (2 + 4 * length gs) 0 gs k A d i c Hk ltac:(lia)) as (H1 & H2 & H3 & H4 & H5).
  unfold grouped_binding. split_and!; lookup_insert_solve; done.
Qed.

(** The groups of the query read the requested abilities, all truthy. *)
Lemma mapM_group_can γ As gsq :
  Forall2 (λ A g, g_need g = if js_truthy A then Some A else None) As gsq → Forall (λ A, A ≠ "") As →
  mapM (group_can γ) gsq = Some As.
Proof.
  induction 1 as [|A g As gsq Hg _ IH]; intros Hne; [done|]. apply Forall_cons in Hne as [HA Hne].
  unfold js_truthy in Hg. rewrite bool_decide_false in Hg by done.
  change (mapM (group_can γ) (g :: gsq)) with (y ← group_can γ g; k ← mapM (group_can γ) gsq; mret (y :: k)).
  rewrite (IH Hne). unfold group_can. by rewrite Hg.
Qed.

(** What a grant of a requested ability must be: a delegation of the
    set to the audience [X], a capability on the subject [sub] whose
    ability pattern covers the ability, unexpired at [t], not issued
    by a [did:mailto:] principal. *)
Definition grant_ok (ds : list delegation) (X sub : string) (t : Z) (g : grant) : Prop :=
  let '(A, d, i, c) := g in
  d ∈ all_delegations ds ∧ capabilities d !! i = Some c ∧ audience d = X ∧ with_ c = sub ∧
  unexpired d t ∧ A ≠ "" ∧ glob (can c) A = true ∧ glob "did:mailto:*" (issuer d) = false.

Section grouped.
Context (ds : list delegation) (Hu : cid_unique ds) (X sub : string) (t now : Z) (gs : list grant).
Context (Hne : gs ≠ []) (Hgs : Forall (grant_ok ds X sub t) gs).

Local Abbreviation sel := (QuerySelector (Exactly X) (grant_can <$> gs) None (Some t)).
Local Abbreviation q := (run_fresh (query sel now) 0).1.

Lemma grouped_needs :
  Forall2 (λ A g, g_need g = if js_truthy A then Some A else None) (grant_can <$> gs) (select_proofs q).
Proof. pose proof (query_needs sel now) as H. cbn [q_can] in H. apply H. by destruct gs. Qed.

Lemma grouped_length : length (select_proofs q) = length gs.
Proof. rewrite <-(Forall2_length _ _ _ grouped_needs). apply length_fmap. Qed.

(** The binding of the grants satisfies every clause of the query. *)
Lemma grouped_sat c : c ∈ where_ q → sat (flat_map assert ds) c (grouped_binding X sub gs).
Proof.
  intros Hc. destruct (query_run sel now 0) as (_ & _ & _ & Hd). pose proof (query_layout sel now) as Hl.
  destruct (grouped_binding_base X sub gs) as [B0 B1].
  rewrite <-(take_drop (length (select_proofs q)) (where_ q)), Hd in Hc.
  apply elem_of_app in Hc as [Hc|Hc].
  - apply list_elem_of_lookup in Hc as [k Hk]. pose proof (lookup_lt_Some _ _ _ Hk) as Hlt.
    rewrite length_take in Hlt. rewrite lookup_take_lt in Hk by lia.
    destruct (lookup_lt_is_Some_2 (select_proofs q) k) as [g Hg]; [lia|].
    destruct (lookup_lt_is_Some_2 gs k) as [[[[A d] i] cp] Hgk]; [rewrite <-grouped_length; lia|].
    destruct (Hl k g Hg) as (Hiss & Hcan & Hprf & Hatt & Hw). rewrite grouped_length in Hw.
    rewrite Hw in Hk. injection Hk as <-.
    pose proof (Forall2_lookup_lr _ _ _ _ _ _ grouped_needs (list_lookup_fmap_Some_2 grant_can _ _ _ Hgk) Hg)
      as Hneed.
    destruct (proj1 (Forall_lookup _ _) Hgs k _ Hgk) as (Hd' & Hi & Haud & Hwith & Ht & HA & Hgl & Hmail).
    destruct (grouped_binding_lookup X sub gs k A d i cp Hgk) as (G1 & G2 & G3 & G4 & G5).
    destruct g as [gi gc gp ga gn]. cbn [g_issuer g_can g_proof g_attestation g_need grant_can] in *.
    subst gi gc gp ga. rewrite <-Haud, <-Hwith in *. cbn [default q_time].
    apply (sat_group_grant ds Hu d i cp t Hd' Hi Ht Hmail); try done.
    intros A' HA'. rewrite Hneed in HA'. unfold grant_can in HA'. simpl in HA'. destruct (js_truthy A); by simplify_eq.
  - repeat (apply elem_of_cons in Hc as [->|Hc]); [| |by apply not_elem_of_nil in Hc];
      apply sat_text_match; eexists; (split; [done|]); [apply glob_star_all|done].
Qed.

(** The answer below the grants' binding is one record of [find]:
    authority [X], subject [sub], every requested ability, and every
    grant cited. *)
Lemma find_grouped_answer :
  ∃ rs, find (from ds) sel now = Ok rs ∧
    ∃ r, r ∈ rs ∧ authority r = X ∧ subject r = sub ∧ abilities r = remove_dups (grant_can <$> gs) ∧
      ∀ A d i c, (A, d, i, c) ∈ gs → cid d ∈ proof_cids r.
Proof.
  destruct (query_where_mode sel now) as (c0 & cs & B' & Hw & Hm).
  destruct (eval_mode_ok (build (flat_map assert ds)) _ [] B' ∅ Hm) as (bs & Hev & _);
    [by intros ? ?%not_elem_of_nil|].
  assert (run (build (flat_map assert ds)) (where_ q) = Ok bs) as Hrun by (rewrite Hw; exact Hev).
  destruct (proj2 (eval_correct _ _ _ _ Hev) (grouped_binding X sub gs) (map_empty_subseteq _))
    as (γ & Hγ & _ & Hγδ).
  { apply sat_and_all. intros c' Hc'. apply grouped_sat. by rewrite Hw. }
  destruct (query_answers_sound ds sel now bs γ Hu Hrun Hγ) as (a & s & Ha & _ & Hs & _ & Hgroups).
  destruct (query_run sel now 0) as (Hsv & Hav & _). pose proof (query_layout sel now) as Hl.
  destruct (grouped_binding_base X sub gs) as [B0 B1].
  rewrite Hav in Ha. rewrite Hsv in Hs. cbn [resolve] in Ha, Hs.
  rewrite (lookup_weaken _ _ _ _ Ha Hγδ) in B1. rewrite (lookup_weaken _ _ _ _ Hs Hγδ) in B0. simplify_eq.
  assert (mapM (group_can γ) (select_proofs q) = Some (grant_can <$> gs)) as Hcans.
  { apply mapM_group_can; [apply grouped_needs|]. apply Forall_fmap. eapply Forall_impl; [exact Hgs|].
    intros [[[A d] i] c] Hok. by destruct Hok as (_ & _ & _ & _ & _ & ? & _). }
  exists (omap (from_binding q) bs). split; [unfold find, from; cbn [db_index]; by rewrite Hrun|].
  eexists. split.
  { apply list_elem_of_omap. exists γ. split; [done|]. unfold from_binding.
    rewrite Hav, Hsv, Hcans. cbn [resolve]. rewrite Ha, Hs. reflexivity. }
  cbn [authority subject abilities proof_cids]. split_and!; [done..|].
  intros A d i c Hin. apply list_elem_of_lookup in Hin as [k Hk].
  destruct (lookup_lt_is_Some_2 (select_proofs q) k) as [g Hg];
    [rewrite grouped_length; by eapply lookup_lt_Some|].
  destruct (Hgroups g (list_elem_of_lookup_2 _ _ _ Hg)) as (dl & _ & Hp & _).
  destruct (Hl k g Hg) as (_ & _ & Hprf & _). rewrite Hprf in Hp. cbn [resolve] in Hp.
  destruct (grouped_binding_lookup X sub gs k A d i c Hk) as (_ & _ & G3 & _).
  rewrite (lookup_weaken _ _ _ _ Hp Hγδ) in G3. injection G3 as Hcid.
  apply elem_of_remove_dups, list_elem_of_join. exists (group_proofs γ g). split.
  - unfold group_proofs. rewrite Hprf. cbn [resolve]. rewrite Hp. simpl. rewrite Hcid. set_solver.
  - apply list_elem_of_fmap. exists g. split; [done|]. by eapply list_elem_of_lookup_2.
Qed.
End grouped.


(** C6: The grouping law of spec 8, for any number of abilities: when
    each requested ability is granted explicitly to the audience [X]
    on the subject [sub] by an unexpired delegation not issued by a
    [did:mailto:] principal, [find] for those abilities returns one
    record with authority [X] and subject [sub] that lists every
    requested ability and cites every grant. *)
Theorem find_grouped ds X sub t now gs :
  cid_unique ds → gs ≠ [] → Forall (grant_ok ds X sub t) gs →
  ∃ rs, find (from ds) (QuerySelector (Exactly X) (grant_can <$> gs) None (Some t)) now = Ok rs ∧
    ∃ r, r ∈ rs ∧ authority r = X ∧ subject r = sub ∧ abilities r = remove_dups (grant_can <$> gs) ∧
      ∀ A d i c, (A, d, i, c) ∈ gs → cid d ∈ proof_cids r.
Proof. intros Hu Hne Hgs. exact (find_grouped_answer ds Hu X sub t now gs Hne Hgs). Qed.

(** ** Witness: scenario (4) of spec 8 *)

Definition space : string := "did:key:z6MkSpace".
Definition grant_add : delegation := share 1 space alice ["store/add"] None.
Definition grant_remove : delegation := share 2 space alice ["store/remove"] None.
Definition grouped_grants : list grant :=
  [("store/add", grant_add, 0, Capability "store/add" space []);
   ("store/remove", grant_remove, 0, Capability "store/remove" space [])].

(** Two separate grants, [store/add] and [store/remove], from a space
    to alice: the query for both returns one record listing both. *)
Lemma find_grouped_witness :
  cid_unique [grant_add; grant_remove] ∧ grouped_grants ≠ [] ∧
  Forall (grant_ok [grant_add; grant_remove] alice space 1000%Z) grouped_grants ∧
  ∃ rs, find (from [grant_add; grant_remove])
          (QuerySelector (Exactly alice) (grant_can <$> grouped_grants) None (Some 1000%Z)) 1000%Z = Ok rs ∧
    ∃ r, r ∈ rs ∧ authority r = alice ∧ subject r = space ∧
      abilities r = remove_dups (grant_can <$> grouped_grants) ∧
      ∀ A d i c, (A, d, i, c) ∈ grouped_grants → cid d ∈ proof_cids r.
Proof.
  assert (cid_unique [grant_add; grant_remove]) as Hu
    by (apply (cid_unique_check [grant_add; grant_remove]); vm_compute; reflexivity).
  assert (Forall (grant_ok [grant_add; grant_remove] alice space 1000%Z) grouped_grants) as Hgs.
  { repeat constructor; cbn; try (vm_compute; reflexivity); try discriminate; vm_compute; set_solver. }
  split_and!; [exact Hu|discriminate|exact Hgs|]. exact (find_grouped _ _ _ _ _ grouped_grants Hu ltac:(discriminate) Hgs).
Defined.

End Grouping.
