(* ===== verification/Scenarios.v ===== *)
(** * The test suite

    The tests of [testDB] in [src/unnamed/part_001] that exercise the
    authorization query: each test's setup and calls are a definition
    (its delegations built from the [Fixtures]), and each of its
    [assert.deepEqual]s an Example checked by evaluation at a fixed
    [now], which validates the model against the suite.  These cover the concrete scenarios of the
    specification (its section 8): a direct grant, expiration, a
    [did:mailto:] login gated by an attestation, and grants merged in
    one record.  Three further Examples run, on concrete delegations,
    behaviours of [query.js] that the general theorems of
    [Authorization] cover and the modelling brought out: a ["ucan:*"] capability is
    matched as an explicit grant on the subject ["ucan:*"], an
    attestation is accepted from any issuer, and a login reaches a
    subject through its proof only when both delegate the same ability
    string.

    The test 'account view' calls [Account.match] of the client's
    account module, which is not under src/: it is modelled from the
    spec as [account_match].  The abilities [space.share] delegates by default come from the
    client's [Space] module, which is not under src/; a space shares
    [space_abilities] here. *)
From S2P Require Import Prelude Term Clause Delegation Fixtures Matchers Query Authorization.

Module Scenarios.
Import Term Clause Delegation Fixtures Matchers Query Authorization.
Local Open Scope string_scope.

Definition now : Z := 1000.
Definition space_abilities : list string := ["space/*"; "store/*"; "upload/*"].
Definition beet_box := "did:key:z6MkBeetBox".
Definition plum_box := "did:key:z6MkPlumBox".

(** ['test find space'] *)
Definition test_find_space : result error (list authorization) :=
  find (from [share 1 beet_box alice space_abilities None])
    (QuerySelector (Exactly alice) ["store/add"] None None) now.

(** ['test find several spaces'] *)
Definition test_find_several_spaces : result error (list authorization) :=
  find (from [share 1 beet_box alice space_abilities None; share 2 plum_box alice space_abilities None])
    (QuerySelector (Exactly alice) ["store/add"; "store/remove"] None None) now.

(** ['test finds authorization across multiple ucans'] *)
Definition space_info : delegation := Delegation 3 alice bob [Capability "space/info" alice []] None [].
Definition upload_list : delegation := Delegation 4 alice bob [Capability "upload/list" alice []] None [].

Definition test_multiple_ucans : result error (list authorization) :=
  find (from [space_info; upload_list])
    (QuerySelector (Exactly bob) ["space/info"; "upload/list"] None None) now.

(** ['test find accounts ignoring spaces'] *)
Definition local_box := "did:key:z6MkLocalBox".
Definition remote_box := "did:key:z6MkRemoteBox".
Definition remote_login : account_setup := setup_account 10 "alice" "web.mail" remote_box alice.

Definition test_accounts_ignoring_spaces : result error (list authorization) * result error (list authorization) :=
  let db := from [acc_login remote_login; acc_attestation remote_login; share 1 local_box alice space_abilities None] in
  (find db (QuerySelector (Exactly alice) ["*"] (Some (GlobPattern "did:mailto:*")) None) now,
   find db (QuerySelector (Exactly alice) ["store/add"] (Some (GlobPattern "did:key:*")) None) now).

(** ['test find accounts and attestations']: the selected [loginProof]
    and [attestProof] of each answer. *)
Definition test_accounts_and_attestations : result error (list (option scalar * option scalar)) :=
  let db := from (setup_proofs remote_login) in
  bs ← run (db_index db)
         [Match (Var 0) "ucan/audience" (str alice);
          Match (Var 0) "ucan/capability" (Var 1);
          Match (Var 1) "capability/with" (str "ucan:*");
          Match (Var 2) "ucan/audience" (str alice);
          Match (Var 2) "ucan/capability" (Var 3);
          Match (Var 3) "capability/can" (str "ucan/attest");
          Match (Var 3) "capability/nb/proof" (Var 0)];
  Ok ((λ γ : binding, (γ !! 0, γ !! 2)) <$> (bs : list binding)).

(** [Account.match(ucan, {time, authority, account})] of the client's
    account module (not under src/; spec 4.5): the implicit match of
    [ucan] with the account as subject and the authority as audience,
    the account restricted to [did:mailto:] principals. *)
Definition account_match (ucan time authority account : term) : fresh clause :=
  im ← implicit ucan (Selector (Some authority) None (Some account) None (Some time));
  mret (And im (GlobMatch account (str "did:mailto:*"))).

(** ['account view']: the [ucan] and [account] selected by each answer
    over both accounts' proofs; [ucan], [audience] and [account] are the
    variables 0, 1 and 2. *)
Definition alice_account : account_setup := setup_account 40 "alice" "web.mail" "did:key:z6MkAliceSpace" alice.
Definition bob_account : account_setup := setup_account 50 "bob" "web3.storage" "did:key:z6MkBobSpace" bob.

Definition test_account_view : result error (list (option scalar * option scalar)) :=
  let db := from (setup_proofs alice_account ++ setup_proofs bob_account) in
  let where_ := (run_fresh (account_match (Var 0) (Const (SInt now)) (Var 1) (Var 2)) 3).1 in
  bs ← run (db_index db) [where_];
  Ok ((λ γ : binding, (γ !! 0, γ !! 2)) <$> (bs : list binding)).

(** ['does not match expired ucans']: a share expired a day ago and one
    valid for a day, queried now and two days ago. *)
Definition expired_share : delegation := share 1 beet_box alice space_abilities (Some (now - 86400)%Z).
Definition valid_share : delegation := share 2 beet_box alice space_abilities (Some (now + 86400)%Z).

Definition test_expired_ucans : result error (list authorization) * result error (list authorization) :=
  let db := from [valid_share; expired_share] in
  (find db (QuerySelector (Exactly alice) ["store/add"] None (Some now)) now,
   find db (QuerySelector (Exactly alice) ["store/add"] None (Some (now - 172800)%Z)) now).

(** ['does match non-expiring ucans'] *)
Definition test_non_expiring : result error (list authorization) :=
  find (from [share 1 beet_box alice space_abilities None])
    (QuerySelector (Exactly alice) ["store/add"] None None) now.

(** ['account authority from login']: the account's login of ["*"] on
    ["ucan:*"] without proofs, and the service's attestation of it. *)
Definition login_proof : delegation := login 30 (from_email "alice" "web.mail") alice [].

Definition test_authority_from_login : result error (list authorization) :=
  find (from [login_proof; attestation 31 alice 30])
    (QuerySelector (Exactly alice) ["store/add"] (Some (Exactly (from_email "alice" "web.mail"))) None) now.

(** ['account authority from authorization']: the account's ["ucan:*"]
    delegation of [store/*], queried before and after the attestation
    is transacted into the same database. *)
Definition account_proof : delegation :=
  Delegation 20 (from_email "alice" "web.mail") alice [Capability "store/*" "ucan:*" []] None [].

Definition test_authority_from_authorization : result error (list authorization) * result error (list authorization) :=
  let sel := QuerySelector (Exactly alice) ["store/add"] (Some (Exactly (from_email "alice" "web.mail"))) None in
  let db := from [account_proof] in
  (find db sel now, find (transact db [attestation 21 alice 20]) sel now).

(** ['find whatever capabilities match'] *)
Definition test_whatever_capabilities : result error (list authorization) :=
  find (from [share 1 beet_box alice space_abilities None]) (QuerySelector (Exactly alice) [] None None) now.

(** ** Theorems *)

(** Test ['test find space'] (spec scenario 1): a space's share to
    alice, queried for [store/add], gives one record: authority alice,
    subject the space, ability [store/add], the share as proof. *)
Example test_find_space_result :
  test_find_space = Ok [Authorization alice beet_box ["store/add"] [1%N]].
Proof. vm_compute. reflexivity. Qed.

(** Test ['test find several spaces']: shares of two spaces, queried
    for two abilities, give one record per space with both abilities. *)
Example test_find_several_spaces_result :
  test_find_several_spaces =
    Ok [Authorization alice beet_box ["store/add"; "store/remove"] [1%N];
        Authorization alice plum_box ["store/add"; "store/remove"] [2%N]].
Proof. vm_compute. reflexivity. Qed.

(** Test ['test finds authorization across multiple ucans'] (spec
    scenario 4, the grouping law): two delegations of different
    abilities on the same subject to the same audience, queried for
    both, are merged in one record citing both. *)
Example test_multiple_ucans_result :
  test_multiple_ucans = Ok [Authorization bob alice ["space/info"; "upload/list"] [3%N; 4%N]].
Proof. vm_compute. reflexivity. Qed.

(** Test ['test find accounts ignoring spaces']: the subject pattern
    [did:mailto:*] finds the account (through its login and
    attestation) and no space; [did:key:*] finds the directly shared
    space first and the account's space second, and nothing else. *)
Example test_accounts_ignoring_spaces_result :
  test_accounts_ignoring_spaces =
    (Ok [Authorization alice (acc_account remote_login) ["*"] [11%N; 12%N]],
     Ok [Authorization alice local_box ["store/add"] [1%N];
         Authorization alice remote_box ["store/add"] [11%N; 12%N]]).
Proof. vm_compute. reflexivity. Qed.

(** Test ['test find accounts and attestations']: the raw query
    pairs the login with the attestation that names it, and nothing
    else. *)
Example test_accounts_and_attestations_result :
  test_accounts_and_attestations =
    Ok [(Some (SLink (Cid (cid (acc_login remote_login)))), Some (SLink (Cid (cid (acc_attestation remote_login)))))].
Proof. vm_compute. reflexivity. Qed.

(** Test ['account view']: [Account.match] over the proofs of two
    accounts selects each account's login with the account's
    [did:mailto:] DID, Alice's then Bob's, and no space. *)
Example test_account_view_result :
  test_account_view =
    Ok [(Some (SLink (Cid (cid (acc_login alice_account)))), Some (SStr "did:mailto:web.mail:alice"));
        (Some (SLink (Cid (cid (acc_login bob_account)))), Some (SStr "did:mailto:web3.storage:bob"))].
Proof. vm_compute. reflexivity. Qed.

(** Test ['does not match expired ucans'] (spec scenario 2): queried
    now, only the valid share is found (the expired one is no error,
    just absent); queried two days ago, both are, one record each
    although they share audience and subject. *)
Example test_expired_ucans_result :
  test_expired_ucans =
    (Ok [Authorization alice beet_box ["store/add"] [2%N]],
     Ok [Authorization alice beet_box ["store/add"] [2%N]; Authorization alice beet_box ["store/add"] [1%N]]).
Proof. vm_compute. reflexivity. Qed.

(** Test ['account authority from authorization'] (spec scenario
    3): an account's ["ucan:*"] delegation of [store/*] authorizes
    nothing without an attestation, and [store/add] on the account,
    citing delegation and attestation, once the service's attestation
    is transacted into the database. *)
Example test_authority_from_authorization_result :
  test_authority_from_authorization =
    (Ok [], Ok [Authorization alice (from_email "alice" "web.mail") ["store/add"] [20%N; 21%N]]).
Proof. vm_compute. reflexivity. Qed.

(** Test ['find whatever capabilities match']: with no ability
    requested, each capability of the share is answered in a record of
    its own. *)
Example test_whatever_capabilities_result :
  test_whatever_capabilities =
    Ok ((λ a, Authorization alice beet_box [a] [1%N]) <$> space_abilities).
Proof. vm_compute. reflexivity. Qed.

(** Test ['does match non-expiring ucans']. *)
Example test_non_expiring_result :
  test_non_expiring = Ok [Authorization alice beet_box ["store/add"] [1%N]].
Proof. vm_compute. reflexivity. Qed.

(** Test ['account authority from login']: the attested login
    authorizes [store/add] on the account, citing both. *)
Example test_authority_from_login_result :
  test_authority_from_login = Ok [Authorization alice (from_email "alice" "web.mail") ["store/add"] [30%N; 31%N]].
Proof. vm_compute. reflexivity. Qed.

(** [explicit] matches the ["ucan:*"] capability of a login as an
    explicit grant on the subject ["ucan:*"], against its doc comment
    (query.js, lines 101-107): without a subject constraint the query
    answers a record on the pseudo-subject ["ucan:*"] besides the
    account and its space. *)
Example finding_ucan_star_subject :
  find (from (setup_proofs remote_login)) (QuerySelector (Exactly alice) ["store/add"] None None) now
  = Ok [Authorization alice "ucan:*" ["store/add"] [11%N; 12%N];
        Authorization alice (acc_account remote_login) ["store/add"] [11%N; 12%N];
        Authorization alice remote_box ["store/add"] [11%N; 12%N]].
Proof. vm_compute. reflexivity. Qed.

(** [Attestation.match] constrains neither the issuer of the
    attestation nor that it differs from the audience: the login alone
    authorizes nothing on the account's space, but with an attestation
    the agent issues to itself it does, without the service. *)
Example finding_self_attestation :
  find (from [acc_login remote_login])
       (QuerySelector (Exactly alice) ["store/add"] (Some (Exactly remote_box)) None) now
  = Ok [] ∧
  find (from [acc_login remote_login;
              Delegation 13 alice alice [Capability "ucan/attest" alice [("proof", SLink (Cid 11))]] None []])
       (QuerySelector (Exactly alice) ["store/add"] (Some (Exactly remote_box)) None) now
  = Ok [Authorization alice remote_box ["store/add"] [11%N; 13%N]].
Proof. split; vm_compute; reflexivity. Qed.

(** [implicit] passes the same [can] variable to [forwards] and to
    [explicit] of the proof (query.js, lines 166-178): a login must
    delegate exactly the ability string its proof delegates.  A ["*"]
    login whose proof delegates only [store/add] on the space to the
    account authorizes nothing on the space, although the proof
    delegates the requested ability from the subject to the issuer (as
    spec 4.5 words it); a [store/add] login with the same proof does. *)
Example finding_implicit_same_can :
  let account := from_email "alice" "web.mail" in
  let narrow := Delegation 60 remote_box account [Capability "store/add" remote_box []] None [] in
  let att := attestation 62 alice 61 in
  find (from [login 61 account alice [narrow]; att])
       (QuerySelector (Exactly alice) ["store/add"] (Some (Exactly remote_box)) None) now
  = Ok [] ∧
  find (from [Delegation 61 account alice [Capability "store/add" "ucan:*" []] None [narrow]; att])
       (QuerySelector (Exactly alice) ["store/add"] (Some (Exactly remote_box)) None) now
  = Ok [Authorization alice remote_box ["store/add"] [61%N; 62%N]].
Proof. split; vm_compute; reflexivity. Qed.

End Scenarios.
