(* ===== verification/Storage.v ===== *)
(** * The delegation store ([DbDelegationsStorageWithR2])

    [src/unnamed/part_000], lines 1-219: delegations kept as CAR files
    in an R2 bucket, keyed by [carFileKeyer], and indexed by rows
    [{cid, audience, issuer}] of the SQL table [delegations_v3].  The
    store's state is the bucket (a map from keys to bytes), the table
    (rows in insertion order) and whether the database can stream.
    [putMany], [count], [find], the async iterator and
    [#rowToDelegation] are operations on that state; the async
    generators are finite streams that yield delegations and may end
    in a thrown error.  The CAR codec and the string forms of CIDs come
    from libraries the code calls, and are an interface ([Codec]) whose
    law is the one the store relies on.  The bucket is written under
    [cid.toString()] and read under the row's [cid.toV1().toString()];
    the two agree on version 1 CIDs only, which the refinement assumes
    and [putMany_cidv0_unreadable] shows necessary.  The interface the
    class implements, [DelegationsStorage], is a class whose contract
    [DelegationsStorageSpec] the store's instance discharges. *)
From S2P Require Import Prelude Term Delegation Fixtures.
From stdpp Require Import pretty.

Module Storage.
Import Term Delegation Fixtures.
Local Open Scope string_scope.

(** A [Uint8Array]: bytes as integers in [0, 256). *)
Abbreviation bytes := (list Z).

(** A JavaScript [Error]: its [name] and [message]. *)
Record js_error := JsError { err_name : string; err_message : string }.

(** [delegationsToBytes], [bytesToDelegations] of
    [@web3-storage/access/encoding], and the two string forms of a CID
    the store uses: [cid.toString()] (the bucket key written by
    [writeDelegations]) and [cid.toV1().toString()] (the [cid] column);
    the bytes of a CAR file are the abstract type [car]. *)
Class Codec := {
  car : Type;
  delegations_to_bytes : list delegation → car;
  bytes_to_delegations : car → result js_error (list delegation);
  cid_string : N → string;
  cid_v1_string : N → string;
  codec_roundtrip d : bytes_to_delegations (delegations_to_bytes [d]) = Ok [d]
}.

(** [delegationsV3Table] *)
Definition delegationsV3Table := "delegations_v3".

(** A row of [delegations_v3], as [createDelegationRowUpdateV3] writes it. *)
Record row := Row { r_cid : string; r_audience : string; r_issuer : string }.

#[global] Instance row_eq_dec : EqDecision row.
Proof. solve_decision. Qed.

(** [sqlValue] of [delegationsTableBytesToArrayBuffer]: a view on a
    buffer (a [Buffer] or typed array), an array of numbers, or any
    other value. *)
Inductive sql_value :=
  | SqlView (buffer : bytes) (byteOffset byteLength : nat)
  | SqlArray (xs : list Z)
  | SqlOther.

(** [ToUint8] of the numbers [Uint8Array.from] converts. *)
Definition to_uint8 (x : Z) : Z := x `mod` 256.

(** [delegationsTableBytesToArrayBuffer(sqlValue)] (lines 47-58). *)
Definition delegationsTableBytesToArrayBuffer (v : sql_value) : option bytes :=
  match v with
  | SqlView buf off len => Some (take len (drop off buf))
  | SqlArray xs => Some (to_uint8 <$> xs)
  | SqlOther => None
  end.

(** An async generator run to its end: the values it yields, and
    whether it returns or throws. *)
Inductive stream (A : Type) :=
  | Done
  | Yield (x : A) (rest : stream A)
  | Throw (e : js_error).
Arguments Done {A}. Arguments Yield {A}. Arguments Throw {A}.

(** The stream that yields [xs], then goes on as [s]. *)
Fixpoint yields {A} (xs : list A) (s : stream A) : stream A :=
  match xs with
  | [] => s
  | x :: xs' => Yield x (yields xs' s)
  end.

(** [for await (const x of s)] collecting the values: the list, or the
    error that ends the loop. *)
Fixpoint collect {A} (s : stream A) : result js_error (list A) :=
  match s with
  | Done => Ok []
  | Yield x s' => xs ← collect s'; Ok (x :: xs)
  | Throw e => Err e
  end.

(** ** The [DelegationsStorage] interface

    The class asserts that it implements [DelegationsStorage] of
    [../types/delegations] (lines 84-86): storing delegations, counting
    them, finding those to an audience, and iterating over all. *)
Class DelegationsStorage (S : Type) := {
  ds_putMany : S → list delegation → S;
  ds_count : S → nat;
  ds_find : S → string → stream delegation;
  ds_iterate : S → stream delegation
}.

(** The contract of a delegation store (spec section 6): an
    abstraction [ds_holds] of its state as a list of delegations;
    [putMany] of accepted delegations, distinct by [ds_key], appends
    those whose key is new, in order; [find] yields the delegations to
    the audience in order; [count] is their number; the iterator
    yields them all or fails before yielding. *)
Class DelegationsStorageSpec (S : Type) `{!DelegationsStorage S} := {
  ds_holds : S → list delegation → Prop;
  ds_key : delegation → string;
  ds_accepts : delegation → Prop;
  ds_merge : list delegation → list delegation → list delegation;
  ds_merge_nil D : ds_merge D [] = D;
  ds_merge_cons D d ds :
    ds_merge D (d :: ds) = ds_merge (if decide (ds_key d ∈ ds_key <$> D) then D else (D ++ [d])%list) ds;
  ds_putMany_holds st D ds :
    ds_holds st D →
    (∀ d1 d2, d1 ∈ (D ++ ds)%list → d2 ∈ (D ++ ds)%list → ds_key d1 = ds_key d2 → d1 = d2) →
    Forall ds_accepts ds → ds_holds (ds_putMany st ds) (ds_merge D ds);
  ds_find_holds st D aud :
    ds_holds st D → collect (ds_find st aud) = Ok (filter (λ d, audience d = aud) D);
  ds_count_holds st D : ds_holds st D → ds_count st = length D;
  ds_iterate_holds st D : ds_holds st D → collect (ds_iterate st) = Ok D ∨ ∃ e, ds_iterate st = Throw e
}.

(** A client of the interface: several [putMany] calls in sequence. *)
Section client.
Context {St : Type} `{DelegationsStorageSpec St}.

Lemma elem_of_ds_merge D ds d : d ∈ ds_merge D ds → d ∈ D ∨ d ∈ ds.
Proof.
  revert D. induction ds as [|d' ds IH]; intros D Hd; [rewrite ds_merge_nil in Hd; by left|].
  rewrite ds_merge_cons in Hd. destruct (IH _ Hd) as [Hin|Hin]; [|set_solver].
  case_decide; [by left|]. set_solver.
Qed.

(** Storing the batches [bss] one after the other, from a store
    holding [D], gives a store holding [D] merged with each batch in
    turn. *)
Lemma ds_putMany_batches st D bss :
  ds_holds st D →
  (∀ d1 d2, d1 ∈ (D ++ concat bss)%list → d2 ∈ (D ++ concat bss)%list → ds_key d1 = ds_key d2 → d1 = d2) →
  Forall ds_accepts (concat bss) →
  ds_holds (foldl ds_putMany st bss) (foldl ds_merge D bss).
Proof.
  revert st D. induction bss as [|ds bss IH]; intros st D Hst Hkey Hacc; [done|].
  simpl in *. rewrite Forall_app in Hacc. destruct Hacc as [Hds Hbss]. apply IH; [| |done].
  - apply ds_putMany_holds; [done| |done]. intros d1 d2 ? ?. apply Hkey; set_solver.
  - intros d1 d2 Hd1 Hd2. apply Hkey.
    + apply elem_of_app in Hd1 as [Hd1%elem_of_ds_merge|]; set_solver.
    + apply elem_of_app in Hd2 as [Hd2%elem_of_ds_merge|]; set_solver.
Qed.

Lemma ds_find_batches st D bss aud :
  ds_holds st D →
  (∀ d1 d2, d1 ∈ (D ++ concat bss)%list → d2 ∈ (D ++ concat bss)%list → ds_key d1 = ds_key d2 → d1 = d2) →
  Forall ds_accepts (concat bss) →
  collect (ds_find (foldl ds_putMany st bss) aud) = Ok (filter (λ d, audience d = aud) (foldl ds_merge D bss)).
Proof. intros. by apply ds_find_holds, ds_putMany_batches. Qed.
End client.

Section store.
Context `{Codec}.

Record store := Store {
    dags : gmap string car;   (** [#dags], the R2 bucket *)
    rows : list row;          (** [#db], the table [delegations_v3] *)
    canStream : bool          (** [#db.canStream] *)
  }.

(** [carFileKeyer(ucan)] (lines 192-194). *)
Definition carFileKeyer (cid : string) : string := cid +:+ ".car".

(** [createDelegationRowUpdateV3(d)] (lines 35-41). *)
Definition createDelegationRowUpdateV3 (d : delegation) : row :=
    Row (cid_v1_string (cid d)) (audience d) (issuer d).

(** [writeDelegations(bucket, delegations, keyer)] with
      [writeEntries] (lines 201-219): one [bucket.put] per delegation
      of its key and CAR bytes. *)
Definition writeDelegations (bucket : gmap string car) (ds : list delegation) : gmap string car :=
    foldl (λ b d, <[carFileKeyer (cid_string (cid d)) := delegations_to_bytes [d]]> b) bucket ds.

(** One row of [insertInto(..).values(values).onConflict(cid).doNothing()]:
      a row whose [cid] is already in the table is skipped. *)
Definition insert_row (rs : list row) (r : row) : list row :=
    if decide (r_cid r ∈ r_cid <$> rs) then rs else (rs ++ [r])%list.

Definition insert_rows (rs : list row) (values : list row) : list row :=
    foldl insert_row rs values.

(** [putMany(...delegations)] (lines 94-106): nothing for no
      delegation; otherwise the CARs are written first, then the rows. *)
Definition putMany (st : store) (ds : list delegation) : store :=
    match ds with
    | [] => st
    | _ =>
      let st1 := Store (writeDelegations (dags st) ds) (rows st) (canStream st) in
      Store (dags st1) (insert_rows (rows st1) (createDelegationRowUpdateV3 <$> ds)) (canStream st1)
    end.

(** [count()] (lines 109-111, 181-187). *)
Definition count (st : store) : nat := length (rows st).

(** [#rowToDelegation(row)] (lines 152-167). *)
Definition rowToDelegation (st : store) (cidString : string) : result js_error delegation :=
    match dags st !! carFileKeyer cidString with
    | None => Err (JsError "Error" ("failed to read car bytes for cid " +:+ cidString))
    | Some carBytes =>
      ds ← bytes_to_delegations carBytes;
      match ds with
      | [d] => Ok d
      | _ => Err (JsError "Error" ("expected 1 delegation in CAR, but got " +:+ pretty (length ds)))
      end
    end.

(** The loop [for await (const row of selection) yield
      this.#rowToDelegation(row)]: a rejected delegation ends the
      generator with its error. *)
Fixpoint yield_rows (st : store) (rs : list row) : stream delegation :=
    match rs with
    | [] => Done
    | r :: rs' =>
      match rowToDelegation st (r_cid r) with
      | Ok d => Yield d (yield_rows st rs')
      | Err e => Throw e
      end
    end.

(** [find({audience})] (lines 116-127). *)
Definition find (st : store) (audience : string) : stream delegation :=
    yield_rows st (filter (λ r, r_audience r = audience) (rows st)).

(** [[Symbol.asyncIterator]()] (lines 129-144). *)
Definition asyncIterator (st : store) : stream delegation :=
    if canStream st then yield_rows st (rows st)
    else Throw (JsError "NotImplementedError"
      "cannot create asyncIterator because the underlying database does not support streaming").
End store.

(** ** The abstract store and the refinement *)

Section laws.
Context `{Codec}.

(** The [cid] column of a delegation's row, the key its CAR is read
    from, and the key [writeDelegations] writes it under. *)
Definition row_cid (d : delegation) : string := cid_v1_string (cid d).
Definition key_of (d : delegation) : string := carFileKeyer (row_cid d).
Definition write_key (d : delegation) : string := carFileKeyer (cid_string (cid d)).

(** A delegation whose CID is a version 1 CID: [toV1()] changes nothing. *)
Definition cid_v1 (d : delegation) : Prop := cid_string (cid d) = cid_v1_string (cid d).

(** What [putMany] promises: the delegations not yet stored, by CID,
    are appended in order. *)
Definition put_abs (D ds : list delegation) : list delegation :=
  foldl (λ (D : list delegation) (d : delegation),
           if decide (row_cid d ∈ row_cid <$> D) then D else (D ++ [d])%list) D ds.

(** The store holds the delegations [D]: one row per delegation, in
    order, with distinct CIDs, each backed by its CAR in the bucket. *)
Definition represents (st : store) (D : list delegation) : Prop :=
  rows st = createDelegationRowUpdateV3 <$> D ∧ NoDup (row_cid <$> D) ∧
  ∀ d, d ∈ D → dags st !! key_of d = Some (delegations_to_bytes [d]).

(** Content addressing of the delegations at hand: equal CIDs, equal
    delegations. *)
Definition content_addressed (ds : list delegation) : Prop :=
  ∀ d1 d2, d1 ∈ ds → d2 ∈ ds → row_cid d1 = row_cid d2 → d1 = d2.

#[global] Instance carFileKeyer_inj : Inj (=) (=) carFileKeyer.
Proof. intros s1 s2. apply string_app_inj_r. Qed.

Lemma write_key_v1 d : cid_v1 d → write_key d = key_of d.
Proof. unfold write_key, key_of, row_cid. by intros ->. Qed.

Lemma lookup_writeDelegations b ds k :
  writeDelegations b ds !! k =
  match last (filter (λ d, write_key d = k) ds) with
  | Some d => Some (delegations_to_bytes [d])
  | None => b !! k
  end.
Proof.
  induction ds as [|d ds IH] using rev_ind; [done|].
  unfold writeDelegations in *. rewrite foldl_app, filter_app. simpl.
  destruct (decide (write_key d = k)) as [<-|Hk].
  - rewrite filter_cons_True, filter_nil, last_snoc by done. by rewrite lookup_insert_eq.
  - rewrite filter_cons_False, filter_nil, app_nil_r by done.
    rewrite lookup_insert_ne by done. apply IH.
Qed.

Lemma row_cids (D : list delegation) : r_cid <$> (createDelegationRowUpdateV3 <$> D) = row_cid <$> D.
Proof. by rewrite <-list_fmap_compose. Qed.

Lemma insert_rows_refines D ds :
  insert_rows (createDelegationRowUpdateV3 <$> D) (createDelegationRowUpdateV3 <$> ds) =
  createDelegationRowUpdateV3 <$> put_abs D ds.
Proof.
  revert D. induction ds as [|d ds IH]; intros D; [done|]. simpl. rewrite <-IH. f_equal.
  unfold insert_row. rewrite row_cids.
  change (r_cid (createDelegationRowUpdateV3 d)) with (row_cid d).
  case_decide; [done|]. by rewrite fmap_app.
Qed.

Lemma put_abs_NoDup D ds : NoDup (row_cid <$> D) → NoDup (row_cid <$> put_abs D ds).
Proof.
  revert D. induction ds as [|d ds IH]; intros D HD; [done|]. simpl. apply IH.
  case_decide; [done|]. rewrite fmap_app. apply NoDup_app. split_and!; [done| |by apply NoDup_singleton].
  intros x Hx Hx'. simpl in Hx'. set_solver.
Qed.

Lemma elem_of_put_abs D ds d : d ∈ put_abs D ds → d ∈ D ∨ d ∈ ds.
Proof.
  revert D. induction ds as [|d' ds IH]; intros D Hd; [by left|]. simpl in Hd.
  destruct (IH _ Hd) as [Hin|Hin]; [|set_solver]. case_decide; [by left|]. set_solver.
Qed.

(** Refinement of [putMany]: from a store holding [D], storing [ds]
    (with version 1 CIDs) gives a store holding [put_abs D ds]. *)
Lemma putMany_represents st D ds :
  represents st D → content_addressed (D ++ ds)%list → Forall cid_v1 ds →
  represents (putMany st ds) (put_abs D ds).
Proof.
  intros (Hrows & Hnd & Hdags) Hca Hv1. destruct ds as [|d0 ds0]; [done|].
  set (ds := d0 :: ds0) in *. rewrite Forall_forall in Hv1. split_and!.
  - change (rows (putMany st ds)) with (insert_rows (rows st) (createDelegationRowUpdateV3 <$> ds)).
    rewrite Hrows. apply insert_rows_refines.
  - by apply put_abs_NoDup.
  - intros d Hd. change (dags (putMany st ds)) with (writeDelegations (dags st) ds).
    rewrite lookup_writeDelegations.
    destruct (last _) as [d'|] eqn:Hl.
    + apply last_Some_elem_of, list_elem_of_filter in Hl as [Hk Hd'].
      rewrite write_key_v1 in Hk by auto. apply (inj carFileKeyer) in Hk.
      assert (d' = d) as -> by (apply Hca; [set_solver|by destruct (elem_of_put_abs _ _ _ Hd); set_solver|done]).
      done.
    + destruct (elem_of_put_abs _ _ _ Hd) as [HdD|Hds']; [by apply Hdags|].
      exfalso. assert (d ∈ filter (λ d', write_key d' = key_of d) ds) as Hf
        by (apply list_elem_of_filter; split; [by apply write_key_v1, Hv1|done]).
      destruct (filter _ ds) using rev_ind; [set_solver|]. by rewrite last_snoc in Hl.
Qed.

(** The generator and the collecting loop fail fast, as [mapM]. *)
Lemma collect_yield_rows st rs :
    collect (yield_rows st rs) = mapM (λ r, rowToDelegation st (r_cid r)) rs.
  Proof.
    induction rs as [|r rs IH]; [done|]. simpl.
    destruct (rowToDelegation st (r_cid r)); simpl; [|done]. by rewrite IH.
  Qed.

(** The generator run on rows that all read yields their delegations,
    in order, and returns. *)
Lemma yield_rows_Ok st rs ds :
    Forall2 (λ r d, rowToDelegation st (r_cid r) = Ok d) rs ds → yield_rows st rs = yields ds Done.
  Proof. induction 1 as [|r d rs ds Hr _ IH]; [done|]. simpl. by rewrite Hr, IH. Qed.

(** It yields [ds] and returns exactly when all the rows read, as [ds]. *)
Lemma yield_rows_Done st rs ds :
    yield_rows st rs = yields ds Done ↔ Forall2 (λ r d, rowToDelegation st (r_cid r) = Ok d) rs ds.
  Proof.
    split; [|apply yield_rows_Ok]. revert ds. induction rs as [|r0 rs IH]; intros ds; simpl.
    - intros Hd. destruct ds; [constructor|discriminate].
    - destruct (rowToDelegation st (r_cid r0)) eqn:Hr0; destruct ds; try done.
      intros [= -> Hrs]. constructor; [done|]. by apply IH.
  Qed.

(** The generator throws [e] after yielding [ds] exactly when some row
    fails with [e] and the rows before it read as [ds]. *)
Lemma yield_rows_Throw st rs ds e :
    yield_rows st rs = yields ds (Throw e) ↔
    ∃ pre r post, rs = (pre ++ r :: post)%list ∧
      Forall2 (λ r d, rowToDelegation st (r_cid r) = Ok d) pre ds ∧ rowToDelegation st (r_cid r) = Err e.
  Proof.
    revert ds. induction rs as [|r0 rs IH]; intros ds; split.
    - by destruct ds.
    - by intros ([|??] & ? & ? & ? & _).
    - simpl. destruct (rowToDelegation st (r_cid r0)) as [d|e'] eqn:Hr0; destruct ds as [|d' ds]; try done.
      + intros [= <- Hrs]. apply IH in Hrs as (pre & r & post & -> & Hpre & Hr).
        exists (r0 :: pre), r, post. split_and!; [done|by constructor|done].
      + intros [= ->]. by exists [], r0, rs.
    - intros ([|p pre] & r & post & Hrs & Hpre & Hr); simplify_eq/=.
      + apply Forall2_nil_inv_l in Hpre as ->. by rewrite Hr.
      + apply Forall2_cons_inv_l in Hpre as (d & ds' & Hp & Hpre & ->). rewrite Hp. cbn [yields]. f_equal.
        apply IH. eauto 10.
  Qed.

Lemma rowToDelegation_stored st d :
    dags st !! key_of d = Some (delegations_to_bytes [d]) →
    rowToDelegation st (row_cid d) = Ok d.
  Proof. unfold rowToDelegation, key_of. intros ->. simpl. by rewrite codec_roundtrip. Qed.

Lemma mapM_rowToDelegation_stored st E :
    (∀ d, d ∈ E → dags st !! key_of d = Some (delegations_to_bytes [d])) →
    mapM (λ r, rowToDelegation st (r_cid r)) (createDelegationRowUpdateV3 <$> E) = Ok E.
  Proof.
    induction E as [|d E IH]; intros HE; [done|]. rewrite fmap_cons. cbn [mapM]. cbv beta.
    change (r_cid (createDelegationRowUpdateV3 d)) with (row_cid d).
    rewrite (rowToDelegation_stored st d) by set_solver. rewrite bind_Ok, IH by set_solver. done.
  Qed.

Lemma Forall2_rowToDelegation_stored st E :
    (∀ d, d ∈ E → dags st !! key_of d = Some (delegations_to_bytes [d])) →
    Forall2 (λ r d, rowToDelegation st (r_cid r) = Ok d) (createDelegationRowUpdateV3 <$> E) E.
  Proof.
    intros HE. apply Forall2_fmap_l, Forall_Forall2_diag, Forall_forall. intros d Hd.
    by apply rowToDelegation_stored, HE.
  Qed.

Lemma filter_rows_audience (D : list delegation) aud :
    filter (λ r, r_audience r = aud) (createDelegationRowUpdateV3 <$> D) =
    createDelegationRowUpdateV3 <$> filter (λ d, audience d = aud) D.
  Proof.
    induction D as [|d D IH]; [done|]. rewrite fmap_cons, !filter_cons.
    change (r_audience (createDelegationRowUpdateV3 d)) with (audience d).
    case_decide; by rewrite ?fmap_cons, IH.
  Qed.

Lemma insert_row_cids rs v : r_cid <$> insert_row rs v ⊆ ((r_cid <$> rs) ++ [r_cid v])%list ∧
    r_cid v ∈ r_cid <$> insert_row rs v.
  Proof. unfold insert_row. case_decide; rewrite ?fmap_app; set_solver. Qed.

Lemma insert_rows_cids rs vs :
    (∀ c, c ∈ r_cid <$> rs → c ∈ r_cid <$> insert_rows rs vs) ∧
    (∀ v, v ∈ vs → r_cid v ∈ r_cid <$> insert_rows rs vs).
  Proof.
    revert rs. induction vs as [|v vs IH]; intros rs; simpl; [set_solver|].
    destruct (IH (insert_row rs v)) as [H1 H2]. split.
    - intros c Hc. apply H1. unfold insert_row. case_decide; rewrite ?fmap_app; set_solver.
    - intros w [->|Hw]%elem_of_cons; [|by apply H2]. apply H1, insert_row_cids.
  Qed.

Lemma insert_rows_present rs vs :
    (∀ v, v ∈ vs → r_cid v ∈ r_cid <$> rs) → insert_rows rs vs = rs.
  Proof.
    revert rs. induction vs as [|v vs IH]; intros rs Hv; [done|]. simpl. unfold insert_row.
    rewrite decide_True by set_solver. apply IH. set_solver.
  Qed.

Lemma writeDelegations_twice b ds :
    writeDelegations (writeDelegations b ds) ds = writeDelegations b ds.
  Proof.
    apply map_eq. intros k. rewrite !lookup_writeDelegations. by destruct (last _).
  Qed.
(** What a store holding [D] answers. *)
Lemma find_represents st D aud :
  represents st D → collect (find st aud) = Ok (filter (λ d, audience d = aud) D).
Proof.
  intros (Hrows & _ & Hdags). unfold find. rewrite Hrows, filter_rows_audience, collect_yield_rows.
  apply mapM_rowToDelegation_stored. intros d ?%list_elem_of_filter. naive_solver.
Qed.

Lemma count_represents st D : represents st D → count st = length D.
Proof. intros (Hrows & _). unfold count. by rewrite Hrows, length_fmap. Qed.

Lemma asyncIterator_represents st D :
  represents st D →
  collect (asyncIterator st) =
    if canStream st then Ok D
    else Err (JsError "NotImplementedError"
      "cannot create asyncIterator because the underlying database does not support streaming").
Proof.
  intros (Hrows & _ & Hdags). unfold asyncIterator. destruct (canStream st); [|done].
  rewrite collect_yield_rows, Hrows. by apply mapM_rowToDelegation_stored.
Qed.
End laws.

(** ** Theorems *)

Section theorems.
Context `{Codec}.

(** C9: Refinement of the delegation store: from a store that holds
      the delegations [D] (rows in order, distinct CIDs, each backed by
      its CAR), [putMany(ds)] of content-addressed delegations with
      version 1 CIDs gives a
      store holding [D] followed by the delegations of [ds] not yet
      stored; [find({audience})] then yields exactly the stored
      delegations to that audience, in order, with no error; [count()]
      is their number. *)
Theorem putMany_find_refines st D ds aud :
    represents st D → content_addressed (D ++ ds)%list → Forall cid_v1 ds →
    represents (putMany st ds) (put_abs D ds) ∧
    collect (find (putMany st ds) aud) = Ok (filter (λ d, audience d = aud) (put_abs D ds)) ∧
    count (putMany st ds) = length (put_abs D ds).
  Proof.
    intros Hr Hca Hv1. pose proof (putMany_represents st D ds Hr Hca Hv1) as Hr'.
    split_and!; [done|by apply find_represents|by apply count_represents].
  Qed.

(** C21: The async iterator of a store holding [D]: when the database
      streams, it yields the delegations of [D] in order and returns;
      otherwise it throws a [NotImplementedError] before yielding
      anything. *)
Theorem asyncIterator_spec st D :
    represents st D →
    asyncIterator st =
      if canStream st then yields D Done
      else Throw (JsError "NotImplementedError"
        "cannot create asyncIterator because the underlying database does not support streaming").
  Proof.
    intros (Hrows & _ & Hdags). unfold asyncIterator. destruct (canStream st); [|done].
    rewrite Hrows. by apply yield_rows_Ok, Forall2_rowToDelegation_stored.
  Qed.

(** C20: The stream [find({audience})] produces, for any store: it
      yields [ds] and returns exactly when the rows of the audience all
      read, as [ds]; it yields [ds] and then throws [e] exactly when
      some row of the audience fails with [e] and the rows before it
      read as [ds]: the generator stops at the first unreadable row,
      after yielding the delegations of the rows before it. *)
Theorem find_first_error st aud ds e :
    (find st aud = yields ds Done ↔
       Forall2 (λ r d, rowToDelegation st (r_cid r) = Ok d) (filter (λ r, r_audience r = aud) (rows st)) ds) ∧
    (find st aud = yields ds (Throw e) ↔
       ∃ pre r post, filter (λ r, r_audience r = aud) (rows st) = (pre ++ r :: post)%list ∧
         Forall2 (λ r d, rowToDelegation st (r_cid r) = Ok d) pre ds ∧ rowToDelegation st (r_cid r) = Err e).
  Proof. unfold find. split; [apply yield_rows_Done|apply yield_rows_Throw]. Qed.

(** C18: [#rowToDelegation] rejects a CAR that does not hold exactly
      one delegation with a plain [Error] (not the module's
      [UnexpectedDelegation]) naming the count, and a missing CAR with
      a plain [Error] naming the CID. *)
Theorem rowToDelegation_errors st c :
    (dags st !! carFileKeyer c = None →
     rowToDelegation st c = Err (JsError "Error" ("failed to read car bytes for cid " +:+ c))) ∧
    ∀ b ds, dags st !! carFileKeyer c = Some b → bytes_to_delegations b = Ok ds → length ds ≠ 1 →
      rowToDelegation st c = Err (JsError "Error" ("expected 1 delegation in CAR, but got " +:+ pretty (length ds))).
  Proof.
    unfold rowToDelegation. split; [by intros ->|].
    intros b ds -> Hb Hl. simpl. rewrite Hb. simpl. destruct ds as [|d [|d' ds]]; simpl in *; done.
  Qed.

(** C24: [putMany] is idempotent: storing the same delegations again
      changes neither the bucket nor the table. *)
Theorem putMany_idempotent st ds : putMany (putMany st ds) ds = putMany st ds.
  Proof.
    destruct ds as [|d ds]; [done|]. cbn [putMany dags rows canStream].
    rewrite writeDelegations_twice. f_equal. apply insert_rows_present.
    intros v Hv. by apply insert_rows_cids.
  Qed.
(** C16: A delegation whose CID is not a version 1 CID (a CIDv0) is
      written by [putMany] under the key [cid.toString() + '.car'] but
      its row records [cid.toV1().toString()], the key [find] reads:
      stored in a fresh table, it is counted by [count()] and yet
      [find] by its audience fails with "failed to read car bytes for
      cid" and the version 1 string. *)
Theorem putMany_cidv0_unreadable st d :
    ¬ cid_v1 d → rows st = [] → dags st !! key_of d = None →
    count (putMany st [d]) = 1%nat ∧
    collect (find (putMany st [d]) (audience d)) =
      Err (JsError "Error" ("failed to read car bytes for cid " +:+ row_cid d)).
  Proof.
    intros Hv0 Hrows Hnone. unfold count, find, putMany. cbn [dags rows]. rewrite Hrows.
    split; [done|]. cbn.
    assert (insert_row [] (createDelegationRowUpdateV3 d) = [createDelegationRowUpdateV3 d]) as ->
      by (unfold insert_row; rewrite decide_False; [done|set_solver]).
    rewrite filter_cons_True, filter_nil by done.
    cbn [yield_rows r_cid createDelegationRowUpdateV3]. unfold rowToDelegation. cbn [dags].
    fold (row_cid d) (key_of d). rewrite lookup_insert_ne, Hnone; [done|].
    intros Heq%(inj carFileKeyer). by apply Hv0.
  Qed.
End theorems.

(** ** The store implements the interface *)

Section instance.
Context `{Codec}.

#[export] Instance db_delegations_storage : DelegationsStorage store := {|
  ds_putMany := putMany; ds_count := count; ds_find := find; ds_iterate := asyncIterator
|}.

Lemma asyncIterator_holds st D :
  represents st D → collect (asyncIterator st) = Ok D ∨ ∃ e, asyncIterator st = Throw e.
Proof.
  intros Hr. pose proof (asyncIterator_represents st D Hr) as Hit.
  unfold asyncIterator in *. destruct (canStream st); [by left|by right; eexists].
Qed.

(** The refinement of the laws section discharges the contract, with
    the [cid] column as key and version 1 CIDs as the accepted
    delegations. *)
#[export] Instance db_delegations_storage_spec : DelegationsStorageSpec store := {|
  ds_holds := represents; ds_key := row_cid; ds_accepts := cid_v1; ds_merge := put_abs;
  ds_merge_nil D := eq_refl; ds_merge_cons D d ds := eq_refl;
  ds_putMany_holds := putMany_represents; ds_find_holds := find_represents;
  ds_count_holds := count_represents; ds_iterate_holds := asyncIterator_holds
|}.

(** C19: Storing several batches in sequence: from a store holding
      [D], [putMany] of the batches [bss] one after the other
      (content-addressed, version 1 CIDs) leaves [find({audience})]
      yielding, in order and without error, the delegations to the
      audience of [D] extended by each batch's new delegations in
      turn.  Proved against the [DelegationsStorage] interface. *)
Theorem putMany_batches_find st D bss aud :
    represents st D → content_addressed (D ++ concat bss)%list → Forall cid_v1 (concat bss) →
    collect (find (foldl putMany st bss) aud) =
      Ok (filter (λ d, audience d = aud) (foldl put_abs D bss)).
  Proof. exact (ds_find_batches st D bss aud). Qed.
End instance.

(** ** Bytes read from the table *)

Lemma to_uint8_bounds x : (0 ≤ to_uint8 x < 256)%Z.
Proof. unfold to_uint8. apply Z.mod_pos_bound. lia. Qed.

Lemma to_uint8_byte x : (0 ≤ x < 256)%Z → to_uint8 x = x.
Proof. unfold to_uint8. intros. by apply Z.mod_small. Qed.

(** C25: [delegationsTableBytesToArrayBuffer]: an array of numbers is
    converted with Uint8 wrap-around, so every result is a byte, the
    length is kept and an array of bytes comes back unchanged; a view
    on a buffer (whose offset and length lie within the buffer, as for
    any typed array) yields exactly the viewed bytes; any other value
    gives [undefined]. *)
Theorem delegationsTableBytesToArrayBuffer_spec :
  (∀ xs ys, delegationsTableBytesToArrayBuffer (SqlArray xs) = Some ys →
     length ys = length xs ∧ Forall (λ b, 0 ≤ b < 256)%Z ys ∧
     ∀ k x, xs !! k = Some x → ys !! k = Some (x `mod` 256)%Z) ∧
  (∀ xs, Forall (λ b, 0 ≤ b < 256)%Z xs → delegationsTableBytesToArrayBuffer (SqlArray xs) = Some xs) ∧
  (∀ (buf : bytes) off len, (off + len ≤ length buf)%nat →
     ∃ ys, delegationsTableBytesToArrayBuffer (SqlView buf off len) = Some ys ∧
       length ys = len ∧ ∀ k, (k < len)%nat → ys !! k = buf !! (off + k)%nat) ∧
  delegationsTableBytesToArrayBuffer SqlOther = None.
Proof.
  split_and!; try done.
  - intros xs ys [= <-]. split_and!.
    + apply length_fmap.
    + apply Forall_fmap, Forall_forall. intros x _. apply to_uint8_bounds.
    + intros k x Hk. by rewrite list_lookup_fmap, Hk.
  - intros xs Hxs. simpl. f_equal. rewrite <-(list_fmap_id xs) at 2.
    apply list_fmap_ext. intros k x Hk. apply to_uint8_byte.
    exact (Forall_lookup_1 _ _ _ _ Hxs Hk).
  - intros buf off len Hlen. eexists. split; [done|]. split.
    + rewrite length_take, length_drop. lia.
    + intros k Hk. by rewrite lookup_take_lt, lookup_drop by lia.
Qed.

(** ** Witnesses *)

(** A codec whose CAR is the list of delegations itself, and CIDs in
    decimal. *)
Definition list_codec : Codec := {|
  car := list delegation;
  delegations_to_bytes := id;
  bytes_to_delegations := Ok;
  cid_string := pretty;
  cid_v1_string := pretty;
  codec_roundtrip d := eq_refl
|}.

Definition example_grant : delegation := share 1 "did:key:z6MkSpace" alice ["store/add"] None.
Definition empty_store : @store list_codec := Store ∅ [] true.

Lemma putMany_find_refines_witness :
  @represents list_codec empty_store [] ∧ @content_addressed list_codec ([] ++ [example_grant])%list ∧
  Forall (@cid_v1 list_codec) [example_grant] ∧
  @represents list_codec (putMany empty_store [example_grant]) (@put_abs list_codec [] [example_grant]) ∧
  collect (find (putMany empty_store [example_grant]) alice) =
    Ok (filter (λ d, audience d = alice) (@put_abs list_codec [] [example_grant])) ∧
  count (putMany empty_store [example_grant]) = length (@put_abs list_codec [] [example_grant]).
Proof.
  assert (@represents list_codec empty_store []) as Hr by (split_and!; [done|constructor|set_solver]).
  assert (@content_addressed list_codec ([] ++ [example_grant])%list) as Hc by (intros ?? ->%list_elem_of_singleton ->%list_elem_of_singleton; done).
  assert (Forall (@cid_v1 list_codec) [example_grant]) as Hv by (repeat constructor).
  split_and!; [done|done|done|..]; apply (putMany_find_refines empty_store [] [example_grant] alice Hr Hc Hv).
Defined.

Lemma asyncIterator_spec_witness :
  @represents list_codec (putMany empty_store [example_grant]) [example_grant] ∧
  asyncIterator (putMany empty_store [example_grant]) = Yield example_grant Done.
Proof.
  assert (@represents list_codec (putMany empty_store [example_grant]) [example_grant]) as Hr.
  { split_and!; [vm_compute; reflexivity|repeat constructor; set_solver|].
    intros d ->%list_elem_of_singleton. vm_compute. reflexivity. }
  split; [done|]. exact (asyncIterator_spec _ _ Hr).
Defined.

(** Two batches, the second repeating the first's delegation. *)
Definition example_upload : delegation := share 2 "did:key:z6MkSpace" alice ["upload/add"] None.

Lemma putMany_batches_find_witness :
  @represents list_codec empty_store [] ∧
  @content_addressed list_codec ([] ++ concat [[example_grant]; [example_grant; example_upload]])%list ∧
  Forall (@cid_v1 list_codec) (concat [[example_grant]; [example_grant; example_upload]]) ∧
  collect (find (foldl putMany empty_store [[example_grant]; [example_grant; example_upload]]) alice) =
    Ok [example_grant; example_upload].
Proof.
  assert (@represents list_codec empty_store []) as Hr by (split_and!; [done|constructor|set_solver]).
  assert (@content_addressed list_codec ([] ++ concat [[example_grant]; [example_grant; example_upload]])%list)
    as Hc by (intros d1 d2 Hd1 Hd2; vm_compute in Hd1, Hd2; vm_compute;
              repeat (apply elem_of_cons in Hd1 as [->|Hd1]); repeat (apply elem_of_cons in Hd2 as [->|Hd2]);
              set_solver).
  assert (Forall (@cid_v1 list_codec) (concat [[example_grant]; [example_grant; example_upload]])) as Hv
    by (repeat constructor).
  split_and!; [done..|].
  rewrite (putMany_batches_find empty_store [] _ alice Hr Hc Hv). vm_compute. reflexivity.
Defined.

(** A codec that prints CIDs as version 0 ([Qm...]) strings, whose
    version 1 form ([bafy...]) differs. *)
Definition v0_codec : Codec := {|
  car := list delegation;
  delegations_to_bytes := id;
  bytes_to_delegations := Ok;
  cid_string n := "Qm" +:+ pretty n;
  cid_v1_string n := "bafy" +:+ pretty n;
  codec_roundtrip d := eq_refl
|}.

Definition v0_store : @store v0_codec := Store ∅ [] true.

Lemma putMany_cidv0_unreadable_witness :
  ¬ @cid_v1 v0_codec example_grant ∧ rows v0_store = [] ∧
  dags v0_store !! @key_of v0_codec example_grant = None ∧
  count (putMany v0_store [example_grant]) = 1%nat ∧
  collect (find (putMany v0_store [example_grant]) (audience example_grant)) =
    Err (JsError "Error" ("failed to read car bytes for cid " +:+ @row_cid v0_codec example_grant)).
Proof.
  assert (¬ @cid_v1 v0_codec example_grant) as Hv by (unfold cid_v1; vm_compute; discriminate).
  split_and!; [done|done|done|..];
    apply (putMany_cidv0_unreadable v0_store example_grant Hv eq_refl eq_refl).
Defined.

End Storage.
