(* ===== verification/Accounts.v ===== *)
(** * The account store ([Accounts])

    [src/unnamed/part_000], lines 220-337: accounts are rows of the D1
    table [accounts], and the delegations saved for an email are a JSON
    array of encoded delegations in a KV namespace.  A row is a map
    from column names to values, so that reading a column the row does
    not have is [undefined] ([None]).  A KV value is the array that
    [JSON.stringify] wrote; the text of a non-empty array is truthy.
    [saveDelegation] reads the array and writes it back extended; it
    is modelled atomically and as its two steps ([save_step]: the
    read, then the write), whose interleavings over several calls are
    the subject of [SaveConcurrent]. *)
From S2P Require Import Prelude Term Delegation Fixtures.
From stdpp Require Import pretty.

Module Accounts.
Import Delegation Fixtures.
Local Open Scope string_scope.

(** A row of [accounts]: column name to value. *)
Abbreviation row := (gmap string string).

(** [String.prototype.replace(pattern, replacement)] with a string
    pattern: the first occurrence is replaced. *)
Fixpoint replace_first (pat rep s : string) : string :=
  if String.prefix pat s then rep +:+ String.substring (String.length pat) (String.length s - String.length pat) s
  else match s with
       | EmptyString => EmptyString
       | String c s' => String c (replace_first pat rep s')
       end.

(** The [VoucherRedeem] capability: [with] and [nb.account],
    [nb.identity]. *)
Record voucher_redeem := VoucherRedeem { vr_with : string; vr_account : string; vr_identity : string }.

(** [Account] as [get] returns it; [undefined] fields are [None]. *)
Record account := Account {
  acc_did : option string; acc_agent : option string; acc_email : option string;
  acc_product : option string; acc_updated_at : option string; acc_inserted_at : option string
}.

Record accounts := Accounts {
  kv : gmap string (list string);  (** [this.kv]: email to its JSON array *)
  db : list row                    (** [this.db]: the table [accounts] *)
}.

(** The table's defaults: [inserted_at] and [updated_at] are set to
    the insertion time. *)
Definition db_insert (rs : list row) (data : row) (now : string) : list row :=
  (rs ++ [<["updated_at" := now]> (<["inserted_at" := now]> data)])%list.

(** [db.fetchOne({tableName: 'accounts', where: 'did=?1'})]: the first
    row with that [did]. *)
Definition fetchOne (rs : list row) (did : string) : option row :=
  head (filter (λ r, r !! "did" = Some did) rs).

Section accounts.
(** [delegationToString] of [@web3-storage/access/encoding]. *)
Context (delegationToString : delegation → string).

(** [create(capability, invocation)] (lines 248-258), at time [now]. *)
Definition create (A : accounts) (capability : voucher_redeem) (issuer now : string) : accounts :=
  Accounts (kv A)
    (db_insert (db A)
       (<["did" := vr_account capability]> (<["product" := vr_with capability]>
        (<["email" := replace_first "mailto:" "" (vr_identity capability)]>
         {["agent" := issuer]}))) now).

(** [get(did)] (lines 265-287). *)
Definition get (A : accounts) (did : string) : option account :=
  results ← fetchOne (db A) did;
  Some (Account (results !! "did") (results !! "agent") (results !! "email")
          (results !! "product") (results !! "update_at") (results !! "inserted_at")).

(** [saveDelegation(email, delegation)] (lines 295-311), its read and
    its write taken together. *)
Definition saveDelegation (A : accounts) (email : string) (d : delegation) : accounts :=
  let accs := kv A !! email in
  match accs with
  | Some accs => Accounts (<[email := (accs ++ [delegationToString d])%list]> (kv A)) (db A)
  | None => Accounts (<[email := [delegationToString d]]> (kv A)) (db A)
  end.

(** [hasDelegations(email)] (lines 318-321): [Boolean] of the stored
    text, which is non-empty for every stored array. *)
Definition hasDelegations (A : accounts) (email : string) : bool :=
  bool_decide (is_Some (kv A !! email)).

(** [getDelegations(email)] (lines 326-336): an array, even empty, is
    truthy. *)
Definition getDelegations (A : accounts) (email : string) : option (list string) :=
  kv A !! email.

(** ** [saveDelegation] as two steps

    The call awaits [kv.get] and then [kv.put]; other calls run
    between the two.  A call is at its start, has read [accs], or is
    done. *)
Inductive save_pc :=
  | SaveStart
  | SaveRead (accs : option (list string))
  | SaveDone.

#[global] Instance save_pc_eq_dec : EqDecision save_pc.
Proof. solve_decision. Defined.

(** One step of the call saving [d] under [email]. *)
Inductive save_step (email : string) (d : delegation) :
    gmap string (list string) → save_pc → gmap string (list string) → save_pc → Prop :=
  | SaveGet K : save_step email d K SaveStart K (SaveRead (K !! email))
  | SavePut K accs :
      save_step email d K (SaveRead accs)
        (<[email := match accs with Some a => (a ++ [delegationToString d])%list | None => [delegationToString d] end]> K)
        SaveDone.

End accounts.

(** ** Theorems *)

Lemma save_written (a : option (list string)) s :
  match a with Some a' => (a' ++ [s])%list | None => [s] end = (default [] a ++ [s])%list.
Proof. by destruct a. Qed.

Lemma substring_app (p x : string) m : String.substring (String.length p) m (p +:+ x) = String.substring 0 m x.
Proof. induction p as [|c p IH]; [done|]. rewrite string_app_cons. simpl. apply IH. Qed.

Lemma substring_all (x : string) : String.substring 0 (String.length x) x = x.
Proof. induction x as [|c x IH]; [done|]. simpl. by rewrite IH. Qed.

Lemma replace_first_prefix pat rep x : replace_first pat rep (pat +:+ x) = rep +:+ x.
Proof.
  destruct pat as [|c p].
  - rewrite string_app_nil. destruct x as [|c x]; cbn [replace_first String.prefix]; [done|].
    by rewrite Nat.sub_0_r, substring_all.
  - rewrite string_app_cons. cbn [replace_first]. rewrite <-(string_app_cons c p x), string_prefix_app.
    f_equal. rewrite string_app_length.
    replace (String.length (String c p) + String.length x - String.length (String c p))
      with (String.length x) by lia. by rewrite substring_app, substring_all.
Qed.

(** ** Progress of a call *)

(** The steps a call has left. *)
Definition pc_rank (p : save_pc) : nat :=
  match p with SaveStart => 2 | SaveRead _ => 1 | SaveDone => 0 end.

Lemma save_step_rank f email d K p K' p' : save_step f email d K p K' p' → pc_rank p' < pc_rank p.
Proof. by inversion 1; simpl; lia. Qed.

(** A call that is not done can always take its next step. *)
Lemma save_step_progress f email d K p : p ≠ SaveDone → ∃ K' p', save_step f email d K p K' p'.
Proof. destruct p as [|a|]; [..|done]; intros _; eexists _, _; constructor. Qed.

Section theorems.
Context (delegationToString : delegation → string).

(** C11: [create] followed by [get] of the new account's DID returns
    the account as inserted, its email the identity without
    ["mailto:"], its [inserted_at] the insertion time, and its
    [updated_at] always [undefined]: [get] reads the column
    [update_at], which the row does not have. *)
Theorem get_after_create A cap issuer now email :
  fetchOne (db A) (vr_account cap) = None →
  vr_identity cap = "mailto:" +:+ email →
  get (create A cap issuer now) (vr_account cap) =
    Some (Account (Some (vr_account cap)) (Some issuer) (Some email) (Some (vr_with cap)) None (Some now)).
Proof.
  intros Hnone Hid. unfold get, fetchOne, create, db_insert in *. cbn [db].
  destruct (filter _ (db A)) eqn:Hf; [|done]. rewrite filter_app, Hf. simpl.
  rewrite filter_cons_True by (by simplify_map_eq). simpl.
  rewrite Hid, replace_first_prefix, string_app_nil. by simplify_map_eq.
Qed.

(** C26: [saveDelegation] appends the encoded delegation to the array
    saved for the email (a new array when there is none), after which
    [hasDelegations] holds and [getDelegations] returns it; the other
    emails are untouched. *)
Theorem saveDelegation_spec A email d :
  getDelegations (saveDelegation delegationToString A email d) email =
    Some (default [] (getDelegations A email) ++ [delegationToString d])%list ∧
  hasDelegations (saveDelegation delegationToString A email d) email = true ∧
  ∀ e', e' ≠ email →
    getDelegations (saveDelegation delegationToString A email d) e' = getDelegations A e'.
Proof.
  unfold getDelegations, hasDelegations, saveDelegation.
  destruct (kv A !! email) eqn:He; cbn [kv]; (split_and!; [by rewrite lookup_insert_eq|
    by rewrite lookup_insert_eq|intros e' Hne; by rewrite lookup_insert_ne]).
Qed.

End theorems.

(** ** Witnesses *)

Definition alice_voucher : voucher_redeem :=
  VoucherRedeem "did:web:web3.storage" (from_email "alice" "web.mail") "mailto:alice@web.mail".

Lemma get_after_create_witness :
  fetchOne [] (vr_account alice_voucher) = None ∧ vr_identity alice_voucher = "mailto:" +:+ "alice@web.mail" ∧
  get (create (Accounts ∅ []) alice_voucher alice "2024-01-01") (vr_account alice_voucher) =
    Some (Account (Some (vr_account alice_voucher)) (Some alice) (Some "alice@web.mail")
            (Some (vr_with alice_voucher)) None (Some "2024-01-01")).
Proof.
  split_and!; [reflexivity|reflexivity|].
  exact (get_after_create (Accounts ∅ []) alice_voucher alice "2024-01-01" "alice@web.mail" eq_refl eq_refl).
Defined.

(** Delegations encoded by their CID. *)
Definition cid_text (d : delegation) : string := pretty (cid d).

End Accounts.
