(* ===== verification/SaveConcurrent.v ===== *)
(** * Any number of concurrent [saveDelegation] calls

    [Accounts.saveDelegation] (src/unnamed/part_000, lines 295-311)
    awaits [kv.get] and then [kv.put]; a worker may run any number of
    calls on the same email at once.  The calls are a list of threads,
    each a delegation with its position in the call ([save_pc] of
    [Accounts]), and [stepN] lets any thread take the step [save_step]
    of [Accounts].  The array left for the email is always the one
    before followed by the encodings of some of the calls, each at most
    once, in some order: [w ⊆+ f <$> ds], and every such non-empty
    [w] is the outcome of some schedule.  Termination of the steps (by
    a rank each step lowers) gives a run where every call finishes,
    which the witnesses use. *)
From S2P Require Import Prelude Delegation Fixtures Accounts.

Module SaveConcurrent.
Import Delegation Fixtures Accounts.

Section concurrent.
(** [delegationToString] and the email all the calls save under. *)
Context (delegationToString : delegation → string) (email : string).

(** The KV namespace and the calls in flight. *)
Abbreviation state := (gmap string (list string) * list (delegation * save_pc))%type.

(** One step of one of the calls. *)
Inductive stepN : state → state → Prop :=
  | StepN K ts i d p K' p' :
      ts !! i = Some (d, p) → save_step delegationToString email d K p K' p' →
      stepN (K, ts) (K', <[i := (d, p')]> ts).

(** The calls saving [ds], none started. *)
Definition start (ds : list delegation) : list (delegation * save_pc) := (λ d, (d, SaveStart)) <$> ds.

Definition all_done (ts : list (delegation * save_pc)) : Prop := Forall (λ t, t.2 = SaveDone) ts.

(** The encodings the finished calls have written. *)
Definition written (ts : list (delegation * save_pc)) : list string :=
  omap (λ t, if decide (t.2 = SaveDone) then Some (delegationToString t.1) else None) ts.

(** The steps the calls have left. *)
Definition rankN (x : state) : nat := sum_list_with (λ t, pc_rank t.2) x.2.

Section invariant.
Context (K0 : gmap string (list string)).

Local Abbreviation o := (default [] (K0 !! email)).

(** An array read by a call: the initial one, or the initial one
    followed by some of the written encodings. *)
Definition from_old (a : option (list string)) (D : list string) : Prop :=
  a = K0 !! email ∨ ∃ w, a = Some (o ++ w)%list ∧ w ⊆+ D.

(** Other emails are untouched; the email's array is the initial one
    while no call has finished, and after that the initial one followed
    by a non-empty selection of the written encodings; every pending
    read saw such an array. *)
Definition inv (x : state) : Prop :=
  (∀ e', e' ≠ email → x.1 !! e' = K0 !! e') ∧
  ((written x.2 = [] ∧ x.1 !! email = K0 !! email) ∨
   ∃ w, x.1 !! email = Some (o ++ w)%list ∧ w ≠ [] ∧ w ⊆+ written x.2) ∧
  (∀ i d a, x.2 !! i = Some (d, SaveRead a) → from_old a (written x.2)).

Lemma from_old_mono a D D' : from_old a D → D ⊆+ D' → from_old a D'.
Proof. intros [->|(w & -> & Hw)] HD; [by left|right]. exists w. split; [done|]. by etrans. Qed.

(** What a finishing call writes extends what it read by its own
    encoding. *)
Lemma from_old_write a D s :
  from_old a D → ∃ w, Some (default [] a ++ [s])%list = Some (o ++ w)%list ∧ w ≠ [] ∧ w ⊆+ s :: D.
Proof.
  intros [->|(w & -> & Hw)].
  - exists [s]. split_and!; [done|done|]. apply submseteq_skip, submseteq_nil_l.
  - exists (w ++ [s])%list. simpl. rewrite <-app_assoc. split_and!; [done|by destruct w|].
    rewrite Permutation_app_comm. by apply submseteq_skip.
Qed.
End invariant.

Lemma written_start ds : written (start ds) = [].
Proof. induction ds; simpl; [done|]. by rewrite ?decide_False. Qed.

(** A read leaves the written encodings as they are; a write adds the
    writer's. *)
Lemma written_read ts i d p p' :
  ts !! i = Some (d, p) → p ≠ SaveDone → p' ≠ SaveDone → written (<[i := (d, p')]> ts) = written ts.
Proof. intros Hi Hp Hp'. apply (omap_insert_same _ _ _ _ _ Hi). simpl. by rewrite !decide_False. Qed.

Lemma written_write ts i d p :
  ts !! i = Some (d, p) → p ≠ SaveDone →
  written (<[i := (d, SaveDone)]> ts) ≡ₚ delegationToString d :: written ts.
Proof.
  intros Hi Hp. apply (omap_insert_new _ _ _ _ _ _ Hi); simpl; [by rewrite decide_False|done].
Qed.

Lemma written_all_done ts : all_done ts → written ts = delegationToString <$> (fst <$> ts).
Proof. induction 1 as [|t ts Ht _ IH]; simpl; [done|]. by rewrite decide_True, IH. Qed.

Lemma inv_start K0 ds : inv K0 (K0, start ds).
Proof.
  unfold inv; cbn [fst snd]. split_and!; [done|left; by rewrite written_start|].
  intros i d a Hi. cbn [snd] in Hi. unfold start in Hi. apply list_lookup_fmap_Some in Hi as (? & [=] & _).
Qed.

(** Every step keeps the invariant. *)
Lemma inv_step K0 x y : inv K0 x → stepN x y → inv K0 y.
Proof.
  intros (Hoth & Hcur & Hrd) Hs. inversion Hs as [K ts i d p K' p' Hi Hst]; subst.
  unfold inv; cbn [fst snd] in *.
  inversion Hst as [K2|K2 a]; subst.
  - rewrite (written_read _ _ _ _ _ Hi) by done. split_and!; [done|done|].
    intros j d' a' Hj. destruct (decide (j = i)) as [->|Hne].
    + rewrite list_lookup_insert_eq in Hj by (by eapply lookup_lt_Some). injection Hj as <- <-.
      destruct Hcur as [[_ ->]|(w & -> & _ & Hw)]; [by left|right; eauto].
    + rewrite list_lookup_insert_ne in Hj by done. by apply (Hrd j d').
  - pose proof (written_write _ _ _ _ Hi ltac:(done)) as Hw.
    destruct (from_old_write K0 _ _ (delegationToString d) (Hrd i d a Hi)) as (w & Hwr & Hne & Hsub).
    split_and!.
    + intros e' He'. rewrite lookup_insert_ne by done. auto.
    + right. exists w. rewrite lookup_insert_eq, save_written, <-Hwr. split_and!; [done|done|by rewrite Hw].
    + intros j d' a' Hj. destruct (decide (j = i)) as [->|Hji].
      * rewrite list_lookup_insert_eq in Hj by (by eapply lookup_lt_Some). done.
      * rewrite list_lookup_insert_ne in Hj by done. eapply from_old_mono; [by eapply Hrd|].
        rewrite Hw. by apply submseteq_cons.
Qed.

Lemma inv_steps K0 x y : rtc stepN x y → inv K0 x → inv K0 y.
Proof. induction 1; eauto using inv_step. Qed.

(** The calls keep their delegations. *)
Lemma stepN_calls x y : stepN x y → fst <$> y.2 = fst <$> x.2.
Proof.
  inversion 1 as [K ts i d p K' p' Hi _]; subst. cbn [snd].
  rewrite list_fmap_insert. simpl. apply list_insert_id. by rewrite list_lookup_fmap, Hi.
Qed.

Lemma stepN_calls_rtc x y : rtc stepN x y → fst <$> y.2 = fst <$> x.2.
Proof. induction 1 as [|x z y Hs _ IH]; [done|]. by rewrite IH, (stepN_calls _ _ Hs). Qed.

Lemma fst_start ds : fst <$> start ds = ds.
Proof. unfold start. rewrite <-list_fmap_compose. apply list_fmap_id. Qed.

(** ** Termination and progress *)

Lemma stepN_rank x y : stepN x y → rankN y < rankN x.
Proof.
  inversion 1 as [K ts i d p K' p' Hi Hs]; subst. apply save_step_rank in Hs. unfold rankN. cbn [snd].
  pose proof (sum_list_with_insert (λ t, pc_rank t.2) ts i (d, p) (d, p') Hi). simpl in *. lia.
Qed.

(** The calls are stuck exactly when all are done. *)
Lemma stepN_nf K ts : nf stepN (K, ts) ↔ all_done ts.
Proof.
  split.
  - intros Hnf. unfold all_done. apply Forall_lookup. intros i [d p] Hi. simpl. destruct (decide (p = SaveDone)) as [|Hp]; [done|].
    destruct (save_step_progress delegationToString email d K p Hp) as (K' & p' & Hs).
    exfalso. apply Hnf. eexists. by eapply StepN.
  - intros Hall [y Hy]. inversion Hy as [? ? i d p ? ? Hi Hs]; subst.
    unfold all_done in Hall. rewrite Forall_lookup in Hall. specialize (Hall i _ Hi). simpl in Hall. subst. inversion Hs.
Qed.

Lemma stepN_red_or_nf x : red stepN x ∨ nf stepN x.
Proof.
  destruct x as [K ts]. rewrite stepN_nf. unfold all_done.
  destruct (decide (Forall (λ t, t.2 = SaveDone) ts)) as [|Hn]; [by right|left].
  apply not_Forall_Exists in Hn; [|apply _]. apply Exists_exists in Hn as ([d p] & Hin & Hp).
  apply list_elem_of_lookup in Hin as [i Hi].
  destruct (save_step_progress delegationToString email d K p Hp) as (K' & p' & Hs).
  eexists. by eapply StepN.
Qed.

Lemma stepN_sn x : sn stepN x.
Proof. apply (measure_sn _ rankN), stepN_rank. Qed.

(** The calls can all finish. *)
Lemma stepN_finish K0 ds : ∃ K ts, rtc stepN (K0, start ds) (K, ts) ∧ all_done ts.
Proof.
  destruct (sn_nf_exists _ (K0, start ds) stepN_red_or_nf (stepN_sn _)) as ([K ts] & Hr & Hnf).
  apply stepN_nf in Hnf. eauto.
Qed.

(** Once all the calls are done: the other emails' arrays are
    untouched, and the email's array is the initial one (no call) or
    the initial one followed by a non-empty selection of the calls'
    encodings, each at most once. *)
Lemma save_final K0 ds K ts :
  rtc stepN (K0, start ds) (K, ts) → all_done ts →
  (∀ e', e' ≠ email → K !! e' = K0 !! e') ∧
  ((ds = [] ∧ K !! email = K0 !! email) ∨
   ∃ w, K !! email = Some (default [] (K0 !! email) ++ w)%list ∧ w ≠ [] ∧ w ⊆+ delegationToString <$> ds).
Proof.
  intros Hr Hall. pose proof (inv_steps K0 _ _ Hr (inv_start K0 ds)) as (Hoth & Hcur & _).
  pose proof (stepN_calls_rtc _ _ Hr) as Hds. cbn [fst snd] in *. rewrite fst_start in Hds.
  rewrite (written_all_done _ Hall), Hds in Hcur. split; [done|].
  destruct Hcur as [[Hw ->]|Hw]; [left|by right]. split; [|done]. by apply fmap_nil_inv in Hw.
Qed.

(** ** Schedules

    The order of the calls in the list does not matter, and steps of
    some calls are steps of any list holding them. *)
Lemma stepN_perm K ts K' us ts' :
  stepN (K, ts) (K', us) → ts ≡ₚ ts' → ∃ us', stepN (K, ts') (K', us') ∧ us ≡ₚ us'.
Proof.
  inversion 1 as [? ? i d p ? p' Hi Hs]; subst. intros Hp.
  destruct (Permutation_insert_lookup _ _ i _ (d, p') Hi Hp) as (j & Hj & Hp').
  exists (<[j:=(d, p')]> ts'). split; [by eapply StepN|done].
Qed.

Lemma stepN_perm_rtc K ts K' us ts' :
  rtc stepN (K, ts) (K', us) → ts ≡ₚ ts' → ∃ us', rtc stepN (K, ts') (K', us') ∧ us ≡ₚ us'.
Proof.
  intros Hr. remember (K, ts) as x eqn:Hx. remember (K', us) as y eqn:Hy.
  revert K ts ts' Hx. induction Hr as [x|x [K1 ts1] y Hs _ IH]; intros K ts ts' -> Hp; simplify_eq.
  - exists ts'. split; [apply rtc_refl|done].
  - destruct (stepN_perm _ _ _ _ _ Hs Hp) as (us1 & Hs' & Hp1).
    destruct (IH eq_refl K1 ts1 us1 eq_refl Hp1) as (us' & Hr' & Hp').
    exists us'. split; [by eapply rtc_l|done].
Qed.

Lemma stepN_frame K ts K' us pre post :
  stepN (K, ts) (K', us) → stepN (K, pre ++ ts ++ post) (K', pre ++ us ++ post).
Proof.
  inversion 1 as [? ? i d p ? p' Hi Hs]; subst. pose proof (lookup_lt_Some _ _ _ Hi).
  replace (pre ++ <[i:=(d, p')]> ts ++ post) with (<[length pre + i := (d, p')]> (pre ++ ts ++ post)).
  - apply StepN with p; [|done]. by rewrite lookup_app_r, lookup_app_l, Nat.add_sub' by lia.
  - by rewrite insert_app_r_alt, Nat.add_sub', insert_app_l by lia.
Qed.

Lemma stepN_frame_rtc K ts K' us pre post :
  rtc stepN (K, ts) (K', us) → rtc stepN (K, pre ++ ts ++ post) (K', pre ++ us ++ post).
Proof.
  intros Hr. remember (K, ts) as x eqn:Hx. remember (K', us) as y eqn:Hy.
  revert K ts Hx. induction Hr as [x|x [K1 ts1] y Hs _ IH]; intros K ts ->; simplify_eq; [apply rtc_refl|].
  eapply rtc_l; [by apply stepN_frame|]. by apply IH.
Qed.

(** The calls saving [ds], each having read [a] / done. *)
Definition reads (a : option (list string)) (ds : list delegation) : list (delegation * save_pc) :=
  (λ d, (d, SaveRead a)) <$> ds.
Definition dones (ds : list delegation) : list (delegation * save_pc) := (λ d, (d, SaveDone)) <$> ds.

Lemma all_done_dones ds : all_done (dones ds).
Proof. apply Forall_fmap, Forall_true. done. Qed.

(** All the calls read the same array. *)
Lemma read_all K ds : rtc stepN (K, start ds) (K, reads (K !! email) ds).
Proof.
  induction ds as [|d ds IH]; [apply rtc_refl|].
  eapply rtc_l; [apply (StepN K _ 0 d SaveStart); [done|constructor]|]. simpl.
  apply (stepN_frame_rtc _ _ _ _ [(d, SaveRead (K !! email))] []) in IH. by rewrite !app_nil_r in IH.
Qed.

(** The calls that have read write one after the other. *)
Lemma write_all K a ds : ∃ K', rtc stepN (K, reads a ds) (K', dones ds).
Proof.
  revert K. induction ds as [|d ds IH]; intros K; [eexists; apply rtc_refl|].
  destruct (IH (<[email := match a with Some a' => (a' ++ [delegationToString d])%list
                                      | None => [delegationToString d] end]> K)) as [K' HK'].
  exists K'. eapply rtc_l; [apply (StepN K _ 0 d (SaveRead a)); [done|constructor]|]. simpl.
  apply (stepN_frame_rtc _ _ _ _ [(d, SaveDone)] []) in HK'. by rewrite !app_nil_r in HK'.
Qed.

(** Calls run one after the other append their encodings in order. *)
Lemma run_sequential K ds :
  ∃ K', rtc stepN (K, start ds) (K', dones ds) ∧
    K' !! email = match ds with [] => K !! email
                  | _ => Some (default [] (K !! email) ++ (delegationToString <$> ds))%list end.
Proof.
  revert K. induction ds as [|d ds IH]; intros K; [eexists; split; [apply rtc_refl|done]|].
  set (K1 := <[email := (default [] (K !! email) ++ [delegationToString d])%list]> K).
  destruct (IH K1) as (K' & Hr & HK'). exists K'. split.
  - eapply rtc_l; [apply (StepN K _ 0 d SaveStart); [done|constructor]|].
    eapply rtc_l; [apply (StepN K _ 0 d (SaveRead (K !! email))); [done|constructor]|]. simpl.
    rewrite save_written. apply (stepN_frame_rtc _ _ _ _ [(d, SaveDone)] []) in Hr. by rewrite !app_nil_r in Hr.
  - rewrite HK'. unfold K1. destruct ds; rewrite lookup_insert_eq; [done|]. simpl. by rewrite <-app_assoc.
Qed.

(** Every non-empty selection of the calls' encodings, in any order,
    is the outcome of some schedule: the calls left out and the first
    selected read the initial array, those left out write, then the
    first selected, then the other selected calls run one after the
    other. *)
Lemma save_reachable K0 ds w :
  w ≠ [] → w ⊆+ delegationToString <$> ds →
  ∃ K ts, rtc stepN (K0, start ds) (K, ts) ∧ all_done ts ∧
    K !! email = Some (default [] (K0 !! email) ++ w)%list.
Proof.
  intros Hne Hsub. apply submseteq_Permutation in Hsub as [k Hk]. symmetry in Hk.
  apply Permutation_fmap_inv in Hk as (l & Hl & Hp). symmetry in Hl. apply fmap_app_inv in Hl as (dw & dk & -> & -> & ->).
  destruct dw as [|d0 dw]; [done|].
  (* the first selected call and those left out read *)
  assert (rtc stepN (K0, start ((d0 :: dw) ++ dk))
            (K0, [(d0, SaveRead (K0 !! email))] ++ start dw ++ reads (K0 !! email) dk)) as H1.
  { eapply rtc_l; [apply (StepN K0 _ 0 d0 SaveStart); [done|constructor]|]. simpl.
    unfold start at 1. rewrite fmap_app. pose proof (read_all K0 dk) as Hr.
    apply (stepN_frame_rtc _ _ _ _ ((d0, SaveRead (K0 !! email)) :: start dw) []) in Hr.
    by rewrite !app_nil_r in Hr. }
  (* those left out write *)
  destruct (write_all K0 (K0 !! email) dk) as [K1 H2].
  apply (stepN_frame_rtc _ _ _ _ ([(d0, SaveRead (K0 !! email))] ++ start dw) []) in H2.
  rewrite !app_nil_r, <-!app_assoc in H2.
  (* the first selected call writes *)
  set (K2 := <[email := (default [] (K0 !! email) ++ [delegationToString d0])%list]> K1).
  assert (stepN (K1, [(d0, SaveRead (K0 !! email))] ++ start dw ++ dones dk)
                (K2, [(d0, SaveDone)] ++ start dw ++ dones dk)) as H3.
  { unfold K2. rewrite <-save_written.
    exact (StepN K1 ([(d0, SaveRead (K0 !! email))] ++ start dw ++ dones dk) 0 d0 (SaveRead (K0 !! email))
             _ SaveDone eq_refl ltac:(constructor)). }
  (* the other selected calls run one after the other *)
  destruct (run_sequential K2 dw) as (K3 & H4 & HK3).
  apply (stepN_frame_rtc _ _ _ _ [(d0, SaveDone)] (dones dk)) in H4.
  destruct (stepN_perm_rtc K0 _ K3 _ (start ds) (rtc_trans _ _ _ H1 (rtc_trans _ _ _ H2 (rtc_l _ _ _ _ H3 H4))))
    as (us & Hr & Hus); [unfold start; by rewrite <-Hp|].
  exists K3, us. split_and!; [done| |].
  - unfold all_done. rewrite <-Hus.
    apply Forall_app_2; [by repeat constructor|apply Forall_app_2; apply all_done_dones].
  - rewrite HK3. unfold K2. destruct dw; rewrite lookup_insert_eq; simpl; [done|by rewrite <-app_assoc].
Qed.
End concurrent.

(** One step of call [i] of a concrete list of calls. *)
Ltac call_step i :=
  eapply rtc_l; [eapply (StepN _ _ _ _ i); [reflexivity|constructor]|]; cbn [list_insert].

Section theorems.
Context (delegationToString : delegation → string) (email : string).

(** C22: However the steps of any number of concurrent [saveDelegation]
    calls on one email interleave, once all are done the other emails'
    arrays are untouched and the email's array is the one before
    followed by the encodings of a non-empty selection of the calls,
    each at most once, in some order (or unchanged when there was no
    call): a call's delegation may be lost, never duplicated or
    invented. *)
Theorem save_concurrent_interleavings K0 ds K ts :
  rtc (stepN delegationToString email) (K0, start ds) (K, ts) → all_done ts →
  (∀ e', e' ≠ email → K !! e' = K0 !! e') ∧
  ((ds = [] ∧ K !! email = K0 !! email) ∨
   ∃ w, K !! email = Some (default [] (K0 !! email) ++ w)%list ∧ w ≠ [] ∧ w ⊆+ delegationToString <$> ds).
Proof. exact (save_final delegationToString email K0 ds K ts). Qed.

(** C23: The outcomes of concurrent [saveDelegation] calls, exactly: for
    one call or more, the arrays some schedule leaves once all are done
    are the one before followed by [w], for exactly the non-empty [w]
    that select encodings of the calls, each at most once, in any
    order. *)
Theorem save_concurrent_outcomes K0 ds w :
  ds ≠ [] →
  (∃ K ts, rtc (stepN delegationToString email) (K0, start ds) (K, ts) ∧ all_done ts ∧
     K !! email = Some (default [] (K0 !! email) ++ w)%list) ↔
  w ≠ [] ∧ w ⊆+ delegationToString <$> ds.
Proof.
  intros Hds. split; [|intros [Hne Hsub]; by apply save_reachable].
  intros (K & ts & Hr & Hd & HK). destruct (save_final delegationToString email K0 ds K ts Hr Hd)
    as [_ [[? _]|(w' & HK' & Hne & Hsub)]]; [done|].
  rewrite HK in HK'. injection HK' as Hw%app_inv_head. by subst.
Qed.

(** C10: The read-modify-write of [saveDelegation] is not atomic: of
    two calls, run one after the other they leave the two saves in
    sequence, but when both read before either writes the first call's
    delegation is lost. *)
Theorem save_lost_update K0 rows d1 d2 :
  (∃ K ts, rtc (stepN delegationToString email) (K0, start [d1; d2]) (K, ts) ∧ all_done ts ∧
     K = kv (saveDelegation delegationToString
               (saveDelegation delegationToString (Accounts K0 rows) email d1) email d2)) ∧
  (∃ K ts, rtc (stepN delegationToString email) (K0, start [d1; d2]) (K, ts) ∧ all_done ts ∧
     K !! email = Some (default [] (K0 !! email) ++ [delegationToString d2])%list).
Proof.
  split; do 2 eexists; split_and!.
  - call_step 0. call_step 0. call_step 1. call_step 1. apply rtc_refl.
  - by repeat constructor.
  - rewrite lookup_insert_eq. unfold saveDelegation. cbn [kv].
    destruct (K0 !! email); cbn [kv]; by rewrite lookup_insert_eq.
  - call_step 0. call_step 1. call_step 0. call_step 1. apply rtc_refl.
  - by repeat constructor.
  - rewrite lookup_insert_eq, save_written. done.
Qed.
End theorems.

(** ** Witnesses *)

(** Three calls can leave the third delegation then the first. *)
Lemma save_concurrent_outcomes_witness :
  [share 1 alice bob ["store/add"] None; share 2 alice bob ["upload/add"] None;
   share 3 alice bob ["upload/list"] None] ≠ [] ∧
  ((∃ K ts, rtc (stepN cid_text "mailto:alice@web.mail") (∅, start [share 1 alice bob ["store/add"] None;
              share 2 alice bob ["upload/add"] None; share 3 alice bob ["upload/list"] None]) (K, ts) ∧
      all_done ts ∧
      K !! "mailto:alice@web.mail" =
        Some (default [] ((∅ : gmap string (list string)) !! "mailto:alice@web.mail") ++ ["3"; "1"])%list) ↔
   ["3"; "1"] ≠ [] ∧ ["3"; "1"] ⊆+ ["1"; "2"; "3"]).
Proof. split; [done|]. by apply save_concurrent_outcomes. Defined.

Lemma save_concurrent_interleavings_witness :
  ∃ K ts, rtc (stepN cid_text "mailto:alice@web.mail") (∅, start [share 1 alice bob ["store/add"] None;
              share 2 alice bob ["upload/add"] None; share 3 alice bob ["upload/list"] None]) (K, ts) ∧
    all_done ts ∧
    (∀ e', e' ≠ "mailto:alice@web.mail" → K !! e' = (∅ : gmap string (list string)) !! e') ∧
    (([share 1 alice bob ["store/add"] None; share 2 alice bob ["upload/add"] None;
       share 3 alice bob ["upload/list"] None] = [] ∧
      K !! "mailto:alice@web.mail" = (∅ : gmap string (list string)) !! "mailto:alice@web.mail") ∨
     ∃ w, K !! "mailto:alice@web.mail" =
            Some (default [] ((∅ : gmap string (list string)) !! "mailto:alice@web.mail") ++ w)%list ∧
          w ≠ [] ∧ w ⊆+ ["1"; "2"; "3"]).
Proof.
  destruct (stepN_finish cid_text "mailto:alice@web.mail" ∅ [share 1 alice bob ["store/add"] None;
              share 2 alice bob ["upload/add"] None; share 3 alice bob ["upload/list"] None]) as (K & ts & Hr & Hd).
  exists K, ts. split_and!; [done|done|..];
    destruct (save_concurrent_interleavings cid_text _ _ _ _ _ Hr Hd) as [H1 H2]; [exact H1|exact H2].
Defined.
End SaveConcurrent.
