(* ===== verification/AccountStore.v ===== *)
(** * The account store interface

    Spec section 6 names the account store the service consumes:
    [create], [get], [saveDelegation], [hasDelegations] and
    [getDelegations].  [AccountStore] is that interface as a class and
    [AccountStoreSpec] its contract for the delegations saved per
    email; a client that saves a batch of delegations one call after
    the other is proved against the contract alone ([save_all_get]),
    and [Accounts] of src/unnamed/part_000 discharges it
    ([accounts_store_spec]).  The last part ties the two models of
    [saveDelegation]: calls run one after the other through their
    read and write steps ([SaveConcurrent.stepN]) leave what the
    atomic calls leave ([sequential_refines_atomic]). *)
From S2P Require Import Prelude Delegation Accounts SaveConcurrent.

Module AccountStore.
Import Delegation Accounts SaveConcurrent.

(** The operations of the account store. *)
Class AccountStore (S : Type) := {
  store_create : S → voucher_redeem → string → string → S;
  store_get : S → string → option account;
  store_saveDelegation : S → string → delegation → S;
  store_hasDelegations : S → string → bool;
  store_getDelegations : S → string → option (list string)
}.

(** What a client may rely on, for an encoding [enc] of delegations:
    a save appends the encoding to the email's array, other emails are
    untouched, [hasDelegations] tells whether there is an array, and
    creating an account saves no delegation. *)
Class AccountStoreSpec (S : Type) `{AccountStore S} (enc : delegation → string) := {
  spec_save_get s e d :
    store_getDelegations (store_saveDelegation s e d) e = Some (default [] (store_getDelegations s e) ++ [enc d])%list;
  spec_save_other s e d e' :
    e' ≠ e → store_getDelegations (store_saveDelegation s e d) e' = store_getDelegations s e';
  spec_has s e : store_hasDelegations s e = bool_decide (is_Some (store_getDelegations s e));
  spec_create s cap issuer now e : store_getDelegations (store_create s cap issuer now) e = store_getDelegations s e
}.

(** ** A client: saving a batch, one call after the other *)

Definition save_all {S} `{AccountStore S} (s : S) (e : string) (ds : list delegation) : S :=
  foldl (λ s d, store_saveDelegation s e d) s ds.

Section client.
Context {S : Type} `{AccountStoreSpec S enc}.

(** The batch is appended in order, and other emails are untouched. *)
Lemma save_all_get s e ds :
  store_getDelegations (save_all s e ds) e =
    match ds with [] => store_getDelegations s e
    | _ => Some (default [] (store_getDelegations s e) ++ (enc <$> ds))%list end ∧
  ∀ e', e' ≠ e → store_getDelegations (save_all s e ds) e' = store_getDelegations s e'.
Proof.
  revert s. induction ds as [|d ds IH]; intros s; [done|].
  change (save_all s e (d :: ds)) with (save_all (store_saveDelegation s e d) e ds).
  destruct (IH (store_saveDelegation s e d)) as [IH1 IH2]. split.
  - rewrite IH1, spec_save_get. destruct ds; [done|]. simpl. by rewrite <-app_assoc.
  - intros e' He'. by rewrite IH2, spec_save_other.
Qed.

(** After a non-empty batch the email has delegations. *)
Lemma save_all_has s e ds : ds ≠ [] → store_hasDelegations (save_all s e ds) e = true.
Proof.
  intros Hds. rewrite spec_has, (proj1 (save_all_get s e ds)). apply bool_decide_eq_true. by destruct ds.
Qed.
End client.

(** ** [Accounts] implements the interface *)

Section accounts.
Context (delegationToString : delegation → string).

#[local] Instance accounts_store : AccountStore accounts := {
  store_create := create;
  store_get := get;
  store_saveDelegation := saveDelegation delegationToString;
  store_hasDelegations := hasDelegations;
  store_getDelegations := getDelegations
}.

Lemma accounts_store_spec : AccountStoreSpec accounts delegationToString.
Proof.
  split; cbn.
  - intros A e d. unfold getDelegations, saveDelegation. by destruct (kv A !! e); cbn [kv]; rewrite lookup_insert_eq.
  - intros A e d e' He'. unfold getDelegations, saveDelegation. by destruct (kv A !! e); cbn [kv]; rewrite lookup_insert_ne.
  - done.
  - done.
Qed.

(** ** The step model refines the atomic one *)

(** Calls run one after the other through their steps leave what the
    atomic calls leave. *)
Lemma sequential_refines_atomic A e ds :
  ∃ K', rtc (stepN delegationToString e) (kv A, start ds) (K', dones ds) ∧
    K' !! e = getDelegations (save_all A e ds) e.
Proof.
  destruct (run_sequential delegationToString e (kv A) ds) as (K' & Hr & HK').
  exists K'. split; [done|]. rewrite HK'.
  symmetry. exact (proj1 (save_all_get (H0 := accounts_store_spec) A e ds)).
Qed.
End accounts.

End AccountStore.
