(* ===== verification/Pipeline.v ===== *)
(** * From the delegation store to the authorization query

    Spec section 4 places all storage work before the engine: the
    delegations are read from the store, then projected into facts
    ([DB.from]), and a query session is a pure function of that
    snapshot.  This file composes the two components: the store of
    src/unnamed/part_000 ([Storage.putMany], [Storage.find],
    [Storage.asyncIterator]) and [Authorization.find] of
    src/packages/w3up-client/src/authorization/query.js.  Its theorem
    is stated on the composition and proved only from each component's
    lemmas: the refinement of the store ([ds_putMany_batches],
    [asyncIterator_represents], [find_represents]), the abstraction of
    [put_abs] as the set of the delegations put, and the invariance of
    the query under a snapshot with the same elements
    ([find_same_elems]). *)
From S2P Require Import Prelude Clause Delegation Fixtures Query Authorization Storage.

Module Pipeline.
Import Clause Delegation Fixtures Query Storage.

Section pipeline.
Context `{Codec}.

Lemma content_addressed_sub l1 l2 : l1 ⊆ l2 → content_addressed l2 → content_addressed l1.
Proof. intros Hsub Hca d1 d2 ???. apply Hca; auto. Qed.

(** Up to order and duplicates, [put_abs] keeps every delegation put:
    one skipped for its CID is equal to the stored one. *)
Lemma put_abs_same_elems D ds : content_addressed (D ++ ds)%list → put_abs D ds ≡ₛ (D ++ ds)%list.
Proof.
  revert D. induction ds as [|d ds IH]; intros D Hca; simpl; [by rewrite app_nil_r|].
  case_decide as Hin.
  - rewrite IH by (eapply content_addressed_sub; [|done]; set_solver).
    apply list_elem_of_fmap in Hin as (d' & Hcid & Hd').
    assert (d = d') as -> by (apply Hca; set_solver).
    split; set_solver.
  - rewrite IH by (eapply content_addressed_sub; [|done]; set_solver).
    by rewrite <-app_assoc.
Qed.

Lemma put_abs_batches_same_elems D bss :
  content_addressed (D ++ concat bss)%list → foldl put_abs D bss ≡ₛ (D ++ concat bss)%list.
Proof.
  revert D. induction bss as [|ds bss IH]; intros D Hca; simpl; [by rewrite app_nil_r|].
  rewrite IH.
  - rewrite put_abs_same_elems by (eapply content_addressed_sub; [|done]; set_solver).
    by rewrite app_assoc.
  - eapply content_addressed_sub; [|done].
    intros x [Hx%elem_of_put_abs|Hx]%elem_of_app; set_solver.
Qed.

(** [putMany] leaves the database's streaming capability alone. *)
Lemma canStream_putMany_batches st bss : canStream (foldl putMany st bss) = canStream st.
Proof.
  revert st. induction bss as [|ds bss IH]; intros st; [done|]. simpl. rewrite IH. by destruct ds.
Qed.

Lemma represents_putMany_batches st D bss :
  represents st D → content_addressed (D ++ concat bss)%list → Forall cid_v1 (concat bss) →
  represents (foldl putMany st bss) (foldl put_abs D bss).
Proof. exact (ds_putMany_batches st D bss). Qed.
End pipeline.

(** ** The composed theorem *)

Section theorems.
Context `{Codec}.

(** C14: Storing then authorizing: from a store holding [D], after
      [putMany] of the batches [bss] (content-addressed, version 1
      CIDs), the snapshot read back, by the async iterator or by
      [find({audience})], gives [Authorization.find] the same
      authorizations as the delegations put themselves: the iterator
      yields, without error when the database streams (otherwise it
      throws [NotImplementedError]), a list with the elements of [D]
      and the batches, and [find({audience})] those of them to the
      audience; the query over either snapshot succeeds or fails as
      the query over the delegations put, with the same set of
      authorizations. *)
Theorem store_then_find st D bss aud sel now :
    represents st D → content_addressed (D ++ concat bss)%list → Forall cid_v1 (concat bss) →
    ∃ D', D' ≡ₛ (D ++ concat bss)%list ∧
      collect (asyncIterator (foldl putMany st bss)) =
        (if canStream st then Ok D'
         else Err (JsError "NotImplementedError"
           "cannot create asyncIterator because the underlying database does not support streaming")) ∧
      collect (Storage.find (foldl putMany st bss) aud) = Ok (filter (λ d, audience d = aud) D') ∧
      result_sim (Authorization.find (from D') sel now)
        (Authorization.find (from (D ++ concat bss)) sel now) ∧
      result_sim (Authorization.find (from (filter (λ d, audience d = aud) D')) sel now)
        (Authorization.find (from (filter (λ d, audience d = aud) (D ++ concat bss))) sel now).
  Proof.
    intros Hr Hca Hv. pose proof (represents_putMany_batches st D bss Hr Hca Hv) as Hr'.
    pose proof (put_abs_batches_same_elems D bss Hca) as Hsame.
    exists (foldl put_abs D bss). split_and!.
    - done.
    - by rewrite (asyncIterator_represents _ _ Hr'), canStream_putMany_batches.
    - by apply find_represents.
    - by apply Authorization.find_same_elems.
    - apply Authorization.find_same_elems. by rewrite Hsame.
  Qed.
End theorems.

(** ** Witness *)

(** The two batches of [Storage.putMany_batches_find_witness], the
    second repeating the first's delegation, then the query of the
    space's [store/add] capability by Alice. *)
Definition example_batches : list (list delegation) :=
  [[example_grant]; [example_grant; example_upload]].

Lemma store_then_find_witness :
  @represents list_codec empty_store [] ∧
  @content_addressed list_codec ([] ++ concat example_batches)%list ∧
  Forall (@cid_v1 list_codec) (concat example_batches) ∧
  ∃ D', D' ≡ₛ ([] ++ concat example_batches)%list ∧
    collect (asyncIterator (foldl putMany empty_store example_batches)) = Ok D' ∧
    collect (Storage.find (foldl putMany empty_store example_batches) alice) =
      Ok (filter (λ d, audience d = alice) D') ∧
    result_sim (Authorization.find (from D') example_selector 1000)
      (Authorization.find (from ([] ++ concat example_batches)) example_selector 1000) ∧
    result_sim (Authorization.find (from (filter (λ d, audience d = alice) D')) example_selector 1000)
      (Authorization.find (from (filter (λ d, audience d = alice) ([] ++ concat example_batches)))
         example_selector 1000).
Proof.
  assert (@represents list_codec empty_store []) as Hr by (split_and!; [done|constructor|set_solver]).
  assert (@content_addressed list_codec ([] ++ concat example_batches)%list)
    as Hc by (intros d1 d2 Hd1 Hd2; vm_compute in Hd1, Hd2; vm_compute;
              repeat (apply elem_of_cons in Hd1 as [->|Hd1]); repeat (apply elem_of_cons in Hd2 as [->|Hd2]);
              set_solver).
  assert (Forall (@cid_v1 list_codec) (concat example_batches)) as Hv by (repeat constructor).
  split_and!; [done..|].
  exact (store_then_find empty_store [] example_batches alice _ 1000 Hr Hc Hv).
Defined.

End Pipeline.
